(** * rtfconverter: a shallow embedding of the Go sources

    The development follows the layout of the repository:

    - [Crtf]       decompress.go   (compressed-RTF container, CRC32)
    - [utf8], [Bufio]  the part of Go's unicode/utf8 and bufio.Reader that
                   the tokenizer calls
    - [Utils]      utils.go        (byte classes, code pages, decoding)
    - [Tree]       the token tree  (groups, control words, symbols, text)
    - [Structure]  structure.go    (the tokenizer and the encapsulation tests)
    - [Interp]     the HTML-encapsulated interpreter and its caller in
                   html-converter.go

    Go's [int] is the 64-bit signed integer, modelled by [Z].  The lengths,
    offsets and positions computed below stay far inside that range and are
    computed without wrap-around; where a value read from the input can take
    an [int] to the end of the range (the counter of the loop that follows a
    [\u]) the wrap-around is written out with [wrap_int]; the sum
    [off + l] of [calculateCRC32Continue] is exact as long as it is an
    [int], which the statements about arbitrary [off] and [l] assume.
    A Go run-time panic (nil dereference, index out of range, store into a
    nil map) is an explicit outcome of the model, and so is a loop that is
    given too little fuel: see [run]. *)

From Stdlib Require Import ZArith List String Ascii Lia Bool.
From Stdlib Require Import Strings.Byte.
From stdpp Require Import gmap strings list fin_maps.

Local Open Scope Z_scope.

(** [len(s)] of a Go slice. *)
Definition len {A : Type} (l : list A) : Z := Z.of_nat (length l).

(** Indexing a Go slice with an [int]: [None] is the index-out-of-range panic. *)
Definition index {A : Type} (l : list A) (i : Z) : option A :=
  if i <? 0 then None else l !! Z.to_nat i.

(** [s[i] = x] on a Go slice; [None] is the index-out-of-range panic. *)
Definition store {A : Type} (l : list A) (i : Z) (x : A) : option (list A) :=
  if (0 <=? i) && (i <? Z.of_nat (length l)) then Some (<[Z.to_nat i := x]> l)
  else None.

(** Go's [int] arithmetic: a result outside the 64 bits wraps around. *)
Definition wrap_int (z : Z) : Z := (z + 2 ^ 63) mod 2 ^ 64 - 2 ^ 63.

(** The values of Go's [int]. *)
Definition is_int (z : Z) : Prop := - 2 ^ 63 <= z < 2 ^ 63.

(* ===================================================================== *)
(** ** decompress.go *)
(* ===================================================================== *)

Module Crtf.

Definition b2z (b : byte) : Z := Z.of_N (Byte.to_N b).

(** [func shiftZeroLeft(i int, positions uint) int { return i >> positions }] *)
Definition shiftZeroLeft (i positions : Z) : Z := Z.shiftr i positions.

(** The inner [for j] loop of [init]: [j] rounds on [c]. *)
Fixpoint table_rounds (j : nat) (c : Z) : Z :=
  match j with
  | O => c
  | S j' =>
      table_rounds j'
        (if Z.land c 1 =? 1 then Z.lxor 0xEDB88320 (shiftZeroLeft c 1)
         else shiftZeroLeft c 1)
  end.

(** [CRC32_TABLE], as filled by [init]. *)
Definition CRC32_TABLE : list Z :=
  List.map (fun i => table_rounds 8 (Z.of_nat i)) (seq 0 256).

Definition MAGIC_COMPRESSED : Z := 0x75465a4c.
Definition MAGIC_UNCOMPRESSED : Z := 0x414c454d.
Definition DICT_SIZE : Z := 4096.
Definition DICT_MASK : Z := DICT_SIZE - 1.

Definition LF : byte := x0a.
Definition CR : byte := x0d.

(** [prebuf]; the Go literal's [\n\r] are the two bytes 0x0A 0x0D. *)
Definition COMPRESSED_RTF_PREBUF : list byte :=
  list_byte_of_string "{\rtf1\ansi\mac\deff0\deftab720{\fonttbl;}"
  ++ list_byte_of_string "{\f0\fnil \froman \fswiss \fmodern \fscript "
  ++ list_byte_of_string "\fdecor MS Sans SerifSymbolArialTimes New RomanCourier"
  ++ list_byte_of_string "{\colortbl\red0\green0\blue0" ++ [LF; CR]
  ++ list_byte_of_string "\par "
  ++ list_byte_of_string "\pard\plain\f0\fs20\b\i\u\tab\tx".

(** [getU32]; [None] when one of the four reads is out of range. *)
Definition getU32 (buf : list byte) (offset : Z) : option Z :=
  t0 ← index buf offset;
  t1 ← index buf (offset + 1);
  t2 ← index buf (offset + 2);
  t3 ← index buf (offset + 3);
  let b :=
    Z.lor (Z.lor (Z.lor (Z.land (b2z t0) 0xFF)
                        (Z.shiftl (Z.land (b2z t1) 0xFF) 8))
                 (Z.shiftl (Z.land (b2z t2) 0xFF) 16))
          (Z.shiftl (Z.land (b2z t3) 0xFF) 24) in
  Some (Z.land b 0xFFFFFFFF).

(** One pass of the body of the loop of [calculateCRC32Continue]. *)
Definition crc_update (crc : Z) (b : byte) : Z :=
  Z.lxor (default 0 (index CRC32_TABLE (Z.land (Z.lxor crc (b2z b)) 0xFF)))
         (shiftZeroLeft crc 8).

(** [for i := off; i < end; i += 1], with [count] passes left. *)
Fixpoint crc_for (count : nat) (buf : list byte) (i : Z) (crc : Z) : option Z :=
  match count with
  | O => Some crc
  | S count' =>
      b ← index buf i;
      crc_for count' buf (i + 1) (crc_update crc b)
  end.

(** [calculateCRC32Continue]; [None] is the index-out-of-range panic.
    [end_] is Go's [off + l] as long as that sum [is_int]: [Decompress] calls
    with [off = 16] and [l = len(src) - 16]. *)
Definition calculateCRC32Continue (buf : list byte) (off l crc : Z) : option Z :=
  let end_ := off + l in
  crc_for (Z.to_nat (end_ - off)) buf off crc.

Definition calculateCRC32 (buf : list byte) (off l : Z) : option Z :=
  calculateCRC32Continue buf off l 0.

(** The four [errors.New] values of [Decompress], in source order:
    "Invalid compressed-RTF header", "compressed data size mismatch",
    "compressed-RTF CRC32 failed", "Unknown compression type ...". *)
Inductive error : Type :=
  | InvalidHeader
  | SizeMismatch
  | CRC32Failed
  | UnknownMagic.

(** What a call of [Decompress] does: return bytes, return an error, or
    panic at run time. *)
Inductive result : Type :=
  | Ok (out : list byte)
  | Err (e : error)
  | Panic.

(** The variables of the decoding loop. *)
Record dstate : Type := mkD {
  d_in : Z;
  d_out : Z;
  d_flagCount : Z;
  d_flags : Z;
  d_dst : list byte
}.

(** [for offset < end { dst[out] = dst[offset]; out += 1; offset += 1 }],
    with [count] passes left. *)
Fixpoint copy_for (count : nat) (dst : list byte) (out offset : Z)
  : option (list byte * Z) :=
  match count with
  | O => Some (dst, out)
  | S count' =>
      b ← index dst offset;
      dst' ← store dst out b;
      copy_for count' dst' (out + 1) (offset + 1)
  end.

Inductive step_result : Type :=
  | Next (st : dstate)      (* the loop goes round again *)
  | Break (st : dstate)     (* [break]: a self-reference *)
  | Fault.                  (* index out of range *)

(** The flag fetch at the head of the loop body: the new [flags] and [in]. *)
Definition fetch_flags (src : list byte) (st : dstate) : option (Z * Z) :=
  if Z.land (d_flagCount st) 7 =? 0 then
    match index src (d_in st) with
    | Some b => Some (b2z b, d_in st + 1)
    | None => None
    end
  else Some (Z.shiftr (d_flags st) 1, d_in st).

(** The reference's offset from the block start, made absolute:
    [offset = (offset << 4) | shiftZeroLeft(length, 4)] and then
    [offset = out & ^DICT_MASK | offset]. *)
Definition abs_offset (out : Z) (hi lo : byte) : Z :=
  let offset := Z.land (b2z hi) 0xFF in
  let length := Z.land (b2z lo) 0xFF in
  let offset := Z.lor (Z.shiftl offset 4) (shiftZeroLeft length 4) in
  Z.lor (Z.land out (Z.lnot DICT_MASK)) offset.

(** [length = (length & 0xF) + 2]. *)
Definition ref_length (lo : byte) : Z :=
  Z.land (Z.land (b2z lo) 0xFF) 0xF + 2.

(** One pass of the body of the [for] loop at decompress.go:88. *)
Definition decodeStep (src : list byte) (st : dstate) : step_result :=
  match fetch_flags src st with
  | None => Fault
  | Some (flags, in1) =>
      let flagCount := d_flagCount st + 1 in
      if Z.land flags 1 =? 0 then
        match index src in1 with
        | None => Fault
        | Some b =>
            match store (d_dst st) (d_out st) b with
            | None => Fault
            | Some dst' => Next (mkD (in1 + 1) (d_out st + 1) flagCount flags dst')
            end
        end
      else
        match index src in1, index src (in1 + 1) with
        | Some hi, Some lo =>
            let length := ref_length lo in
            let offset := abs_offset (d_out st) hi lo in
            if offset >=? d_out st then
              if offset =? d_out st then
                Break (mkD (in1 + 2) (d_out st) flagCount flags (d_dst st))
              else
                let offset := offset - DICT_SIZE in
                let end_ := offset + length in
                match copy_for (Z.to_nat (end_ - offset)) (d_dst st) (d_out st) offset with
                | None => Fault
                | Some (dst', out') => Next (mkD (in1 + 2) out' flagCount flags dst')
                end
            else
              let end_ := offset + length in
              match copy_for (Z.to_nat (end_ - offset)) (d_dst st) (d_out st) offset with
              | None => Fault
              | Some (dst', out') => Next (mkD (in1 + 2) out' flagCount flags dst')
              end
        | _, _ => Fault
        end
  end.

(** How the loop ends. *)
Inductive loop_result : Type :=
  | Finished (st : dstate)
  | Crashed.

(** The [for { ... }] loop; [None] when [fuel] passes were not enough. *)
Fixpoint decodeLoop (fuel : nat) (src : list byte) (st : dstate)
  : option loop_result :=
  match fuel with
  | O => None
  | S fuel' =>
      match decodeStep src st with
      | Next st' => decodeLoop fuel' src st'
      | Break st' => Some (Finished st')
      | Fault => Some Crashed
      end
  end.

(** [dst = make([]byte, out+uncompressedSize)] followed by the copy of the
    preamble into its first bytes. *)
Definition initial_dst (uncompressedSize : Z) : list byte :=
  COMPRESSED_RTF_PREBUF ++ replicate (Z.to_nat uncompressedSize) x00.

(** [Decompress], with [fuel] passes allowed to its decoding loop. *)
Definition Decompress_fuel (fuel : nat) (src : list byte) : option result :=
  if len src <? 16 then Some (Err InvalidHeader)
  else
    match getU32 src 0, getU32 src 4, getU32 src 8, getU32 src 12 with
    | Some compressedSize, Some uncompressedSize, Some magic, Some crc32sum =>
        if negb (compressedSize =? len src - 4) then Some (Err SizeMismatch)
        else if magic =? MAGIC_UNCOMPRESSED then Some (Ok src)
        else if magic =? MAGIC_COMPRESSED then
          match calculateCRC32 src 16 (len src - 16) with
          | None => Some Panic
          | Some crc =>
              if negb (crc32sum =? crc) then Some (Err CRC32Failed)
              else
                let out := len COMPRESSED_RTF_PREBUF in
                let dst := initial_dst uncompressedSize in
                match decodeLoop fuel src (mkD 16 out 0 0 dst) with
                | None => None
                | Some Crashed => Some Panic
                | Some (Finished st) =>
                    Some (Ok (drop (length COMPRESSED_RTF_PREBUF) (d_dst st)))
                end
          end
        else Some (Err UnknownMagic)
    | _, _, _, _ => Some Panic
    end.

(** Every pass of the loop reads at least one byte of [src], so
    [length src] passes and one more always suffice (see
    [Decompress_returns]). *)
Definition Decompress (src : list byte) : option result :=
  Decompress_fuel (S (length src)) src.

(** Header fields, for statements. *)
Definition compressedSize (src : list byte) : Z := default 0 (getU32 src 0).
Definition uncompressedSize (src : list byte) : Z := default 0 (getU32 src 4).
Definition magic (src : list byte) : Z := default 0 (getU32 src 8).
Definition crc32sum (src : list byte) : Z := default 0 (getU32 src 12).

(** The loop variables when the loop is entered. *)
Definition start (src : list byte) : dstate :=
  mkD 16 (len COMPRESSED_RTF_PREBUF) 0 0 (initial_dst (uncompressedSize src)).

(** [reaches src a b]: the loop, entered in [a], comes to the head of its
    body in [b]. *)
Inductive reaches (src : list byte) : dstate -> dstate -> Prop :=
  | reaches_here st : reaches src st st
  | reaches_next a b c :
      decodeStep src a = Next b -> reaches src b c -> reaches src a c.

(** The next element at [st] is a back-reference whose absolute offset is
    the write position. *)
Definition is_sentinel (src : list byte) (st : dstate) : Prop :=
  exists flags in1 hi lo,
    fetch_flags src st = Some (flags, in1) /\ Z.land flags 1 <> 0 /\
    index src in1 = Some hi /\ index src (in1 + 1) = Some lo /\
    abs_offset (d_out st) hi lo = d_out st.

(** The checksum in the words of the format: the CRC-32 of RFC 1952, bit by
    bit with the reflected polynomial 0xEDB88320, started from 0 and with no
    inversion before or after. *)
Definition POLY : Z := 0xEDB88320.

Definition crc_bit (c : Z) : Z :=
  if Z.odd c then Z.lxor (Z.shiftr c 1) POLY else Z.shiftr c 1.

Definition crc_byte (crc : Z) (b : byte) : Z :=
  Nat.iter 8 crc_bit (Z.lxor crc (b2z b)).

Definition crc32_plain (bs : list byte) : Z := fold_left crc_byte bs 0.

(** One of the integrity checks fails: the header is short, the size field is
    not [len(src) - 4], the magic is unknown, or, for the compressed magic,
    the checksum field is not the checksum of the bytes from 16 on. *)
Definition integrity_failure (src : list byte) : Prop :=
  len src < 16 \/
  compressedSize src <> len src - 4 \/
  (magic src <> MAGIC_COMPRESSED /\ magic src <> MAGIC_UNCOMPRESSED) \/
  (magic src = MAGIC_COMPRESSED /\ crc32sum src <> crc32_plain (drop 16 src)).

(** Three streams with the compressed magic, a right size field and a right
    checksum.  [stream_hi]: two literals and the self-reference.
    [stream_header_only]: nothing after the header.  [stream_overfull]: one
    literal, announced size 0. *)
Definition stream_hi : list byte :=
  [x11; x00; x00; x00;  x02; x00; x00; x00;  x4c; x5a; x46; x75;
   xaa; xe7; x0d; xe4;  x04; x68; x69; x0d; x10].

Definition stream_header_only : list byte :=
  [x0c; x00; x00; x00;  x00; x00; x00; x00;  x4c; x5a; x46; x75;
   x00; x00; x00; x00].

Definition stream_overfull : list byte :=
  [x0e; x00; x00; x00;  x00; x00; x00; x00;  x4c; x5a; x46; x75;
   xce; x51; xb5; x3a;  x00; x61].

End Crtf.

(* ===================================================================== *)
(** ** Bytes and strings of the tokenizer and the interpreter

    A Go [string] or [[]byte] is a sequence of bytes: Rocq's [string], whose
    characters are the 256 [ascii] values. *)
(* ===================================================================== *)

Local Open Scope string_scope.
Local Open Scope Z_scope.

Definition byteZ (c : ascii) : Z := Z.of_N (N_of_ascii c).
Definition byte_of_Z (z : Z) : ascii := ascii_of_N (Z.to_N (z mod 256)).

Definition chr_LF : ascii := ascii_of_N 10.
Definition chr_CR : ascii := ascii_of_N 13.
Definition chr_NUL : ascii := ascii_of_N 0.

Definition string_len (s : string) : Z := Z.of_nat (String.length s).

(* ===================================================================== *)
(** ** Go's unicode/utf8, as far as [ReadRune], [WriteRune] and the
       conversion [string(b)] need it *)
(* ===================================================================== *)

Module utf8.

Definition RuneError : Z := 0xFFFD.
Definition MaxRune : Z := 0x10FFFF.

(** The lead byte's entry in the table [first]: [None] for an invalid lead
    byte, else the size of the sequence and the range accepted for its
    second byte. *)
Definition lead (p0 : Z) : option (nat * (Z * Z)) :=
  if p0 <? 0xC2 then None
  else if p0 <=? 0xDF then Some (2%nat, (0x80, 0xBF))
  else if p0 =? 0xE0 then Some (3%nat, (0xA0, 0xBF))
  else if p0 <=? 0xEC then Some (3%nat, (0x80, 0xBF))
  else if p0 =? 0xED then Some (3%nat, (0x80, 0x9F))
  else if p0 <=? 0xEF then Some (3%nat, (0x80, 0xBF))
  else if p0 =? 0xF0 then Some (4%nat, (0x90, 0xBF))
  else if p0 <=? 0xF3 then Some (4%nat, (0x80, 0xBF))
  else if p0 =? 0xF4 then Some (4%nat, (0x80, 0x8F))
  else None.

Definition continuation (b : Z) : bool := (0x80 <=? b) && (b <=? 0xBF).

(** [DecodeRune(p)] on a non-empty [p]: the rune and its size in bytes. *)
Definition DecodeRune (p : string) : Z * nat :=
  match p with
  | EmptyString => (RuneError, 0%nat)
  | String c0 rest =>
      let p0 := byteZ c0 in
      if p0 <? 0x80 then (p0, 1%nat)
      else
        match lead p0 with
        | None => (RuneError, 1%nat)
        | Some (sz, (lo, hi)) =>
            if (String.length p <? sz)%nat then (RuneError, 1%nat)
            else
              match rest with
              | EmptyString => (RuneError, 1%nat)
              | String c1 rest1 =>
                  let b1 := byteZ c1 in
                  if (b1 <? lo) || (hi <? b1) then (RuneError, 1%nat)
                  else if (sz <=? 2)%nat then
                    (Z.lor (Z.shiftl (Z.land p0 0x1F) 6) (Z.land b1 0x3F), 2%nat)
                  else
                    match rest1 with
                    | EmptyString => (RuneError, 1%nat)
                    | String c2 rest2 =>
                        let b2 := byteZ c2 in
                        if negb (continuation b2) then (RuneError, 1%nat)
                        else if (sz <=? 3)%nat then
                          (Z.lor (Z.lor (Z.shiftl (Z.land p0 0x0F) 12)
                                        (Z.shiftl (Z.land b1 0x3F) 6))
                                 (Z.land b2 0x3F), 3%nat)
                        else
                          match rest2 with
                          | EmptyString => (RuneError, 1%nat)
                          | String c3 _ =>
                              let b3 := byteZ c3 in
                              if negb (continuation b3) then (RuneError, 1%nat)
                              else
                                (Z.lor (Z.lor (Z.lor (Z.shiftl (Z.land p0 0x07) 18)
                                                     (Z.shiftl (Z.land b1 0x3F) 12))
                                              (Z.shiftl (Z.land b2 0x3F) 6))
                                       (Z.land b3 0x3F), 4%nat)
                          end
                    end
              end
        end
  end.

Definition three_bytes (r : Z) : string :=
  String (byte_of_Z (Z.lor 0xE0 (Z.shiftr r 12)))
    (String (byte_of_Z (Z.lor 0x80 (Z.land (Z.shiftr r 6) 0x3F)))
       (String (byte_of_Z (Z.lor 0x80 (Z.land r 0x3F))) EmptyString)).

(** [AppendRune(nil, r)]: the UTF-8 encoding of a rune. *)
Definition EncodeRune (r : Z) : string :=
  if (0 <=? r) && (r <=? 0x7F) then String (byte_of_Z r) EmptyString
  else if (0 <=? r) && (r <=? 0x7FF) then
    String (byte_of_Z (Z.lor 0xC0 (Z.shiftr r 6)))
      (String (byte_of_Z (Z.lor 0x80 (Z.land r 0x3F))) EmptyString)
  else if (r <? 0) || (MaxRune <? r) || ((0xD800 <=? r) && (r <=? 0xDFFF)) then
    three_bytes RuneError
  else if r <=? 0xFFFF then three_bytes r
  else
    String (byte_of_Z (Z.lor 0xF0 (Z.shiftr r 18)))
      (String (byte_of_Z (Z.lor 0x80 (Z.land (Z.shiftr r 12) 0x3F)))
         (String (byte_of_Z (Z.lor 0x80 (Z.land (Z.shiftr r 6) 0x3F)))
            (String (byte_of_Z (Z.lor 0x80 (Z.land r 0x3F))) EmptyString))).

End utf8.

(** The conversion [string(b)] of a byte: the UTF-8 encoding of the code
    point [b]. *)
Definition string_of_byte (b : ascii) : string := utf8.EncodeRune (byteZ b).

(* ===================================================================== *)
(** ** Go's bufio.Reader over an in-memory source *)
(* ===================================================================== *)

Module Bufio.

(** [buf] is what is still to be read; [lastByte] is the reader's field of
    that name, the byte an [UnreadByte] would put back ([None] for -1). *)
Record Reader : Type := mkReader {
  lastByte : option ascii;
  buf : string
}.

Definition NewReader (content : string) : Reader := mkReader None content.

Fixpoint take_string (n : nat) (s : string) : string :=
  match n, s with
  | S n', String c r => String c (take_string n' r)
  | _, _ => EmptyString
  end.

Fixpoint drop_string (n : nat) (s : string) : string :=
  match n, s with
  | S n', String _ r => drop_string n' r
  | _, _ => s
  end.

(** [Peek(n)]: up to [n] bytes, and whether fewer than [n] were there. *)
Definition Peek (n : nat) (r : Reader) : Reader * string * bool :=
  let bp := take_string n (buf r) in
  (mkReader None (buf r), bp, (String.length bp <? n)%nat).

(** [ReadByte()]: the byte (0 at the end of the input) and the error flag. *)
Definition ReadByte (r : Reader) : Reader * ascii * bool :=
  match buf r with
  | EmptyString => (r, chr_NUL, true)
  | String c rest => (mkReader (Some c) rest, c, false)
  end.

Fixpoint last_char (s : string) (d : ascii) : ascii :=
  match s with
  | EmptyString => d
  | String c r => last_char r c
  end.

(** [ReadRune()]: the rune and the error flag. *)
Definition ReadRune (r : Reader) : Reader * Z * bool :=
  match buf r with
  | EmptyString => (r, 0, true)
  | String c _ =>
      let '(rune, size) :=
        if byteZ c <? 0x80 then (byteZ c, 1%nat) else utf8.DecodeRune (buf r) in
      (mkReader (Some (last_char (take_string size (buf r)) c))
                (drop_string size (buf r)),
       rune, false)
  end.

(** [UnreadByte()]: puts [lastByte] back when there is one. *)
Definition UnreadByte (r : Reader) : Reader :=
  match lastByte r with
  | None => r
  | Some c => mkReader None (String c (buf r))
  end.

End Bufio.

(* ===================================================================== *)
(** ** utils.go *)
(* ===================================================================== *)

Module Utils.

Definition between (lo hi : string) (b : ascii) : bool :=
  match lo, hi with
  | String l _, String h _ => (byteZ l <=? byteZ b) && (byteZ b <=? byteZ h)
  | _, _ => false
  end.

(** [regexp.MatchString(`[A-Za-z]{1}`, string(b))] *)
Definition ByteIsAsciiLetter (b : ascii) : bool :=
  between "A" "Z" b || between "a" "z" b.

(** [regexp.MatchString(`[0-9]{1}`, string(b))] *)
Definition ByteIsDigit (b : ascii) : bool := between "0" "9" b.

(** [regexp.MatchString(`[A-Za-z0-9]{1}`, string(b))] *)
Definition ByteIsHexDigit (b : ascii) : bool :=
  between "A" "Z" b || between "a" "z" b || between "0" "9" b.

(** The sixteen digits of base 16, for statements. *)
Definition is_hexadecimal (b : ascii) : bool :=
  between "0" "9" b || between "A" "F" b || between "a" "f" b.

Definition rtfEncodeCodePageMap : list (string * string) :=
  [ ("ansi", "CP1252"); ("mac", "MAC"); ("pc", "CP437"); ("pca", "CP850");
    ("437", "CP437"); ("708", "ASMO-708"); ("819", "CP819"); ("850", "CP850");
    ("852", "CP852"); ("860", "CP860"); ("862", "CP862"); ("863", "CP863");
    ("864", "CP864"); ("865", "CP865"); ("866", "CP866"); ("874", "CP874");
    ("932", "CP932"); ("936", "CP936"); ("949", "CP949"); ("950", "CP950");
    ("1250", "CP1250"); ("1251", "CP1251"); ("1252", "CP1252");
    ("1253", "CP1253"); ("1254", "CP1254"); ("1255", "CP1255");
    ("1256", "CP1256"); ("1257", "CP1257"); ("1258", "CP1258");
    ("1361", "CP1361") ].

Fixpoint assoc (k : string) (m : list (string * string)) : option string :=
  match m with
  | [] => None
  | (k', v) :: m' => if String.eqb k k' then Some v else assoc k m'
  end.

(** [GetEncodingFromCodepage]: the value; the empty string, with an error,
    when absent. *)
Definition GetEncodingFromCodepage (code : string) : string :=
  default EmptyString (assoc code rtfEncodeCodePageMap).

(** The decoders of golang.org/x/text that [ConvertToUtf8] chooses from. *)
Inductive Decoder : Type :=
  | Macintosh | CodePage437 | ISO8859_6 | ISO8859_1 | CodePage850
  | CodePage852 | CodePage860 | CodePage862 | CodePage863 | CodePage865
  | CodePage866 | Windows874 | ShiftJIS | GBK | EUCKR | Big5
  | Windows1250 | Windows1251 | Windows1252 | Windows1253 | Windows1254
  | Windows1255 | Windows1256 | Windows1257 | Windows1258.

(** The [switch] of [ConvertToUtf8]; "CP864" has an empty case. *)
Definition decoder_of (srcEncoding : string) : option Decoder :=
  if String.eqb srcEncoding "MAC" then Some Macintosh
  else if String.eqb srcEncoding "CP437" then Some CodePage437
  else if String.eqb srcEncoding "ASMO-708" then Some ISO8859_6
  else if String.eqb srcEncoding "CP819" then Some ISO8859_1
  else if String.eqb srcEncoding "CP850" then Some CodePage850
  else if String.eqb srcEncoding "CP852" then Some CodePage852
  else if String.eqb srcEncoding "CP860" then Some CodePage860
  else if String.eqb srcEncoding "CP862" then Some CodePage862
  else if String.eqb srcEncoding "CP863" then Some CodePage863
  else if String.eqb srcEncoding "CP864" then None
  else if String.eqb srcEncoding "CP865" then Some CodePage865
  else if String.eqb srcEncoding "CP866" then Some CodePage866
  else if String.eqb srcEncoding "CP874" then Some Windows874
  else if String.eqb srcEncoding "CP932" then Some ShiftJIS
  else if String.eqb srcEncoding "CP936" then Some GBK
  else if String.eqb srcEncoding "CP949" then Some EUCKR
  else if String.eqb srcEncoding "CP950" then Some Big5
  else if String.eqb srcEncoding "CP1250" then Some Windows1250
  else if String.eqb srcEncoding "CP1251" then Some Windows1251
  else if String.eqb srcEncoding "CP1252" then Some Windows1252
  else if String.eqb srcEncoding "CP1253" then Some Windows1253
  else if String.eqb srcEncoding "CP1254" then Some Windows1254
  else if String.eqb srcEncoding "CP1255" then Some Windows1255
  else if String.eqb srcEncoding "CP1256" then Some Windows1256
  else if String.eqb srcEncoding "CP1257" then Some Windows1257
  else if String.eqb srcEncoding "CP1258" then Some Windows1258
  else if String.eqb srcEncoding "CP1361" then Some EUCKR
  else None.

Section Decoding.
(** [dec.Bytes(b)]: the bytes a decoder of the text package returns. *)
Variable decoder_Bytes : Decoder -> string -> string.

(** [ConvertToUtf8]; its callers drop the error. *)
Definition ConvertToUtf8 (b : string) (srcEncoding : string) : string :=
  match decoder_of srcEncoding with
  | Some dec => decoder_Bytes dec b
  | None => b
  end.
End Decoding.

End Utils.

(* ===================================================================== *)
(** ** The token tree *)
(* ===================================================================== *)

Module Tree.

(** The four implementations of the interface [rtfElement].  A group is
    given by its children, in order; the [parent] back-edge is carried by
    the tokenizer's path (see [Structure.RtfStructure]). *)
#[warnings="-register-all"]
Inductive rtfElement : Type :=
  | rtfGroup (children : list rtfElement)
  | rtfControlWord (word parameter : string)
  | rtfControlSymbol (symbol parameter : string)
  | rtfText (content : string).

(** [r.CheckChildAtIndex(idx, checkWord)], [r] given by its children. *)
Definition CheckChildAtIndex (children : list rtfElement) (idx : nat)
    (checkWord : string) : bool :=
  match children !! idx with
  | Some (rtfControlSymbol symbol _) => String.eqb symbol checkWord
  | Some (rtfControlWord word _) => String.eqb word checkWord
  | _ => false
  end.

Definition IsDestination (r : list rtfElement) : bool := CheckChildAtIndex r 0 "*".
Definition IsRtfGroup (r : list rtfElement) : bool := CheckChildAtIndex r 0 "rtf".
Definition IsFontTable (r : list rtfElement) : bool := CheckChildAtIndex r 0 "fonttbl".
Definition IsStylesheet (r : list rtfElement) : bool := CheckChildAtIndex r 0 "stylesheet".
Definition IsListtables (r : list rtfElement) : bool := CheckChildAtIndex r 0 "listtables".
Definition IsInfo (r : list rtfElement) : bool := CheckChildAtIndex r 0 "info".
Definition IsFilesTable (r : list rtfElement) : bool :=
  IsDestination r && CheckChildAtIndex r 1 "filetbl".
Definition IsTrackChanges (r : list rtfElement) : bool :=
  (IsDestination r && CheckChildAtIndex r 1 "revtbl") || CheckChildAtIndex r 0 "revtbl".
Definition IsColorTable (r : list rtfElement) : bool := CheckChildAtIndex r 0 "colortbl".
Definition IsFontInfo (r : list rtfElement) : bool := CheckChildAtIndex r 0 "f".
Definition IsFontAlternative (r : list rtfElement) : bool :=
  IsDestination r && CheckChildAtIndex r 1 "falt".

(** Go's [strconv]: the value of a run of digits in base [base]. *)
Definition digit_value (c : ascii) : option Z :=
  if Utils.between "0" "9" c then Some (byteZ c - 48)
  else if Utils.between "a" "z" c then Some (byteZ c - 97 + 10)
  else if Utils.between "A" "Z" c then Some (byteZ c - 65 + 10)
  else None.

Fixpoint digits_value (base : Z) (s : string) (acc : Z) : option Z :=
  match s with
  | EmptyString => Some acc
  | String c r =>
      match digit_value c with
      | Some d => if d <? base then digits_value base r (acc * base + d) else None
      | None => None
      end
  end.

(** [strconv.ParseInt(s, base, bitSize)] for base 10 or 16: an optional
    sign, at least one digit, and the value within [bitSize] bits; [None]
    is a non-nil error. *)
Definition ParseInt (s : string) (base : Z) (bitSize : Z) : option Z :=
  let '(neg, body) :=
    match s with
    | String c r =>
        if Ascii.eqb c "-" then (true, r)
        else if Ascii.eqb c "+" then (false, r)
        else (false, s)
    | EmptyString => (false, s)
    end in
  match body with
  | EmptyString => None
  | _ =>
      match digits_value base body 0 with
      | None => None
      | Some n =>
          let v := if neg then - n else n in
          if (- 2 ^ (bitSize - 1) <=? v) && (v <=? 2 ^ (bitSize - 1) - 1)
          then Some v else None
      end
  end.

(** [strconv.Atoi(s)], with the 64-bit [int]. *)
Definition Atoi (s : string) : option Z := ParseInt s 10 64.

(** [GetIntParameter] of a control word, on its parameter string. *)
Definition GetIntParameter (parameter : string) : Z :=
  if String.eqb parameter EmptyString then 1
  else match Atoi parameter with
       | Some p => p
       | None => 1
       end.

End Tree.

(* ===================================================================== *)
(** ** structure.go: the tokenizer *)
(* ===================================================================== *)

(** What running a piece of the program comes to: a value, a run-time panic,
    or not enough fuel given to one of its loops. *)
Inductive run (A : Type) : Type :=
  | Ret (a : A)
  | GoPanic
  | OutOfFuel.
Arguments Ret {A} a.
Arguments GoPanic {A}.
Arguments OutOfFuel {A}.

#[global] Instance run_ret : MRet run := fun A a => Ret a.
#[global] Instance run_bind : MBind run := fun A B k m =>
  match m with
  | Ret a => k a
  | GoPanic => GoPanic
  | OutOfFuel => OutOfFuel
  end.

Module Structure.
Import Tree Bufio.

Definition LBRACE : ascii := "{".
Definition RBRACE : ascii := "}".
Definition BACKSLASH : ascii := ascii_of_N 92.
Definition APOSTROPHE : ascii := ascii_of_N 39.
Definition SPACE : ascii := " ".
Definition MINUS : ascii := "-".

Definition is_eol (b : ascii) : bool := Ascii.eqb b chr_CR || Ascii.eqb b chr_LF.
Definition is_brace (b : ascii) : bool := Ascii.eqb b LBRACE || Ascii.eqb b RBRACE.

(** The tokenizer's object.  The pointers [Root] and [currentGroup] and the
    [parent] fields of the groups are held as a path:
    - [path] lists the groups that are open, [currentGroup] first and [Root]
      last, each by the children appended to it so far; the group being built
      is the child its parent will receive next.  [currentGroup == nil] is
      [path = []].
    - [closed] is [Root] once its closing brace has been read; then
      [currentGroup] is nil.
    [Root == nil] is [closed = None] with [path = []].
    [uc] is the slice of that name, its top last. *)
Record RtfStructure : Type := mkS {
  reader : Reader;
  closed : option (list rtfElement);
  path : list (list rtfElement);
  uc : list Z
}.

Definition with_reader (rd : Reader) (o : RtfStructure) : RtfStructure :=
  mkS rd (closed o) (path o) (uc o).
Definition with_uc (u : list Z) (o : RtfStructure) : RtfStructure :=
  mkS (reader o) (closed o) (path o) u.

Definition Root_is_nil (o : RtfStructure) : bool :=
  match closed o, path o with
  | None, [] => true
  | _, _ => false
  end.

Definition currentGroup_is_nil (o : RtfStructure) : bool :=
  match path o with
  | [] => true
  | _ => false
  end.

(** The tree under [Root]: the open groups closed onto their parents. *)
Fixpoint plug (g : list rtfElement) (parents : list (list rtfElement))
  : list rtfElement :=
  match parents with
  | [] => g
  | p :: rest => plug (p ++ [rtfGroup g])%list rest
  end.

(** The children of [Root]; [None] when [Root] is nil. *)
Definition Root (o : RtfStructure) : option (list rtfElement) :=
  match closed o with
  | Some r => Some r
  | None =>
      match path o with
      | [] => None
      | g :: parents => Some (plug g parents)
      end
  end.

(** [rtfObj.currentGroup.addChild(c)]; a nil [currentGroup] panics. *)
Definition addChild (c : rtfElement) (o : RtfStructure) : run RtfStructure :=
  match path o with
  | [] => GoPanic
  | g :: parents => Ret (mkS (reader o) (closed o) ((g ++ [c])%list :: parents) (uc o))
  end.

Definition startGroup (o : RtfStructure) : run RtfStructure :=
  if Root_is_nil o then
    Ret (mkS (reader o) (closed o) [[]] (uc o ++ [1])%list)
  else
    match path o with
    | [] => GoPanic
    | _ :: _ =>
        match index (uc o) (len (uc o) - 1) with
        | None => GoPanic
        | Some top => Ret (mkS (reader o) (closed o) ([] :: path o) (uc o ++ [top])%list)
        end
    end.

Definition endGroup (o : RtfStructure) : run RtfStructure :=
  match path o with
  | [] => GoPanic
  | g :: parents =>
      let uc' := if 0 <? len (uc o) then take (length (uc o) - 1) (uc o) else uc o in
      match parents with
      | [] => Ret (mkS (reader o) (Some g) [] uc')
      | p :: rest => Ret (mkS (reader o) (closed o) ((p ++ [rtfGroup g])%list :: rest) uc')
      end
  end.

Definition first_byte (bp : string) : ascii :=
  match bp with
  | String c _ => c
  | EmptyString => chr_NUL
  end.

(** The [for] loop of [parseText]; [None] when [fuel] passes were not enough. *)
Fixpoint parseText_loop (fuel : nat) (rd : Reader) (buffer : string)
  : option (Reader * string) :=
  match fuel with
  | O => None
  | S fuel' =>
      let '(rd, bp, _) := Peek 2 rd in
      match bp with
      | EmptyString => Some (rd, buffer)
      | String bp0 bp_rest =>
          if is_eol bp0 then
            let '(rd, _, err) := ReadByte rd in
            if err then Some (rd, buffer) else parseText_loop fuel' rd buffer
          else if Ascii.eqb bp0 BACKSLASH then
            let starts_control :=
              match bp_rest with
              | String bp1 _ =>
                  negb (Ascii.eqb bp1 RBRACE) && negb (Ascii.eqb bp1 LBRACE)
                  && negb (Ascii.eqb bp1 BACKSLASH)
              | EmptyString => false
              end in
            if starts_control then Some (rd, buffer)
            else
              let '(rd, b, err) := ReadByte rd in
              if err then Some (rd, buffer)
              else
                let buffer := buffer ++ String b EmptyString in
                let '(rd, b, err) := ReadByte rd in
                if err then Some (rd, buffer)
                else parseText_loop fuel' rd (buffer ++ String b EmptyString)
          else if is_brace bp0 then Some (rd, buffer)
          else
            let '(rd, br, err) := ReadRune rd in
            if err then Some (rd, buffer)
            else parseText_loop fuel' rd (buffer ++ utf8.EncodeRune br)
      end
  end.

Definition parseText (o : RtfStructure) : run RtfStructure :=
  match parseText_loop (S (String.length (buf (reader o)))) (reader o) EmptyString with
  | None => OutOfFuel
  | Some (rd, buffer) =>
      let o := with_reader rd o in
      if 0 <? string_len buffer then addChild (rtfText buffer) o else Ret o
  end.

Definition parseControlSymbol (o : RtfStructure) : run RtfStructure :=
  let '(rd, b, err) := ReadByte (reader o) in
  if err then Ret (with_reader rd o)
  else if is_eol b then
    let '(rd, bp, err) := Peek 1 rd in
    if err then Ret (with_reader rd o)
    else
      let rd :=
        if (String.length bp =? 1)%nat && is_eol (first_byte bp)
        then fst (fst (ReadByte rd)) else rd in
      addChild (rtfControlWord "par" EmptyString) (with_reader rd o)
  else
    let '(rd, parameter) :=
      if Ascii.eqb b APOSTROPHE then
        let '(rd, bp, err) := Peek 1 rd in
        if negb err && Utils.ByteIsHexDigit (first_byte bp) then
          let rd := fst (fst (ReadByte rd)) in
          let parameter := String (first_byte bp) EmptyString in
          let '(rd, bp, err) := Peek 1 rd in
          if negb err && Utils.ByteIsHexDigit (first_byte bp) then
            (fst (fst (ReadByte rd)), parameter ++ String (first_byte bp) EmptyString)
          else (rd, parameter)
        else (rd, EmptyString)
      else (rd, EmptyString) in
    addChild (rtfControlSymbol (string_of_byte b) parameter) (with_reader rd o).

(** The loops of [parseControlWord] that read while the next byte is in a
    class: [Peek(1)], test, [ReadByte()], append.  The bytes read, and what
    is left. *)
Fixpoint read_while (P : ascii -> bool) (s : string) : string * string :=
  match s with
  | String c r =>
      if P c then let '(w, rest) := read_while P r in (String c w, rest)
      else (EmptyString, s)
  | EmptyString => (EmptyString, EmptyString)
  end.

(** The loop that follows a [\u]: [uc] counts the units still to skip, and
    [uc--] wraps around at the least [int]; [None] when [fuel] passes were
    not enough. *)
Fixpoint skip_loop (fuel : nat) (rd : Reader) (uc : Z) : option Reader :=
  match fuel with
  | O => None
  | S fuel' =>
      let count rd :=
        let uc := wrap_int (uc - 1) in
        if uc <=? 0 then Some rd else skip_loop fuel' rd uc in
      let '(rd, bp, err) := Peek 1 rd in
      if err then Some rd
      else if is_brace (first_byte bp) then Some rd
      else
        let '(rd, br, err) := ReadRune rd in
        if err then Some rd
        else
          let '(rd, bp, err) := Peek 1 rd in
          if err then Some rd
          else if (br =? byteZ BACKSLASH) && Ascii.eqb (first_byte bp) APOSTROPHE then
            let '(rd, _, err) := ReadByte rd in
            if err then Some rd
            else
              let '(rd, _, err) := ReadByte rd in
              if err then Some rd
              else
                let '(rd, _, err) := ReadByte rd in
                if err then Some rd else count rd
          else count rd
  end.

Definition parseControlWord (o : RtfStructure) : run RtfStructure :=
  (* extract the word *)
  let '(controlWord, rest) := read_while Utils.ByteIsAsciiLetter (buf (reader o)) in
  let rd := mkReader None rest in
  (* check if the parameter is negative *)
  let '(rd, bp, err) := Peek 1 rd in
  let '(rd, sign) :=
    if negb err && Ascii.eqb (first_byte bp) MINUS then
      let '(rd, _, err) := ReadByte rd in
      (rd, if err then EmptyString else "-")
    else (rd, EmptyString) in
  (* extract the numeric parameter *)
  let '(digits, rest) := read_while Utils.ByteIsDigit (buf rd) in
  let rd := mkReader None rest in
  let controlWordParameter := sign ++ digits in
  let '(rd, bp, err) := Peek 1 rd in
  let rd :=
    if negb err && Ascii.eqb (first_byte bp) SPACE then fst (fst (ReadByte rd))
    else rd in
  let parameter :=
    if 0 <? string_len controlWordParameter then
      match Atoi controlWordParameter with
      | Some p => p
      | None => 1
      end
    else 1 in
  o ← (if String.eqb controlWord "uc" then
         match store (uc o) (len (uc o) - 1) parameter with
         | None => GoPanic
         | Some uc' => Ret (with_uc uc' o)
         end
       else Ret o);
  rd ← (if String.eqb controlWord "u" then
          match index (uc o) (len (uc o) - 1) with
          | None => GoPanic
          | Some top =>
              match skip_loop (S (String.length (buf rd))) rd top with
              | None => OutOfFuel
              | Some rd => Ret rd
              end
          end
        else Ret rd);
  addChild (rtfControlWord controlWord controlWordParameter) (with_reader rd o).

Definition parseControl (o : RtfStructure) : run RtfStructure :=
  let '(rd, bp, err) := Peek 1 (reader o) in
  let o := with_reader rd o in
  if err then Ret o
  else if negb (Utils.ByteIsAsciiLetter (first_byte bp)) then parseControlSymbol o
  else parseControlWord o.

(** One pass of the loop of [Parse]: the object after it, and whether the
    loop goes on. *)
Definition Parse_step (o : RtfStructure) : run (RtfStructure * bool) :=
  let '(rd, b, err) := ReadByte (reader o) in
  let o := with_reader rd o in
  if currentGroup_is_nil o && negb (Root_is_nil o) then Ret (o, false)
  else
    o ← (if Ascii.eqb b LBRACE then startGroup o
         else if Ascii.eqb b RBRACE then endGroup o
         else if Ascii.eqb b BACKSLASH then parseControl o
         else parseText (with_reader (UnreadByte (reader o)) o));
    Ret (o, negb err).

Fixpoint Parse_loop (fuel : nat) (o : RtfStructure) : run RtfStructure :=
  match fuel with
  | O => OutOfFuel
  | S fuel' =>
      match Parse_step o with
      | Ret (o, true) => Parse_loop fuel' o
      | Ret (o, false) => Ret o
      | GoPanic => GoPanic
      | OutOfFuel => OutOfFuel
      end
  end.

(** A fresh [RtfStructure{}] given its reader. *)
Definition setReader (rd : Reader) : RtfStructure := mkS rd None [] [].

(** [ParseBytes]: every pass but the last reads at least one byte (see
    [ParseBytes_returns]). *)
Definition ParseBytes (content : string) : run RtfStructure :=
  Parse_loop (S (S (String.length content))) (setReader (NewReader content)).

(** [IsValid]; a nil [Root] panics. *)
Definition IsValid (o : RtfStructure) : run bool :=
  match Root o with
  | None => GoPanic
  | Some children =>
      match children with
      | rtfControlWord word parameter :: _ =>
          Ret (String.eqb word "rtf" && String.eqb parameter "1")
      | _ => Ret false
      end
  end.

(** The inner [for _, item := range children] of the two encapsulation
    tests: [None] when it returned true, else the new [idx]. *)
Fixpoint range_children (word : string) (children : list rtfElement) (idx : Z)
  : option Z :=
  match children with
  | [] => Some idx
  | item :: rest =>
      match item with
      | rtfControlWord w _ =>
          if String.eqb w word then None
          else range_children word rest (idx + 1)
      | _ => range_children word rest (idx + 1)
      end
  end.

(** The outer [for { ... if idx > 10 { break } }]. *)
Fixpoint encapsulated_loop (fuel : nat) (word : string)
    (children : list rtfElement) (idx : Z) : run bool :=
  match fuel with
  | O => OutOfFuel
  | S fuel' =>
      match range_children word children idx with
      | None => Ret true
      | Some idx' =>
          if idx' >? 10 then Ret false
          else encapsulated_loop fuel' word children idx'
      end
  end.

Definition IsHtmlEncapsulated (fuel : nat) (o : RtfStructure) : run bool :=
  match Root o with
  | None => GoPanic
  | Some children => encapsulated_loop fuel "fromhtml" children 0
  end.

Definition IsTextEncapsulated (fuel : nat) (o : RtfStructure) : run bool :=
  match Root o with
  | None => GoPanic
  | Some children => encapsulated_loop fuel "fromtext" children 0
  end.

End Structure.

(* ===================================================================== *)
(** ** The HTML-encapsulated interpreter *)
(* ===================================================================== *)

Module Interp.
Import Tree Structure.

Record rtfFontTableItem : Type := mkFont {
  charsetIndex : Z;
  familyCode : string;
  familyName : string;
  familyAlternativeName : string
}.

(** [rtfState]: the map [states]; [None] is the nil map of the zero value,
    which reads as empty and panics when written.  A Go map is a reference;
    the walk never holds two references to one map that it writes through
    (see [copy] and [parseGroup]), so an allocated map is held by value. *)
Record rtfState : Type := mkState {
  states : option (gmap string string)
}.

Definition NewRtfState : rtfState := mkState (Some ∅).

(** [copy]: the loop ranges over [c1.states], the map just made, and stores
    each of its entries into that same map. *)
Definition copy (c : rtfState) : rtfState :=
  let c1 := NewRtfState in
  match states c1 with
  | Some m => mkState (Some (map_fold (fun i v acc => <[i := v]> acc) m m))
  | None => c1
  end.

(** [c.states[word]]: the value and the flag [ok]. *)
Definition lookup_state (c : rtfState) (word : string) : option string :=
  match states c with
  | Some m => m !! word
  | None => None
  end.

Definition stateExists (c : rtfState) (word : string) : bool :=
  match lookup_state c word with
  | Some _ => true
  | None => false
  end.

Definition stateValue (c : rtfState) (word : string) : string :=
  match lookup_state c word with
  | Some v => v
  | None => EmptyString
  end.

Record rtfColor : Type := mkColor { r : Z; g : Z; b : Z }.

(** The interpreter's object.  [groupPreviousState] and [styleTagOpened] are
    left out: only [openState], [closeState] and [closeTag] touch them, and
    every call of those is commented out in the source.  [fontTable] is
    written by [parseFontInfoGroup] alone, which [parseFontTableGroup] calls
    after it has allocated the map: its nil value is the empty map here. *)
Record rtfHtmlEncapsulatedInterpreter : Type := mkI {
  content : string;
  insideHtmlTagGroup : Z;
  rtfEncoding : string;
  defaultFont : Z;
  fontTable : gmap Z rtfFontTableItem;
  colorTable : list rtfColor;
  styleTag : string;
  groupsInitialStates : list rtfState;
  groupCurrentState : rtfState;
  bodyStarted : bool;
  bodyStopped : bool
}.

Definition with_content v p :=
  mkI v (insideHtmlTagGroup p) (rtfEncoding p) (defaultFont p) (fontTable p)
      (colorTable p) (styleTag p) (groupsInitialStates p) (groupCurrentState p)
      (bodyStarted p) (bodyStopped p).
Definition with_insideHtmlTagGroup v p :=
  mkI (content p) v (rtfEncoding p) (defaultFont p) (fontTable p)
      (colorTable p) (styleTag p) (groupsInitialStates p) (groupCurrentState p)
      (bodyStarted p) (bodyStopped p).
Definition with_rtfEncoding v p :=
  mkI (content p) (insideHtmlTagGroup p) v (defaultFont p) (fontTable p)
      (colorTable p) (styleTag p) (groupsInitialStates p) (groupCurrentState p)
      (bodyStarted p) (bodyStopped p).
Definition with_defaultFont v p :=
  mkI (content p) (insideHtmlTagGroup p) (rtfEncoding p) v (fontTable p)
      (colorTable p) (styleTag p) (groupsInitialStates p) (groupCurrentState p)
      (bodyStarted p) (bodyStopped p).
Definition with_fontTable v p :=
  mkI (content p) (insideHtmlTagGroup p) (rtfEncoding p) (defaultFont p) v
      (colorTable p) (styleTag p) (groupsInitialStates p) (groupCurrentState p)
      (bodyStarted p) (bodyStopped p).
Definition with_colorTable v p :=
  mkI (content p) (insideHtmlTagGroup p) (rtfEncoding p) (defaultFont p)
      (fontTable p) v (styleTag p) (groupsInitialStates p) (groupCurrentState p)
      (bodyStarted p) (bodyStopped p).
Definition with_groupsInitialStates v p :=
  mkI (content p) (insideHtmlTagGroup p) (rtfEncoding p) (defaultFont p)
      (fontTable p) (colorTable p) (styleTag p) v (groupCurrentState p)
      (bodyStarted p) (bodyStopped p).
Definition with_groupCurrentState v p :=
  mkI (content p) (insideHtmlTagGroup p) (rtfEncoding p) (defaultFont p)
      (fontTable p) (colorTable p) (styleTag p) (groupsInitialStates p) v
      (bodyStarted p) (bodyStopped p).
Definition with_bodyStarted v p :=
  mkI (content p) (insideHtmlTagGroup p) (rtfEncoding p) (defaultFont p)
      (fontTable p) (colorTable p) (styleTag p) (groupsInitialStates p)
      (groupCurrentState p) v (bodyStopped p).
Definition with_bodyStopped v p :=
  mkI (content p) (insideHtmlTagGroup p) (rtfEncoding p) (defaultFont p)
      (fontTable p) (colorTable p) (styleTag p) (groupsInitialStates p)
      (groupCurrentState p) (bodyStarted p) v.

(** [p.content.WriteString(s)] *)
Definition WriteString (s : string) (p : rtfHtmlEncapsulatedInterpreter) :=
  with_content (content p ++ s) p.

Definition one_of (word : string) (words : list string) : bool :=
  existsb (String.eqb word) words.

(** [DetectWordState]: the scope and the value type of a state word. *)
Definition DetectWordState (word : string) : string * string :=
  if String.eqb word "htmlrtf" then ("other", "flag")
  else if one_of word ["b"; "i"; "v"; "ul"; "uldone"; "strike"; "super"]
  then ("style", "flag")
  else if one_of word ["f"; "fs"; "chcfpat"; "cf"; "cb"; "chcbpat"]
  then ("style", "value")
  else (EmptyString, EmptyString).

(** [updateState]; the store into a nil map panics. *)
Definition updateState (word value : string) (p : rtfHtmlEncapsulatedInterpreter)
  : run rtfHtmlEncapsulatedInterpreter :=
  let '(_, stateValueType) := DetectWordState word in
  let stateValue :=
    if String.eqb stateValueType "flag" then
      if String.eqb value "0" then "0" else "1"
    else if String.eqb stateValueType "value" then value
    else EmptyString in
  match states (groupCurrentState p) with
  | None => GoPanic
  | Some m =>
      Ret (with_groupCurrentState (mkState (Some (<[word := stateValue]> m))) p)
  end.

(** The test that opens [parseText], [parseControlSymbol] and the
    suppression branch of [parseControlWord]. *)
Definition htmlrtf_on (p : rtfHtmlEncapsulatedInterpreter) : bool :=
  stateExists (groupCurrentState p) "htmlrtf"
  && String.eqb (stateValue (groupCurrentState p) "htmlrtf") "1".

(** [bytes.TrimRight(s, string(c))] *)
Fixpoint TrimRight (s : string) (c : ascii) : string :=
  match s with
  | EmptyString => EmptyString
  | String a rest =>
      let rest' := TrimRight rest c in
      if String.eqb rest' EmptyString && Ascii.eqb a c then EmptyString
      else String a rest'
  end.

Definition CRLF : string := String chr_CR (String chr_LF EmptyString).

Definition parseControlWord (word parameter : string)
    (p : rtfHtmlEncapsulatedInterpreter) : run rtfHtmlEncapsulatedInterpreter :=
  if String.eqb word "htmlrtf" then updateState word parameter p
  else if insideHtmlTagGroup p >? 0 then
    if String.eqb word "u" then
      Ret (WriteString ";" (WriteString parameter (WriteString "&#" p)))
    else if String.eqb word "lquote" then Ret (WriteString "&lsquo;" p)
    else if String.eqb word "rquote" then Ret (WriteString "&rsquo;" p)
    else if String.eqb word "ldblquote" then Ret (WriteString "&ldquo;" p)
    else if String.eqb word "rdblquote" then Ret (WriteString "&rdquo;" p)
    else if String.eqb word "bullet" then Ret (WriteString "&bull;" p)
    else if String.eqb word "endash" then Ret (WriteString "&ndash;" p)
    else if String.eqb word "emdash" then Ret (WriteString "&mdash;" p)
    else Ret p
  else if negb (String.eqb word "f") && htmlrtf_on p then Ret p
  else if String.eqb word "line" then Ret p
  else if String.eqb word "par" then Ret (WriteString CRLF p)
  else if String.eqb word "tab" then
    Ret (WriteString "&nbsp;&nbsp;&nbsp;&nbsp;&nbsp;" p)
  else if String.eqb word "deff" then
    Ret (with_defaultFont (GetIntParameter parameter) p)
  else if one_of word ["ansi"; "mac"; "pc"; "pca"] then
    Ret (with_rtfEncoding (Utils.GetEncodingFromCodepage word) p)
  else if String.eqb word "ansicpg" then
    if GetIntParameter parameter >? 0
    then Ret (with_rtfEncoding (Utils.GetEncodingFromCodepage parameter) p)
    else Ret p
  else if one_of word ["f"; "fs"] then updateState word parameter p
  else Ret p.

(** A font-table entry reached through the pointer [ftItem]. *)
Definition alter_font (f : rtfFontTableItem -> rtfFontTableItem) (fontIdx : Z)
    (p : rtfHtmlEncapsulatedInterpreter) : rtfHtmlEncapsulatedInterpreter :=
  with_fontTable (alter f fontIdx (fontTable p)) p.

(** The body of the loop of [parseFontInfoGroup], on one child; the state is
    the interpreter and the local [fontIdx]. *)
Definition parseFontInfo_child (acc : rtfHtmlEncapsulatedInterpreter * Z)
    (child : rtfElement) : rtfHtmlEncapsulatedInterpreter * Z :=
  let '(p, fontIdx) := acc in
  match child with
  | rtfControlWord word parameter =>
      if String.eqb word "f" then
        let fontIdx := GetIntParameter parameter in
        (with_fontTable
           (<[fontIdx := mkFont 0 EmptyString EmptyString EmptyString]> (fontTable p)) p,
         fontIdx)
      else if one_of word ["fnil"; "froman"; "fswiss"; "fmodern"; "fscript";
                           "fdecor"; "ftech"; "fbidi"] then
        (alter_font (fun it => mkFont (charsetIndex it) word (familyName it)
                                      (familyAlternativeName it)) fontIdx p,
         fontIdx)
      else if String.eqb word "fcharset" then
        (alter_font (fun it => mkFont (GetIntParameter parameter) (familyCode it)
                                      (familyName it) (familyAlternativeName it))
                    fontIdx p,
         fontIdx)
      else (p, fontIdx)
  | rtfText text =>
      (alter_font (fun it => mkFont (charsetIndex it) (familyCode it)
                                    (TrimRight text ";")
                                    (familyAlternativeName it)) fontIdx p,
       fontIdx)
  | rtfGroup children =>
      if IsFontAlternative children then
        match children !! 2%nat with
        | Some (rtfText text) =>
            (alter_font (fun it => mkFont (charsetIndex it) (familyCode it)
                                          (familyName it) text) fontIdx p,
             fontIdx)
        | _ => (p, fontIdx)
        end
      else (p, fontIdx)
  | rtfControlSymbol _ _ => (p, fontIdx)
  end.

Definition parseFontInfoGroup (children : list rtfElement)
    (p : rtfHtmlEncapsulatedInterpreter) : rtfHtmlEncapsulatedInterpreter :=
  fst (fold_left parseFontInfo_child children (p, 0)).

Definition parseFontTableGroup (children : list rtfElement)
    (p : rtfHtmlEncapsulatedInterpreter) : rtfHtmlEncapsulatedInterpreter :=
  fold_left
    (fun p child =>
       match child with
       | rtfGroup cs => if IsFontInfo cs then parseFontInfoGroup cs p else p
       | _ => p
       end)
    children (with_fontTable ∅ p).

(** The body of the loop of [parseColorTableGroup]; the state is the
    interpreter and the local [color]. *)
Definition parseColorTable_child (acc : rtfHtmlEncapsulatedInterpreter * rtfColor)
    (child : rtfElement) : rtfHtmlEncapsulatedInterpreter * rtfColor :=
  let '(p, color) := acc in
  match child with
  | rtfControlWord word parameter =>
      if String.eqb word "red" then
        (p, mkColor (GetIntParameter parameter) (g color) (b color))
      else if String.eqb word "green" then
        (p, mkColor (r color) (GetIntParameter parameter) (b color))
      else if String.eqb word "blue" then
        (p, mkColor (r color) (g color) (GetIntParameter parameter))
      else (p, color)
  | rtfText _ => (with_colorTable (colorTable p ++ [color])%list p, mkColor 0 0 0)
  | _ => (p, color)
  end.

Definition parseColorTableGroup (children : list rtfElement)
    (p : rtfHtmlEncapsulatedInterpreter) : rtfHtmlEncapsulatedInterpreter :=
  if negb (IsColorTable children) then p
  else fst (fold_left parseColorTable_child children (p, mkColor 0 0 0)).

Section Walk.
Variable decoder_Bytes : Utils.Decoder -> string -> string.

Definition parseText (text : string) (p : rtfHtmlEncapsulatedInterpreter)
  : rtfHtmlEncapsulatedInterpreter :=
  if htmlrtf_on p then p
  else WriteString (Utils.ConvertToUtf8 decoder_Bytes text (rtfEncoding p)) p.

Definition parseControlSymbol (symbol parameter : string)
    (p : rtfHtmlEncapsulatedInterpreter) : rtfHtmlEncapsulatedInterpreter :=
  if htmlrtf_on p then p
  else
    let p :=
      if String.eqb symbol "'" then
        match ParseInt parameter 16 16 with
        | Some v =>
            let u := v mod 65536 in
            let bytes :=
              String (byte_of_Z (Z.land u 0xFF))
                (String (byte_of_Z (Z.shiftr u 8)) EmptyString) in
            let bytes := TrimRight bytes chr_NUL in
            WriteString (Utils.ConvertToUtf8 decoder_Bytes bytes (rtfEncoding p)) p
        | None => p
        end
      else p in
    if insideHtmlTagGroup p >? 0 then
      if String.eqb symbol "~" then WriteString "&nbsp;" p
      else if String.eqb symbol "_" then WriteString "&shy;" p
      else p
    else p.

(** [for _, child := range children { p.parseElement(child) }] *)
Fixpoint range_parse
    (parseElement : rtfElement -> rtfHtmlEncapsulatedInterpreter ->
                    run rtfHtmlEncapsulatedInterpreter)
    (children : list rtfElement) (p : rtfHtmlEncapsulatedInterpreter)
  : run rtfHtmlEncapsulatedInterpreter :=
  match children with
  | [] => Ret p
  | child :: rest => p ← parseElement child p; range_parse parseElement rest p
  end.

(** [parseGroup], given the walker of the children. *)
Definition parseGroup_with
    (parseElement : rtfElement -> rtfHtmlEncapsulatedInterpreter ->
                    run rtfHtmlEncapsulatedInterpreter)
    (children : list rtfElement) (p : rtfHtmlEncapsulatedInterpreter)
  : run rtfHtmlEncapsulatedInterpreter :=
  let '(isHtmlTagDestinationGroup, isStartBodyTag, p) :=
    if IsDestination children && (2 <=? len children) then
      match children !! 1%nat with
      | Some (rtfControlWord word parameter) =>
          if String.eqb word "htmltag" then
            let isStartBodyTag :=
              negb (bodyStarted p) && (GetIntParameter parameter =? 50) in
            let p :=
              if GetIntParameter parameter =? 58 then with_bodyStopped true p
              else p in
            (true, isStartBodyTag, p)
          else (false, false, p)
      | _ => (false, false, p)
      end
    else (false, false, p) in
  let p :=
    if isHtmlTagDestinationGroup
    then with_insideHtmlTagGroup (insideHtmlTagGroup p + 1) p else p in
  p ← (if IsFontTable children then Ret (parseFontTableGroup children p)
       else if IsColorTable children then Ret (parseColorTableGroup children p)
       else if IsStylesheet children || IsTrackChanges children
               || IsInfo children || IsListtables children
               || IsFilesTable children then Ret p
       else
         let p :=
           if len (groupsInitialStates p) =? 0
           then with_groupCurrentState NewRtfState p else p in
         let p :=
           with_groupsInitialStates
             (groupsInitialStates p ++ [copy (groupCurrentState p)])%list p in
         p ← range_parse parseElement children p;
         match index (groupsInitialStates p) (len (groupsInitialStates p) - 1) with
         | None => GoPanic
         | Some saved =>
             let p := with_groupCurrentState saved p in
             let p :=
               with_groupsInitialStates
                 (take (length (groupsInitialStates p) - 1) (groupsInitialStates p)) p in
             Ret (if isStartBodyTag then with_bodyStarted true p else p)
         end);
  Ret (if isHtmlTagDestinationGroup then
         let p := with_insideHtmlTagGroup (insideHtmlTagGroup p - 1) p in
         if insideHtmlTagGroup p <? 0 then with_insideHtmlTagGroup 0 p else p
       else p).

Fixpoint parseElement (item : rtfElement) (p : rtfHtmlEncapsulatedInterpreter)
  : run rtfHtmlEncapsulatedInterpreter :=
  match item with
  | rtfGroup children => parseGroup_with parseElement children p
  | rtfControlSymbol symbol parameter => Ret (parseControlSymbol symbol parameter p)
  | rtfControlWord word parameter => parseControlWord word parameter p
  | rtfText text => Ret (parseText text p)
  end.

Definition parseGroup := parseGroup_with parseElement.

(** What [Parse] returns next to the interpreter it leaves: the bytes, or
    the error "The RTF file is not valid.". *)
Definition Parse (rtfObj : RtfStructure) (p : rtfHtmlEncapsulatedInterpreter)
  : run (rtfHtmlEncapsulatedInterpreter * option string) :=
  let p := with_insideHtmlTagGroup 0 (with_content EmptyString p) in
  valid ← IsValid rtfObj;
  if negb valid then Ret (p, None)
  else
    match Root rtfObj with
    | None => GoPanic
    | Some children =>
        p ← parseElement (rtfGroup children) p;
        Ret (p, Some (content p))
    end.

(** [rtfHtmlEncapsulatedInterpreter{styleTag: "span"}] *)
Definition fresh : rtfHtmlEncapsulatedInterpreter :=
  mkI EmptyString 0 EmptyString 0 ∅ [] "span" [] (mkState None) false false.

(** html-converter.go, [rtfHtmlInterpreter.Parse]: [None] is the nil
    result it returns for a document that is not HTML-encapsulated. *)
Definition HtmlParse (fuel : nat) (rtfObj : RtfStructure)
  : run (option (rtfHtmlEncapsulatedInterpreter * option string)) :=
  encapsulated ← IsHtmlEncapsulated fuel rtfObj;
  if (encapsulated : bool) then r ← Parse rtfObj fresh; Ret (Some r)
  else Ret None.
End Walk.

End Interp.

(* ===================================================================== *)
(** ** Notions used in the statements *)
(* ===================================================================== *)

Section Notions.
Import Tree Bufio Structure Interp.

(** What is left to read. *)
Definition remaining (rd : Reader) : nat := String.length (buf rd).

(** One frame of [uc] for each group that is open. *)
Definition frames_match (o : RtfStructure) : Prop :=
  length (uc o) = length (path o).

(** A piece of the tokenizer that needs no more fuel than it is given, gives
    no bytes back and keeps [frames_match]. *)
Definition orderly_at (o : RtfStructure) (res : run RtfStructure) : Prop :=
  match res with
  | Ret o' =>
      (remaining (reader o') <= remaining (reader o))%nat /\
      (frames_match o -> frames_match o')
  | GoPanic => True
  | OutOfFuel => False
  end.

Definition orderly (f : RtfStructure -> run RtfStructure) : Prop :=
  forall o, orderly_at o (f o).

(** The groups whose children [parseGroup] walks: not the font table, not
    the color table, not one of the groups it ignores. *)
Definition walked (children : list rtfElement) : bool :=
  negb (IsFontTable children) && negb (IsColorTable children)
  && negb (IsStylesheet children || IsTrackChanges children || IsInfo children
           || IsListtables children || IsFilesTable children).

(** A text run, a control word or a control symbol. *)
Definition is_token (item : rtfElement) : bool :=
  match item with
  | rtfGroup _ => false
  | _ => true
  end.

(** The control word [\htmlrtf0]. *)
Definition is_htmlrtf0 (item : rtfElement) : bool :=
  match item with
  | rtfControlWord word parameter =>
      String.eqb word "htmlrtf" && String.eqb parameter "0"
  | _ => false
  end.

(** The current state holds an allocated map. *)
Definition allocated (p : rtfHtmlEncapsulatedInterpreter) : Prop :=
  states (groupCurrentState p) <> None.

(** The map of the current state, empty for the nil map. *)
Definition current_map (p : rtfHtmlEncapsulatedInterpreter) : gmap string string :=
  default ∅ (states (groupCurrentState p)).

(** [p] with the map of its current state replaced. *)
Definition with_current_map (m : gmap string string)
    (p : rtfHtmlEncapsulatedInterpreter) : rtfHtmlEncapsulatedInterpreter :=
  with_groupCurrentState (mkState (Some m)) p.

(** What a step of the walk may come to, from [p]: it returns with the
    saved states as they were and the current map still allocated, or it
    panics, which takes a nil current map. *)
Definition keeps_stack (p : rtfHtmlEncapsulatedInterpreter)
    (res : run rtfHtmlEncapsulatedInterpreter) : Prop :=
  match res with
  | Ret p' =>
      groupsInitialStates p' = groupsInitialStates p /\
      (allocated p -> allocated p')
  | GoPanic => ~ allocated p
  | OutOfFuel => False
  end.

(** The one thing a suppressed token may do: a [\fN] records the font. *)
Definition track_font (m : gmap string string) (item : rtfElement)
  : gmap string string :=
  match item with
  | rtfControlWord word parameter =>
      if String.eqb word "f" then <["f" := parameter]> m else m
  | _ => m
  end.

Definition is_control_word (word : string) (item : rtfElement) : bool :=
  match item with
  | rtfControlWord w _ => String.eqb w word
  | _ => false
  end.

(** The words of the state table of the specification, the font words
    apart. *)
Definition style_words : list string :=
  ["b"; "i"; "ul"; "strike"; "super"; "v"; "cf"; "cb"; "chcfpat"; "chcbpat";
   "highlight"].

(** The words to which [DetectWordState] gives the value type "flag". *)
Definition flag_words : list string :=
  ["htmlrtf"; "b"; "i"; "v"; "ul"; "uldone"; "strike"; "super"].

(** The interpreter as it is once [parseGroup] has entered a first group:
    a state allocated, its copy saved. *)
Definition inside_first_group : rtfHtmlEncapsulatedInterpreter :=
  with_groupsInitialStates [copy NewRtfState]
    (with_groupCurrentState NewRtfState fresh).

(** The same after [\htmlrtf1]: suppression is on. *)
Definition inside_htmlrtf_on : rtfHtmlEncapsulatedInterpreter :=
  with_current_map {["htmlrtf" := "1"]} inside_first_group.

(** The same with font 1 recorded in the state. *)
Definition inside_with_font_1 : rtfHtmlEncapsulatedInterpreter :=
  with_current_map {["f" := "1"]} inside_first_group.

(** Documents for the evaluations. *)
Definition doc_nested_after_htmlrtf : string := "{\rtf1\fromhtml1\htmlrtf1{x}LEAK}".
Definition doc_empty_root : string := "{}".
Definition doc_late_fromhtml : string :=
  "{\rtf1\ansi\ansicpg1252\deff0\uc1\pard\plain\f0\fs20\b\i\fromhtml1 late}".
Definition doc_late_fromtext : string :=
  "{\rtf1\ansi\ansicpg1252\deff0\uc1\pard\plain\f0\fs20\b\i\fromtext late}".
Definition doc_uc0 : string := "{\rtf1\uc0\u233 XY}".
Definition doc_u_then_par : string := "{\rtf1\u233\par X}".
Definition doc_quote_zz : string := "{\'zz}".
Definition doc_quote_one_digit : string := "{\'e".
Definition doc_balanced : string := "{\rtf1\ansi{\b x}y}".

End Notions.

(* ===================================================================== *)
(** ** Notions used in the further properties *)
(* ===================================================================== *)

Section CrtfNotions.
Import Crtf.

(** A stream with the magic MELA: the header, then "hi". *)
Definition stream_mela : list byte :=
  [x0e; x00; x00; x00;  x02; x00; x00; x00;  x4d; x45; x4c; x41;
   x00; x00; x00; x00;  x68; x69].

(** What every pass of the decoding loop keeps of [dst]: its size, the
    preamble at its head, the write position inside it and past the
    preamble, and zero bytes from the write position on. *)
Definition dst_shape (size : Z) (st : dstate) : Prop :=
  len (d_dst st) = len COMPRESSED_RTF_PREBUF + size /\
  take (length COMPRESSED_RTF_PREBUF) (d_dst st) = COMPRESSED_RTF_PREBUF /\
  len COMPRESSED_RTF_PREBUF <= d_out st <= len (d_dst st) /\
  drop (Z.to_nat (d_out st)) (d_dst st)
  = replicate (length (d_dst st) - Z.to_nat (d_out st)) x00.

(** A stream that announces two bytes and holds one literal before its end
    marker. *)
Definition stream_short : list byte :=
  [x10; x00; x00; x00;  x02; x00; x00; x00;  x4c; x5a; x46; x75;
   x5e; x2c; x63; x59;  x02; x68; x0d; x00].

(** The byte of a number below 256. *)
Definition z2b (z : Z) : byte := default x00 (Byte.of_N (Z.to_N z)).

(** The four bytes that [getU32] reads back as [v]. *)
Definition putU32 (v : Z) : list byte :=
  [z2b (Z.land v 0xFF); z2b (Z.land (Z.shiftr v 8) 0xFF);
   z2b (Z.land (Z.shiftr v 16) 0xFF); z2b (Z.land (Z.shiftr v 24) 0xFF)].

(** The reference that ends the data when the write position is [out]: the
    twelve low bits of [out], and length bits 0. *)
Definition end_marker (out : Z) : list byte :=
  [z2b (out mod 4096 / 16); z2b (out mod 16 * 16)].

(** [data] as literals, eight to a flag byte 0; the last flag byte has the
    bit of the end marker set, after the literals that are left. *)
Fixpoint literal_runs (fuel : nat) (data : list byte) (out : Z) : list byte :=
  match fuel with
  | O => []
  | S fuel' =>
      if (length data <? 8)%nat
      then z2b (2 ^ len data) :: data ++ end_marker (out + len data)
      else x00 :: take 8 data ++ literal_runs fuel' (drop 8 data) (out + 8)
  end.

(** [dst] with [lits] written over it from position [out] on. *)
Definition splice (dst : list byte) (out : Z) (lits : list byte) : list byte :=
  take (Z.to_nat out) dst ++ lits ++ drop (Z.to_nat out + length lits) dst.

(** A compressed stream for [data] that uses no back-reference but the end
    marker. *)
Definition pack (data : list byte) : list byte :=
  let body := literal_runs (S (length data)) data (len COMPRESSED_RTF_PREBUF) in
  putU32 (len body + 12) ++ putU32 (len data) ++ putU32 MAGIC_COMPRESSED
  ++ putU32 (crc32_plain body) ++ body.

End CrtfNotions.

Section TokenNotions.
Import Tree Bufio Structure.

(** Every byte of [s] is in the class [P]. *)
Fixpoint all_bytes (P : ascii -> bool) (s : string) : bool :=
  match s with
  | EmptyString => true
  | String c rest => P c && all_bytes P rest
  end.

(** Digits, after a minus sign or not. *)
Definition is_numeric (parameter : string) : bool :=
  match parameter with
  | String c rest =>
      if Ascii.eqb c MINUS then all_bytes Utils.ByteIsDigit rest
      else all_bytes Utils.ByteIsDigit parameter
  | EmptyString => true
  end.

(** The tokens the tokenizer makes: a control word is letters, at least
    one, and its parameter numeric; a control symbol is one byte as a string
    and has a parameter, of at most two bytes that [ByteIsHexDigit] takes,
    only when it is the apostrophe; a text run is not empty; a group holds
    such tokens. *)
Fixpoint well_formed (item : rtfElement) : bool :=
  match item with
  | rtfGroup children => forallb well_formed children
  | rtfControlWord word parameter =>
      (0 <? String.length word)%nat
      && all_bytes Utils.ByteIsAsciiLetter word && is_numeric parameter
  | rtfControlSymbol symbol parameter =>
      (1 <=? String.length symbol)%nat && (String.length symbol <=? 2)%nat
      && (String.length parameter <=? 2)%nat
      && all_bytes Utils.ByteIsHexDigit parameter
      && (String.eqb parameter EmptyString || String.eqb symbol "'")
  | rtfText content => (0 <? String.length content)%nat
  end.

(** What a piece of the tokenizer that reads one token may come to: it
    returns with at most one token, well formed, appended to the current
    group, the root and the depth of [uc] as they were; or it panics, which
    takes a nil current group or an empty [uc]. *)
Definition token_step (o : RtfStructure) (res : run RtfStructure) : Prop :=
  match res with
  | Ret o' =>
      closed o' = closed o /\ length (uc o') = length (uc o) /\
      (path o' = path o \/
       exists g parents tok,
         path o = g :: parents /\ path o' = (g ++ [tok])%list :: parents /\
         well_formed tok = true)
  | GoPanic => path o = [] \/ uc o = []
  | OutOfFuel => True
  end.

(** The three stages of the tokenizer's object: before the first group,
    with a group open, after the root group has closed; with every token
    held so far well formed. *)
Definition tokenizing (o : RtfStructure) : Prop :=
  match closed o with
  | None =>
      frames_match o /\
      Forall (fun g => forallb well_formed g = true) (path o)
  | Some root => path o = [] /\ forallb well_formed root = true
  end.

(** The root group has been opened: it is open still, or closed. *)
Definition started (o : RtfStructure) : Prop :=
  path o <> [] \/ closed o <> None.

(** U+FFFD in UTF-8: the bytes EF BF BD. *)
Definition replacement : string := utf8.three_bytes utf8.RuneError.

(** A run of text as [parseText] takes it, and the bytes it makes of it:
    CR and LF are dropped; a backslash before a brace or a backslash is kept
    together with the byte it escapes; any other byte below 0x80 that is not
    a brace is kept; a byte from 0x80 on that cannot begin a UTF-8 sequence
    becomes [replacement].  [None] when [s] is not such a run. *)
Fixpoint text_run (s : string) : option string :=
  match s with
  | EmptyString => Some EmptyString
  | String c r =>
      if is_eol c then text_run r
      else if Ascii.eqb c BACKSLASH then
        match r with
        | String c1 r1 =>
            if is_brace c1 || Ascii.eqb c1 BACKSLASH
            then option_map (fun t => String c (String c1 t)) (text_run r1)
            else None
        | EmptyString => None
        end
      else if is_brace c then None
      else if byteZ c <? 0x80 then option_map (String c) (text_run r)
      else
        match utf8.lead (byteZ c) with
        | None => option_map (fun t => replacement ++ t) (text_run r)
        | Some _ => None
        end
  end.

(** Where a run of text stops: at the end of the input, at a brace, at a
    backslash that starts a control word or symbol. *)
Definition text_stop (rest : string) : bool :=
  match rest with
  | EmptyString => true
  | String c r =>
      is_brace c
      || (Ascii.eqb c BACKSLASH
          && match r with
             | String c1 _ => negb (is_brace c1 || Ascii.eqb c1 BACKSLASH)
             | EmptyString => false
             end)
  end.

(** The current group with a text token appended, when there is text. *)
Definition with_text (t : string) (g : list rtfElement) : list rtfElement :=
  if String.eqb t EmptyString then g else (g ++ [rtfText t])%list.

(** A run of text with an escaped brace, a line end and the byte 0xA0 in
    it, what [parseText] makes of it, and a document that holds it. *)
Definition sample_run : string :=
  String "a" (String BACKSLASH (String "{" (String chr_CR (String chr_LF
    (String (ascii_of_N 160) "b"))))).
Definition sample_run_text : string :=
  String "a" (String BACKSLASH (String "{" (replacement ++ "b"))).
Definition doc_text_run : string := "{" ++ sample_run ++ "}".

(** [rest] can follow a control word with parameter [p] without being
    taken into either: it does not begin with a digit, nor, after an empty
    parameter, with a letter or a minus sign. *)
Definition delimits (p rest : string) : bool :=
  match rest with
  | EmptyString => true
  | String c _ =>
      negb (Utils.ByteIsDigit c)
      && (if String.eqb p EmptyString
          then negb (Utils.ByteIsAsciiLetter c) && negb (Ascii.eqb c MINUS)
          else true)
  end.

(** The reader once a control word has been read up to [rest]: one space
    that follows the control word has been read too. *)
Definition after_delimiter (rest : string) : Reader :=
  match rest with
  | String c r => if Ascii.eqb c SPACE then mkReader (Some c) r else mkReader None rest
  | EmptyString => mkReader None rest
  end.

(** [uc] once the control word [w] with parameter [p] has been read: [\ucN]
    sets its top. *)
Definition uc_after (w p : string) (uc : list Z) : list Z :=
  if String.eqb w "uc" then <[Nat.pred (length uc) := GetIntParameter p]> uc else uc.

(** A byte of a text run that the tokenizer keeps as it is: below 0x80,
    no line end, no brace, no backslash. *)
Definition plain_byte (c : ascii) : bool :=
  negb (is_eol c) && negb (Ascii.eqb c BACKSLASH) && negb (is_brace c)
  && (byteZ c <? 0x80).

(** A byte that makes a control symbol without a parameter wherever it
    stands: below 0x80, no letter, no line end, no brace, no backslash (an
    escaped brace or backslash after a text run belongs to the run). *)
Definition symbol_byte (c : ascii) : bool :=
  negb (Utils.ByteIsAsciiLetter c) && negb (is_eol c) && negb (is_brace c)
  && negb (Ascii.eqb c BACKSLASH) && (byteZ c <? 0x80).

(** No two text runs stand next to each other. *)
Fixpoint separated (children : list rtfElement) : bool :=
  match children with
  | [] => true
  | rtfText _ :: rest =>
      match rest with
      | rtfText _ :: _ => false
      | _ => separated rest
      end
  | _ :: rest => separated rest
  end.

(** The trees that can be written out and read back: control words other
    than [\u], with letters and a numeric parameter; control symbols of a
    [symbol_byte], or the apostrophe with two bytes that [ByteIsHexDigit]
    takes; text runs of plain bytes, not empty and separated. *)
Fixpoint writable (item : rtfElement) : bool :=
  match item with
  | rtfGroup children => forallb writable children && separated children
  | rtfControlWord word parameter =>
      (0 <? String.length word)%nat
      && all_bytes Utils.ByteIsAsciiLetter word && is_numeric parameter
      && negb (String.eqb word "u")
  | rtfControlSymbol symbol parameter =>
      match symbol with
      | String c EmptyString =>
          if Ascii.eqb c APOSTROPHE then
            (String.length parameter =? 2)%nat
            && all_bytes Utils.ByteIsHexDigit parameter
          else symbol_byte c && String.eqb parameter EmptyString
      | _ => false
      end
  | rtfText content =>
      (0 <? String.length content)%nat && all_bytes plain_byte content
  end.

(** A tree written out as RTF, before [rest]: a control word with its
    parameter and a space after it, a control symbol with its parameter, a
    text run as it is, a group between braces. *)
Fixpoint render (item : rtfElement) (rest : string) : string :=
  match item with
  | rtfGroup children =>
      String LBRACE
        (fold_right render (String RBRACE rest) children)
  | rtfControlWord word parameter =>
      String BACKSLASH (word ++ parameter ++ String SPACE rest)
  | rtfControlSymbol symbol parameter =>
      String BACKSLASH (symbol ++ parameter ++ rest)
  | rtfText content => content ++ rest
  end.

Definition render_all (children : list rtfElement) (rest : string) : string :=
  fold_right render rest children.

(** Some passes of the loop of [Parse] lead from [o] to [o']. *)
Definition passes (o o' : RtfStructure) : Prop :=
  exists n, forall k, Parse_loop (n + k) o = Parse_loop k o'.

(** The byte an [UnreadByte] would put back once a written item has been
    read: the closing brace of a group, the space after a control word,
    the last byte of a control symbol; none after a text run, which ends by
    a [Peek]. *)
Definition last_read (item : rtfElement) : option ascii :=
  match item with
  | rtfGroup _ => Some RBRACE
  | rtfControlWord _ _ => Some SPACE
  | rtfControlSymbol symbol parameter =>
      Some (last_char (symbol ++ parameter) chr_NUL)
  | rtfText _ => None
  end.

(** What reading one written item back comes to: some passes of the loop
    take it from the input and append it to the current group. *)
Definition reads_back (item : rtfElement) : Prop :=
  writable item = true ->
  forall o rest g parents,
    buf (reader o) = render item rest -> path o = g :: parents ->
    length (uc o) = length (path o) ->
    match item with rtfText _ => text_stop rest = true | _ => True end ->
    exists o', passes o o' /\ buf (reader o') = rest /\
               path o' = (g ++ [item])%list :: parents /\
               closed o' = closed o /\ length (uc o') = length (uc o) /\
               lastByte (reader o') = last_read item.

(** The text token that the end of the input adds after the last item of
    an open group: the byte read last is put back and read again, when the
    last item is a control word or a control symbol. *)
Definition reread (items : list rtfElement) : list rtfElement :=
  match last items with
  | Some (rtfControlWord _ _) => [rtfText " "]
  | Some (rtfControlSymbol symbol parameter) =>
      [rtfText (String (last_char (symbol ++ parameter) chr_NUL) EmptyString)]
  | _ => []
  end.

(** A tree with every kind of token in it, for the evaluations. *)
Definition sample_tree : list rtfElement :=
  [rtfControlWord "rtf" "1"; rtfControlWord "uc" "2";
   rtfGroup [rtfControlSymbol "*" EmptyString; rtfControlWord "htmltag" "64";
             rtfText "<p>"];
   rtfText "caf"; rtfControlSymbol "'" "e9"; rtfControlSymbol "~" EmptyString;
   rtfControlWord "li" "-720"; rtfGroup []].

End TokenNotions.

Section InterpNotions.
Import Tree Structure Interp.

(** [p'] is [p] but for its font table and its color table. *)
Definition only_tables (p p' : rtfHtmlEncapsulatedInterpreter) : Prop :=
  p' = with_colorTable (colorTable p') (with_fontTable (fontTable p') p).

(** [p'] has the output of [p] with something appended, and its depth in
    htmltag groups. *)
Definition advances (p p' : rtfHtmlEncapsulatedInterpreter) : Prop :=
  (exists s, content p' = content p ++ s) /\
  insideHtmlTagGroup p' = insideHtmlTagGroup p.

(** The groups [parseGroup] passes over: style sheet, tracked changes,
    document information, list tables, file table. *)
Definition ignored (children : list rtfElement) : bool :=
  IsStylesheet children || IsTrackChanges children || IsInfo children
  || IsListtables children || IsFilesTable children.

(** A destination group [{\*\htmltagN text}]. *)
Definition htmltag_group (n text : string) : rtfElement :=
  rtfGroup [rtfControlSymbol "*" EmptyString; rtfControlWord "htmltag" n;
            rtfText text].

(** The number of text runs among the children. *)
Fixpoint text_count (children : list rtfElement) : nat :=
  match children with
  | [] => 0
  | rtfText _ :: rest => S (text_count rest)
  | _ :: rest => text_count rest
  end.

(** The eight font family words. *)
Definition font_families : list string :=
  ["fnil"; "froman"; "fswiss"; "fmodern"; "fscript"; "fdecor"; "ftech"; "fbidi"].

(** The byte string [\'HH] hands to the decoder for the value [v] of its
    digits: the one byte, and nothing for 0, whose bytes are trimmed. *)
Definition hex_byte (v : Z) : string :=
  if v =? 0 then EmptyString else String (byte_of_Z v) EmptyString.

(** The keys of the code page table whose encoding [ConvertToUtf8] has a
    decoder for: all but 864. *)
Definition decoded_pages : list string :=
  List.filter (fun k => negb (String.eqb k "864"))
    (map fst Utils.rtfEncodeCodePageMap).

(** A piece of an encapsulated document: a group [{\*\htmltagN text}], or
    text between such groups. *)
Inductive piece : Type :=
  | Tag (n text : string)
  | Plain (text : string).

Definition piece_item (x : piece) : rtfElement :=
  match x with
  | Tag n text => htmltag_group n text
  | Plain text => rtfText text
  end.

Definition piece_text (x : piece) : string :=
  match x with
  | Tag _ text => text
  | Plain text => text
  end.

(** The control words that write nothing and touch neither the encoding
    nor the suppression, when met outside the htmltag groups. *)
Definition silent (word : string) : bool :=
  negb (one_of word ["htmlrtf"; "par"; "tab"; "ansi"; "mac"; "pc"; "pca";
                     "ansicpg"]).

(** A control word of the header, from its word and parameter. *)
Definition header_item (h : string * string) : rtfElement :=
  rtfControlWord h.1 h.2.

(** An encapsulated paragraph, for the evaluations. *)
Definition doc_fragments : string :=
  "{\rtf1\fromhtml1 \deff0{\*\htmltag64 <p>}Hi{\*\htmltag72 </p>}}".

(** The pieces written out as an encapsulated document:
    [{\rtf1 \fromhtml1 ...}]. *)
Definition encapsulate (pieces : list piece) : string :=
  render
    (rtfGroup (rtfControlWord "rtf" "1" :: rtfControlWord "fromhtml" "1"
               :: map piece_item pieces))
    EmptyString.

(** An interpreter between the pieces: nothing suppressed, a state
    allocated, outside the htmltag groups, no decoder selected. *)
Definition ready (p : rtfHtmlEncapsulatedInterpreter) : Prop :=
  htmlrtf_on p = false /\ states (groupCurrentState p) <> None /\
  insideHtmlTagGroup p = 0 /\ Utils.decoder_of (rtfEncoding p) = None.

End InterpNotions.

(* ===================================================================== *)
(** ** The text interpreter *)
(* ===================================================================== *)

Module TextInterp.
Import Tree Structure Interp.

(** The struct [rtfTextEncapsulatedInterpreter] declares the fields of
    [rtfHtmlEncapsulatedInterpreter], name for name, and its methods
    [parseFontTableGroup], [parseFontInfoGroup] and [parseColorTableGroup]
    have the bodies of that type's: the record and these three functions
    stand for both. *)
Definition rtfTextEncapsulatedInterpreter : Type := rtfHtmlEncapsulatedInterpreter.

Definition DQUOTE : string := String (ascii_of_N 34) EmptyString.
Definition TAB : string := String (ascii_of_N 9) EmptyString.

Section Walk.
Variable decoder_Bytes : Utils.Decoder -> string -> string.

Definition parseText (text : string) (p : rtfTextEncapsulatedInterpreter)
  : rtfTextEncapsulatedInterpreter :=
  WriteString (Utils.ConvertToUtf8 decoder_Bytes text (rtfEncoding p)) p.

Definition parseControlSymbol (symbol parameter : string)
    (p : rtfTextEncapsulatedInterpreter) : rtfTextEncapsulatedInterpreter :=
  if String.eqb symbol "'" then
    match ParseInt parameter 16 16 with
    | Some v =>
        let u := v mod 65536 in
        let bytes :=
          String (byte_of_Z (Z.land u 0xFF))
            (String (byte_of_Z (Z.shiftr u 8)) EmptyString) in
        let bytes := TrimRight bytes chr_NUL in
        WriteString (Utils.ConvertToUtf8 decoder_Bytes bytes (rtfEncoding p)) p
    | None => p
    end
  else if String.eqb symbol "~" then WriteString "-" p
  else if String.eqb symbol "_" then WriteString "_" p
  else p.

(** [parseControlWord].  In the case of [\u], [binary.Write] is given an
    [int], which is not a fixed-size value: it returns an error, which is
    dropped, and writes nothing, so that the bytes converted and written are
    those of the empty buffer. *)
Definition parseControlWord (word parameter : string)
    (p : rtfTextEncapsulatedInterpreter) : rtfTextEncapsulatedInterpreter :=
  if String.eqb word "u" then
    match Atoi parameter with
    | Some _ =>
        WriteString
          (Utils.ConvertToUtf8 decoder_Bytes EmptyString (rtfEncoding p)) p
    | None => p
    end
  else if String.eqb word "lquote" then WriteString "'" p
  else if String.eqb word "rquote" then WriteString "'" p
  else if String.eqb word "ldblquote" then WriteString DQUOTE p
  else if String.eqb word "rdblquote" then WriteString DQUOTE p
  else if String.eqb word "bullet" then p
  else if String.eqb word "endash" then WriteString "-" p
  else if String.eqb word "emdash" then WriteString "--" p
  else if String.eqb word "line" then WriteString CRLF p
  else if String.eqb word "par" then WriteString CRLF p
  else if String.eqb word "tab" then WriteString TAB p
  else if String.eqb word "deff" then
    with_defaultFont (GetIntParameter parameter) p
  else if one_of word ["ansi"; "mac"; "pc"; "pca"] then
    with_rtfEncoding (Utils.GetEncodingFromCodepage word) p
  else if String.eqb word "ansicpg" then
    if GetIntParameter parameter >? 0
    then with_rtfEncoding (Utils.GetEncodingFromCodepage parameter) p
    else p
  else p.

(** [parseGroup], given the walker of the children. *)
Definition parseGroup_with
    (parseElement : rtfElement -> rtfTextEncapsulatedInterpreter ->
                    rtfTextEncapsulatedInterpreter)
    (children : list rtfElement) (p : rtfTextEncapsulatedInterpreter)
  : rtfTextEncapsulatedInterpreter :=
  if IsFontTable children then parseFontTableGroup children p
  else if IsColorTable children then parseColorTableGroup children p
  else if IsStylesheet children || IsTrackChanges children
          || IsInfo children || IsListtables children
          || IsFilesTable children then p
  else if negb (IsDestination children) then
    fold_left (fun p child => parseElement child p) children p
  else p.

Fixpoint parseElement (item : rtfElement) (p : rtfTextEncapsulatedInterpreter)
  : rtfTextEncapsulatedInterpreter :=
  match item with
  | rtfGroup children => parseGroup_with parseElement children p
  | rtfControlSymbol symbol parameter => parseControlSymbol symbol parameter p
  | rtfControlWord word parameter => parseControlWord word parameter p
  | rtfText text => parseText text p
  end.

Definition parseGroup := parseGroup_with parseElement.

(** What [Parse] returns next to the interpreter it leaves: the bytes, or
    the error "The RTF file is not valid."; a nil [Root] panics. *)
Definition Parse (rtfObj : RtfStructure) (p : rtfTextEncapsulatedInterpreter)
  : run (rtfTextEncapsulatedInterpreter * option string) :=
  let p := with_insideHtmlTagGroup 0 (with_content EmptyString p) in
  valid ← IsValid rtfObj;
  if negb valid then Ret (p, None)
  else
    match Root rtfObj with
    | None => GoPanic
    | Some children =>
        let p := parseElement (rtfGroup children) p in
        Ret (p, Some (content p))
    end.

End Walk.
End TextInterp.

Section TextNotions.
Import Tree Structure Interp.

(** The control words that write nothing and select no encoding in the
    text interpreter. *)
Definition text_silent (word : string) : bool :=
  negb (one_of word ["u"; "lquote"; "rquote"; "ldblquote"; "rdblquote";
                     "endash"; "emdash"; "line"; "par"; "tab";
                     "ansi"; "mac"; "pc"; "pca"; "ansicpg"]).

(** The text of a piece that stands outside the htmltag groups. *)
Definition outer_text (x : piece) : string :=
  match x with
  | Tag _ _ => EmptyString
  | Plain text => text
  end.

End TextNotions.


(* ===================================================================== *)
(** ** Proofs: decompress.go *)
(* ===================================================================== *)

Section CrtfFacts.
Import Crtf.

Lemma index_Some_range {A} (l : list A) i x :
  index l i = Some x -> 0 <= i < len l.
Proof.
  unfold index, len. destruct (Z.ltb_spec i 0); [discriminate|].
  intros H0. apply lookup_lt_Some in H0. lia.
Qed.

Lemma index_in_range {A} (l : list A) i :
  0 <= i < len l -> exists x, index l i = Some x.
Proof.
  unfold index, len. intros Hi.
  destruct (Z.ltb_spec i 0); [lia|].
  destruct (lookup_lt_is_Some_2 l (Z.to_nat i)) as [x Hx]; [lia|eauto].
Qed.

Lemma store_length {A} (l l' : list A) i x :
  store l i x = Some l' -> length l' = length l.
Proof.
  unfold store. destruct (_ && _); [|discriminate].
  intros [= <-]. apply length_insert.
Qed.

Lemma copy_for_length count : forall dst out offset dst' out',
  copy_for count dst out offset = Some (dst', out') -> length dst' = length dst.
Proof.
  induction count as [|count IH]; simpl; intros dst out offset dst' out' H.
  - by inversion H.
  - destruct (index dst offset) as [b|]; simpl in H; [|discriminate].
    destruct (store dst out b) as [d1|] eqn:Hs; simpl in H; [|discriminate].
    apply IH in H. rewrite H. eapply store_length; eauto.
Qed.

Lemma fetch_flags_in src st flags in1 :
  fetch_flags src st = Some (flags, in1) -> d_in st <= in1.
Proof.
  unfold fetch_flags. destruct (_ =? 0).
  - destruct (index src (d_in st)); [|discriminate]. intros [= _ <-]. lia.
  - intros [= _ <-]. lia.
Qed.

(** A pass that goes round again has read at least one byte of [src], inside
    its bounds, and has kept the size of [dst]. *)
Lemma decodeStep_Next src st st' :
  decodeStep src st = Next st' ->
  d_in st < d_in st' <= len src /\ length (d_dst st') = length (d_dst st).
Proof.
  unfold decodeStep.
  destruct (fetch_flags src st) as [[flags in1]|] eqn:Hf; [|discriminate].
  apply fetch_flags_in in Hf.
  destruct (Z.land flags 1 =? 0).
  - destruct (index src in1) as [b|] eqn:Hb; [|discriminate].
    apply index_Some_range in Hb.
    destruct (store _ _ _) as [dst'|] eqn:Hs; [|discriminate].
    intros [= <-]; simpl. split; [lia|]. eapply store_length; eauto.
  - destruct (index src in1) as [hi|] eqn:Hhi; [|discriminate].
    destruct (index src (in1 + 1)) as [lo|] eqn:Hlo; [|discriminate].
    apply index_Some_range in Hhi, Hlo. cbv zeta.
    destruct (_ >=? _).
    + destruct (_ =? _); [discriminate|].
      destruct (copy_for _ _ _ _) as [[dst' out']|] eqn:Hc; [|discriminate].
      intros [= <-]; simpl. split; [lia|]. eapply copy_for_length; eauto.
    + destruct (copy_for _ _ _ _) as [[dst' out']|] eqn:Hc; [|discriminate].
      intros [= <-]; simpl. split; [lia|]. eapply copy_for_length; eauto.
Qed.

(** The loop stops by [break] exactly at a self-reference, and leaves [dst]
    and [out] as they are. *)
Lemma decodeStep_Break_iff src st :
  (exists st', decodeStep src st = Break st') <-> is_sentinel src st.
Proof.
  unfold is_sentinel, decodeStep. split.
  - intros [st' H].
    destruct (fetch_flags src st) as [[flags in1]|] eqn:Hf; [|discriminate].
    destruct (Z.eqb_spec (Z.land flags 1) 0) as [|Hne].
    { destruct (index src in1); [|discriminate].
      destruct (store _ _ _); discriminate. }
    destruct (index src in1) as [hi|] eqn:Hhi; [|discriminate].
    destruct (index src (in1 + 1)) as [lo|] eqn:Hlo; [|discriminate].
    cbv zeta in H.
    destruct (_ >=? _).
    + destruct (Z.eqb_spec (abs_offset (d_out st) hi lo) (d_out st)) as [He|].
      * exists flags, in1, hi, lo. auto.
      * destruct (copy_for _ _ _ _) as [[? ?]|]; discriminate.
    + destruct (copy_for _ _ _ _) as [[? ?]|]; discriminate.
  - intros (flags & in1 & hi & lo & Hf & Hne & Hhi & Hlo & He).
    rewrite Hf. destruct (Z.eqb_spec (Z.land flags 1) 0); [contradiction|].
    rewrite Hhi, Hlo. cbv zeta. rewrite He.
    rewrite (proj2 (Z.geb_le _ _)) by lia. rewrite Z.eqb_refl. eauto.
Qed.

Lemma decodeStep_Break_dst src st st' :
  decodeStep src st = Break st' -> d_dst st' = d_dst st /\ d_out st' = d_out st.
Proof.
  unfold decodeStep.
  destruct (fetch_flags src st) as [[flags in1]|]; [|discriminate].
  destruct (Z.land flags 1 =? 0).
  { destruct (index src in1); [|discriminate]. destruct (store _ _ _); discriminate. }
  destruct (index src in1); [|discriminate].
  destruct (index src (in1 + 1)); [|discriminate]. cbv zeta.
  destruct (_ >=? _).
  - destruct (_ =? _).
    + by intros [= <-].
    + destruct (copy_for _ _ _ _) as [[? ?]|]; discriminate.
  - destruct (copy_for _ _ _ _) as [[? ?]|]; discriminate.
Qed.

(** Enough fuel: the loop has ended once [src] is used up. *)
Lemma decodeLoop_ends src fuel : forall st,
  Z.max 0 (len src - d_in st) < Z.of_nat fuel ->
  exists r, decodeLoop fuel src st = Some r.
Proof.
  induction fuel as [|fuel IH]; intros st Hm; [lia|]. simpl.
  destruct (decodeStep src st) as [st'| |] eqn:Hs; eauto.
  apply IH. apply decodeStep_Next in Hs. lia.
Qed.

(** A loop that finished did so at a self-reference it had reached, with
    [dst] of the size it started with. *)
Lemma decodeLoop_Finished src fuel : forall st st',
  decodeLoop fuel src st = Some (Finished st') ->
  exists st1, reaches src st st1 /\ is_sentinel src st1 /\
              d_dst st' = d_dst st1 /\ length (d_dst st1) = length (d_dst st).
Proof.
  induction fuel as [|fuel IH]; intros st st' H; [discriminate|]. simpl in H.
  destruct (decodeStep src st) as [st2|st2|] eqn:Hs; [| |discriminate].
  - destruct (IH _ _ H) as (st1 & Hr & Hsen & Hd & Hl).
    exists st1. split; [econstructor; eauto|]. split; [done|]. split; [done|].
    apply decodeStep_Next in Hs. lia.
  - inversion H; subst st2. exists st. split; [constructor|].
    split; [apply decodeStep_Break_iff; eauto|].
    apply decodeStep_Break_dst in Hs. tauto.
Qed.

Lemma decodeLoop_reaches src : forall a b,
  reaches src a b -> forall fuel r,
  decodeLoop fuel src b = Some r ->
  exists fuel', decodeLoop fuel' src a = Some r.
Proof.
  induction 1 as [|a b c Hs Hr IH]; intros fuel r Hl; [eauto|].
  destruct (IH _ _ Hl) as [f Hf]. exists (S f). simpl. by rewrite Hs.
Qed.

Lemma decodeLoop_more_fuel src fuel : forall st r fuel',
  decodeLoop fuel src st = Some r -> (fuel <= fuel')%nat ->
  decodeLoop fuel' src st = Some r.
Proof.
  induction fuel as [|fuel IH]; intros st r fuel' H Hle; [discriminate|].
  destruct fuel' as [|fuel']; [lia|]. simpl in *.
  destruct (decodeStep src st); auto. apply IH; [done|lia].
Qed.

Lemma getU32_in_range buf offset :
  0 <= offset -> offset + 4 <= len buf -> exists v, getU32 buf offset = Some v /\ 0 <= v.
Proof.
  intros H0 H4. unfold getU32.
  destruct (index_in_range buf offset) as [t0 ->]; [lia|].
  destruct (index_in_range buf (offset + 1)) as [t1 ->]; [lia|].
  destruct (index_in_range buf (offset + 2)) as [t2 ->]; [lia|].
  destruct (index_in_range buf (offset + 3)) as [t3 ->]; [lia|].
  simpl. eexists; split; [reflexivity|].
  apply Z.land_nonneg. right. lia.
Qed.

(** [Decompress] always comes back: with bytes, an error, or a panic. *)
Lemma Decompress_returns src : exists r, Decompress src = Some r.
Proof.
  unfold Decompress, Decompress_fuel.
  destruct (Z.ltb_spec (len src) 16); [eauto|].
  destruct (getU32 src 0); [|eauto].
  destruct (getU32 src 4); [|eauto].
  destruct (getU32 src 8); [|eauto].
  destruct (getU32 src 12); [|eauto].
  destruct (negb _); [eauto|].
  destruct (_ =? MAGIC_UNCOMPRESSED); [eauto|].
  destruct (_ =? MAGIC_COMPRESSED); [|eauto].
  destruct (calculateCRC32 _ _ _); [|eauto].
  destruct (negb _); [eauto|].
  match goal with |- context [decodeLoop ?f ?s ?st] =>
    destruct (decodeLoop_ends s f st) as [r ->] end.
  - simpl. unfold len in *. lia.
  - destruct r; eauto.
Qed.
End CrtfFacts.


(** *** The table-driven checksum is the bit-by-bit one *)

Section CrcFacts.
Import Crtf.

Lemma land_1_odd c : (Z.land c 1 =? 1) = Z.odd c.
Proof.
  change 1 with (Z.ones 1) at 1. rewrite Z.land_ones by lia.
  change (2 ^ 1) with 2. rewrite Zmod_odd. by destruct (Z.odd c).
Qed.

Lemma table_rounds_iter j : forall c, table_rounds j c = Nat.iter j crc_bit c.
Proof.
  induction j as [|j IH]; intros c; [done|].
  rewrite Nat.iter_succ_r. simpl. rewrite IH. f_equal.
  unfold crc_bit, shiftZeroLeft, POLY. rewrite land_1_odd.
  destruct (Z.odd c); [apply Z.lxor_comm|done].
Qed.

Lemma lxor_cancel_common x y p : Z.lxor (Z.lxor x p) (Z.lxor y p) = Z.lxor x y.
Proof.
  apply Z.bits_inj'. intros n _. rewrite !Z.lxor_spec.
  by destruct (Z.testbit x n), (Z.testbit y n), (Z.testbit p n).
Qed.

Lemma crc_bit_lxor a b : crc_bit (Z.lxor a b) = Z.lxor (crc_bit a) (crc_bit b).
Proof.
  unfold crc_bit. rewrite <- !Z.bit0_odd, Z.lxor_spec, Z.shiftr_lxor.
  destruct (Z.testbit a 0), (Z.testbit b 0); simpl.
  - by rewrite lxor_cancel_common.
  - rewrite !Z.lxor_assoc. f_equal. apply Z.lxor_comm.
  - by rewrite Z.lxor_assoc.
  - done.
Qed.

Lemma crc_bits_lxor k a b :
  Nat.iter k crc_bit (Z.lxor a b)
  = Z.lxor (Nat.iter k crc_bit a) (Nat.iter k crc_bit b).
Proof.
  induction k as [|k IH]; [done|]. simpl. by rewrite IH, crc_bit_lxor.
Qed.

Lemma crc_bits_shifted y k :
  (k <= 8)%nat -> Nat.iter k crc_bit (Z.shiftl y 8) = Z.shiftl y (8 - Z.of_nat k).
Proof.
  induction k as [|k IH]; intros Hk; [done|].
  simpl Nat.iter. rewrite IH by lia. unfold crc_bit.
  rewrite <- Z.bit0_odd, Z.shiftl_spec_low by lia.
  rewrite Z.shiftr_shiftl_l by lia. f_equal. lia.
Qed.

Lemma split_low_byte x :
  x = Z.lxor (Z.land x 0xFF) (Z.shiftl (Z.shiftr x 8) 8).
Proof.
  apply Z.bits_inj'. intros n Hn.
  rewrite Z.lxor_spec, Z.land_spec.
  change 0xFF with (Z.ones 8).
  destruct (Z.ltb_spec n 8).
  - rewrite Z.ones_spec_low, Z.shiftl_spec_low by lia.
    by rewrite andb_true_r, xorb_false_r.
  - rewrite Z.ones_spec_high, Z.shiftl_spec, Z.shiftr_spec by lia.
    rewrite andb_false_r. simpl. f_equal. lia.
Qed.

Lemma lookup_map_seq {B} (f : nat -> B) n : forall start i,
  (i < n)%nat -> List.map f (seq start n) !! i = Some (f (start + i)%nat).
Proof.
  induction n as [|n IH]; intros start i Hi; [lia|].
  destruct i as [|i]; simpl.
  - by rewrite Nat.add_0_r.
  - rewrite IH by lia. by rewrite Nat.add_succ_r.
Qed.

Lemma table_lookup k :
  0 <= k < 256 -> index CRC32_TABLE k = Some (Nat.iter 8 crc_bit k).
Proof.
  intros Hk. unfold index.
  destruct (Z.ltb_spec k 0); [lia|].
  unfold CRC32_TABLE. rewrite lookup_map_seq by lia.
  rewrite table_rounds_iter.
  by replace (Z.of_nat (0 + Z.to_nat k)) with k by lia.
Qed.

Lemma b2z_range b : 0 <= b2z b < 256.
Proof.
  unfold b2z. pose proof (Byte.to_N_bounded b). lia.
Qed.

(** One table step is eight bit steps. *)
Lemma crc_update_bitwise crc b : crc_update crc b = crc_byte crc b.
Proof.
  unfold crc_update, crc_byte, shiftZeroLeft.
  set (x := Z.lxor crc (b2z b)).
  assert (Hlow : 0 <= Z.land x 0xFF < 256).
  { change 0xFF with (Z.ones 8). rewrite Z.land_ones by lia.
    apply Z.mod_pos_bound. lia. }
  rewrite table_lookup by done. simpl default.
  assert (Hhigh : Z.shiftr crc 8 = Z.shiftr x 8).
  { unfold x. rewrite Z.shiftr_lxor.
    rewrite (Z.shiftr_div_pow2 (b2z b)) by lia.
    rewrite (Z.div_small (b2z b)) by (pose proof (b2z_range b); lia).
    by rewrite Z.lxor_0_r. }
  rewrite Hhigh.
  rewrite (split_low_byte x) at 3.
  rewrite crc_bits_lxor, (crc_bits_shifted _ 8) by lia.
  by rewrite Z.shiftl_0_r.
Qed.

Lemma crc_for_fold buf count : forall k crc,
  (k + count = length buf)%nat ->
  crc_for count buf (Z.of_nat k) crc = Some (fold_left crc_byte (drop k buf) crc).
Proof.
  induction count as [|count IH]; intros k crc Hk.
  - rewrite drop_ge by lia. done.
  - simpl. unfold index at 1.
    destruct (Z.ltb_spec (Z.of_nat k) 0); [lia|].
    rewrite Nat2Z.id.
    destruct (lookup_lt_is_Some_2 buf k) as [b Hb]; [lia|].
    rewrite Hb. simpl.
    rewrite (drop_S _ _ _ Hb). simpl.
    replace (Z.of_nat k + 1) with (Z.of_nat (S k)) by lia.
    rewrite IH by lia. by rewrite crc_update_bitwise.
Qed.

(** What [Decompress] compares the header field with. *)
Lemma calculateCRC32_plain src :
  16 <= len src ->
  calculateCRC32 src 16 (len src - 16) = Some (crc32_plain (drop 16 src)).
Proof.
  intros Hl. unfold calculateCRC32, calculateCRC32Continue, crc32_plain.
  apply (crc_for_fold src _ 16%nat 0). unfold len in *. lia.
Qed.
End CrcFacts.


(** *** The claims on [Decompress] *)

Section CrtfClaims.
Import Crtf.

(** The header of a stream that passed the length check. *)
Lemma header_fields src :
  16 <= len src ->
  getU32 src 0 = Some (compressedSize src) /\
  getU32 src 4 = Some (uncompressedSize src) /\
  getU32 src 8 = Some (magic src) /\
  getU32 src 12 = Some (crc32sum src) /\
  0 <= uncompressedSize src.
Proof.
  intros Hl. unfold compressedSize, uncompressedSize, magic, crc32sum.
  destruct (getU32_in_range src 0) as (v0 & -> & ?); [lia..|].
  destruct (getU32_in_range src 4) as (v1 & -> & ?); [lia..|].
  destruct (getU32_in_range src 8) as (v2 & -> & ?); [lia..|].
  destruct (getU32_in_range src 12) as (v3 & -> & ?); [lia..|].
  simpl. auto.
Qed.

(** [Decompress] read off its header fields, the checks in source order. *)
Lemma Decompress_fuel_unfold fuel src :
  16 <= len src ->
  Decompress_fuel fuel src =
    if negb (compressedSize src =? len src - 4) then Some (Err SizeMismatch)
    else if magic src =? MAGIC_UNCOMPRESSED then Some (Ok src)
    else if magic src =? MAGIC_COMPRESSED then
      if negb (crc32sum src =? crc32_plain (drop 16 src)) then Some (Err CRC32Failed)
      else
        match decodeLoop fuel src (start src) with
        | None => None
        | Some Crashed => Some Panic
        | Some (Finished st) =>
            Some (Ok (drop (length COMPRESSED_RTF_PREBUF) (d_dst st)))
        end
    else Some (Err UnknownMagic).
Proof.
  intros Hl. unfold Decompress_fuel.
  destruct (Z.ltb_spec (len src) 16); [lia|].
  destruct (header_fields src Hl) as (-> & -> & -> & -> & _).
  rewrite calculateCRC32_plain by done. reflexivity.
Qed.

(** C8. [Decompress] returns an error exactly when an integrity check fails:
    the input is shorter than 16 bytes (nil included), the compressedSize
    field is not len(src) - 4, the magic is neither constant, or, for the
    compressed magic, the crc32 field is not the CRC32 of bytes [16, end)
    with polynomial 0xEDB88320 and no inversion.  When the checks pass no
    error is returned. *)
Theorem Decompress_error_iff (src : list byte) :
  exists r, Decompress src = Some r /\
            ((exists e, r = Err e) <-> integrity_failure src).
Proof.
  destruct (Decompress_returns src) as [r Hr]. exists r. split; [done|].
  unfold Decompress in Hr. unfold integrity_failure.
  destruct (Z.ltb_spec (len src) 16) as [Hshort|Hlong].
  { unfold Decompress_fuel in Hr.
    destruct (Z.ltb_spec (len src) 16); [|lia].
    inversion Hr. split; eauto. }
  rewrite Decompress_fuel_unfold in Hr by done.
  destruct (Z.eqb_spec (compressedSize src) (len src - 4)) as [Hsz|Hsz]; cbn [negb] in Hr.
  2:{ inversion Hr. split; eauto. }
  assert (MAGIC_COMPRESSED <> MAGIC_UNCOMPRESSED) by discriminate.
  destruct (Z.eqb_spec (magic src) MAGIC_UNCOMPRESSED) as [Hu|Hu].
  { inversion Hr. split; [intros [e ?]; discriminate|].
    intros [?|[?|[[? ?]|[? ?]]]]; [lia|done|done|congruence]. }
  destruct (Z.eqb_spec (magic src) MAGIC_COMPRESSED) as [Hc|Hc].
  2:{ inversion Hr. split; eauto. }
  destruct (Z.eqb_spec (crc32sum src) (crc32_plain (drop 16 src))) as [Hcrc|Hcrc];
    cbn [negb] in Hr.
  2:{ inversion Hr. split; eauto 6. }
  split.
  - intros [e ->].
    destruct (decodeLoop _ _ _) as [[?|]|]; discriminate.
  - intros [?|[?|[[? ?]|[? ?]]]]; [lia|done|done|done].
Qed.

(** Two numbers with no bit in common: their [lor] is their sum. *)
Lemma lor_disjoint_add a b n :
  0 <= n -> 0 <= b < 2 ^ n ->
  Z.lor (Z.shiftl a n) b = a * 2 ^ n + b.
Proof.
  intros Hn Hb.
  assert (Hland : Z.land (Z.shiftl a n) b = 0).
  { apply Z.bits_inj'. intros k Hk. rewrite Z.land_spec, Z.bits_0.
    destruct (Z.ltb_spec k n).
    - by rewrite Z.shiftl_spec_low.
    - rewrite andb_comm.
      destruct (Z.eqb_spec b 0) as [->|Hnz]; [by rewrite Z.bits_0|].
      assert (Hlog : Z.log2 b < k).
      { apply Z.log2_lt_pow2; [lia|].
        apply Z.lt_le_trans with (2 ^ n); [lia|].
        apply Z.pow_le_mono_r; lia. }
      by rewrite (Z.bits_above_log2 b k) by lia. }
  rewrite <- Z.lxor_lor by done. rewrite <- Z.add_nocarry_lxor by done.
  by rewrite Z.shiftl_mul_pow2.
Qed.

(** The reference's twelve bits, placed in the 4096-byte block of the
    write position. *)
Lemma abs_offset_in_block out hi lo :
  abs_offset out hi lo
  = (out / DICT_SIZE) * DICT_SIZE + (b2z hi * 16 + b2z lo / 16) /\
  0 <= b2z hi * 16 + b2z lo / 16 < DICT_SIZE.
Proof.
  pose proof (b2z_range hi) as Hhi. pose proof (b2z_range lo) as Hlo.
  assert (Hq : 0 <= b2z lo / 16 < 16).
  { split; [apply Z.div_pos; lia|apply Z.div_lt_upper_bound; lia]. }
  unfold abs_offset, shiftZeroLeft, DICT_MASK, DICT_SIZE.
  change 0xFF with (Z.ones 8). rewrite !Z.land_ones by lia.
  rewrite !Z.mod_small by lia.
  rewrite Z.shiftr_div_pow2 by lia. change (2 ^ 4) with 16.
  rewrite (lor_disjoint_add (b2z hi) (b2z lo / 16) 4) by lia.
  change (2 ^ 4) with 16.
  change (4096 - 1) with (Z.ones 12).
  rewrite <- Z.ldiff_land, Z.ldiff_ones_r by lia.
  rewrite lor_disjoint_add by (change (2 ^ 12) with 4096; lia).
  rewrite Z.shiftr_div_pow2 by lia. change (2 ^ 12) with 4096.
  split; [reflexivity|lia].
Qed.
(** C7. On a stream with the compressed magic, a back-reference whose
    absolute offset, its twelve bits placed in the 4096-byte block of the
    write position, is the write position is what ends the decoding loop,
    at that point; and the bytes returned, the preamble stripped, are
    exactly as many as the header's uncompressedSize field says. *)
Theorem Decompress_sentinel_length (src out : list byte) :
  magic src = MAGIC_COMPRESSED ->
  Decompress src = Some (Ok out) ->
  len out = uncompressedSize src /\
  (forall st, is_sentinel src st <-> exists st', decodeStep src st = Break st') /\
  (forall pos hi lo,
     abs_offset pos hi lo
     = (pos / DICT_SIZE) * DICT_SIZE + (b2z hi * 16 + b2z lo / 16) /\
     0 <= b2z hi * 16 + b2z lo / 16 < DICT_SIZE) /\
  exists st, reaches src (start src) st /\ is_sentinel src st /\
             out = drop (length COMPRESSED_RTF_PREBUF) (d_dst st).
Proof.
  intros Hm Hd. unfold Decompress in Hd.
  destruct (Z.ltb_spec (len src) 16) as [Hshort|Hlong].
  { unfold Decompress_fuel in Hd.
    destruct (Z.ltb_spec (len src) 16); [discriminate|lia]. }
  rewrite Decompress_fuel_unfold in Hd by done.
  destruct (negb _); [discriminate|].
  rewrite Hm in Hd. change (MAGIC_COMPRESSED =? MAGIC_UNCOMPRESSED) with false in Hd.
  rewrite Z.eqb_refl in Hd.
  destruct (negb _); [discriminate|].
  destruct (decodeLoop _ _ _) as [[st'|]|] eqn:Hl; [|discriminate..].
  inversion Hd as [Hout]. clear Hd.
  apply decodeLoop_Finished in Hl as (st1 & Hr & Hsen & Hdst & Hlen).
  split; [|split; [|split]].
  - rewrite Hdst. unfold len. rewrite length_drop, Hlen. simpl d_dst.
    unfold initial_dst. rewrite length_app, length_replicate.
    destruct (header_fields src Hlong) as (_ & _ & _ & _ & Hnn).
    change (length COMPRESSED_RTF_PREBUF) with 207%nat. lia.
  - intros st. symmetry. apply decodeStep_Break_iff.
  - apply abs_offset_in_block.
  - exists st1. by rewrite <- Hdst.
Qed.

(** The theorem at [stream_hi]: the literals "hi", then the self-reference. *)
Lemma Decompress_sentinel_length_witness :
  magic stream_hi = MAGIC_COMPRESSED /\
  Decompress stream_hi = Some (Ok [x68; x69]) /\
  len [x68; x69] = uncompressedSize stream_hi.
Proof.
  split; [reflexivity|]. split; [vm_compute; reflexivity|].
  apply (Decompress_sentinel_length stream_hi [x68; x69]);
    vm_compute; reflexivity.
Defined.

(** Conversely, once the checks have passed, a self-reference that the loop
    reaches makes [Decompress] return what [dst] holds there. *)
Lemma Decompress_stops_at_sentinel src st :
  ~ integrity_failure src -> magic src = MAGIC_COMPRESSED ->
  reaches src (start src) st -> is_sentinel src st ->
  Decompress src = Some (Ok (drop (length COMPRESSED_RTF_PREBUF) (d_dst st))).
Proof.
  intros Hok Hm Hr Hsen. unfold integrity_failure in Hok.
  assert (Hlong : 16 <= len src) by lia.
  unfold Decompress. rewrite Decompress_fuel_unfold by done.
  destruct (Z.eqb_spec (compressedSize src) (len src - 4)); [|tauto]. cbn [negb].
  rewrite Hm. change (MAGIC_COMPRESSED =? MAGIC_UNCOMPRESSED) with false.
  rewrite Z.eqb_refl.
  destruct (Z.eqb_spec (crc32sum src) (crc32_plain (drop 16 src))); [|tauto]. cbn [negb].
  apply decodeStep_Break_iff in Hsen as [st' Hb].
  assert (H1 : decodeLoop 1 src st = Some (Finished st')) by (simpl; by rewrite Hb).
  destruct (decodeLoop_reaches _ _ _ Hr _ _ H1) as [f Hf].
  destruct (decodeLoop_ends src (S (length src)) (start src)) as [r Hr'].
  { simpl. unfold len in *. lia. }
  rewrite Hr'.
  apply (decodeLoop_more_fuel _ _ _ _ (Nat.max f (S (length src)))) in Hf; [|lia].
  apply (decodeLoop_more_fuel _ _ _ _ (Nat.max f (S (length src)))) in Hr'; [|lia].
  rewrite Hf in Hr'. inversion Hr'; subst r.
  apply decodeStep_Break_dst in Hb as [-> _]. done.
Qed.

(** C9, evaluated.  A stream that passes the header, size and checksum
    checks and stops after its header makes the loop read [src[16]], past
    the end; one that carries a literal more than its announced size makes it
    write [dst[207]], past the end.  Both are run-time panics, not returned
    errors. *)
Theorem Decompress_panics :
  ~ integrity_failure stream_header_only /\
  Decompress stream_header_only = Some Panic /\
  decodeStep stream_header_only (start stream_header_only) = Fault /\
  ~ integrity_failure stream_overfull /\
  Decompress stream_overfull = Some Panic.
Proof.
  assert (Hpass : forall s, (len s <? 16) = false ->
            (compressedSize s =? len s - 4) = true ->
            (magic s =? MAGIC_COMPRESSED) = true ->
            (crc32sum s =? crc32_plain (drop 16 s)) = true ->
            ~ integrity_failure s).
  { intros s H1 H2 H3 H4 [?|[?|[[? ?]|[? ?]]]]; lia. }
  split; [apply Hpass; vm_compute; reflexivity|].
  split; [vm_compute; reflexivity|].
  split; [vm_compute; reflexivity|].
  split; [apply Hpass; vm_compute; reflexivity|].
  vm_compute; reflexivity.
Qed.
End CrtfClaims.


(* ===================================================================== *)
(** ** Proofs: the tokenizer *)
(* ===================================================================== *)

Section ReaderFacts.
Import Bufio.

Lemma drop_string_length n : forall s,
  String.length (drop_string n s) = (String.length s - n)%nat.
Proof.
  induction n as [|n IH]; intros [|c s]; simpl; auto.
Qed.

Lemma ReadByte_remaining rd rd' c err :
  ReadByte rd = (rd', c, err) ->
  if err then rd' = rd else remaining rd = S (remaining rd').
Proof.
  unfold ReadByte, remaining. destruct (buf rd) eqn:Hb; intros [= <- <- <-].
  - done.
  - simpl. done.
Qed.

Lemma ReadByte_le rd : (remaining (ReadByte rd).1.1 <= remaining rd)%nat.
Proof.
  destruct (ReadByte rd) as [[rd' c] err] eqn:H. simpl.
  apply ReadByte_remaining in H. destruct err; [subst; lia|lia].
Qed.

Lemma DecodeRune_size c s : (1 <= (utf8.DecodeRune (String c s)).2)%nat.
Proof.
  unfold utf8.DecodeRune.
  repeat match goal with
         | |- context [match ?x with _ => _ end] => destruct x; simpl; try lia
         end.
Qed.

Lemma ReadRune_remaining rd rd' rune err :
  ReadRune rd = (rd', rune, err) ->
  if err then rd' = rd else (remaining rd' < remaining rd)%nat.
Proof.
  unfold ReadRune, remaining. destruct (buf rd) as [|c s] eqn:Hb.
  - by intros [= <- <- <-].
  - destruct (byteZ c <? 128) eqn:Hc.
    + intros [= <- <- <-]. simpl. lia.
    + pose proof (DecodeRune_size c s) as Hsz.
      destruct (utf8.DecodeRune (String c s)) as [rn size]. simpl in Hsz.
      intros [= <- <- <-]. cbn [buf].
      rewrite drop_string_length. simpl. lia.
Qed.

Lemma UnreadByte_remaining rd : (remaining (UnreadByte rd) <= S (remaining rd))%nat.
Proof.
  unfold UnreadByte, remaining. destruct (lastByte rd); simpl; lia.
Qed.
End ReaderFacts.


Section TokenizerFacts.
Import Tree Bufio Structure.

#[local] Ltac close_case :=
  cbn in *; first [lia | congruence | (unfold BACKSLASH in *; cbn in *; congruence)].

(** The loop of [parseText] ends within the bytes that are left, does not
    give bytes back, and takes at least one when the first byte is neither a
    backslash nor a brace. *)
Lemma parseText_loop_ends fuel : forall rd buffer,
  (remaining rd < fuel)%nat ->
  exists rd' buffer',
    parseText_loop fuel rd buffer = Some (rd', buffer') /\
    (remaining rd' <= remaining rd)%nat /\
    (forall c rest, buf rd = String c rest ->
       Ascii.eqb c BACKSLASH = false -> is_brace c = false ->
       (remaining rd' < remaining rd)%nat).
Proof.
  induction fuel as [|fuel IH]; intros rd buffer Hf; [lia|].
  cbn [parseText_loop]. unfold Peek. cbn [buf]. unfold remaining in *.
  destruct (buf rd) as [|bp0 rest] eqn:Hb; cbn [take_string].
  { eexists _, _. split; [reflexivity|]. cbn. split; [lia|]. discriminate. }
  cbn [String.length] in Hf.
  assert (Hrec : forall lb buffer0, exists rd' buffer',
            parseText_loop fuel (mkReader lb rest) buffer0 = Some (rd', buffer') /\
            (String.length (buf rd') <= String.length rest)%nat).
  { intros lb buffer0.
    destruct (IH (mkReader lb rest) buffer0) as (rd' & b' & H1 & H2 & _);
      [unfold remaining; cbn; lia|].
    eauto. }
  destruct (is_eol bp0) eqn:Heol.
  { unfold ReadByte. cbn [buf].
    destruct (Hrec (Some bp0) buffer) as (rd' & b' & -> & Hle).
    eexists _, _. split; [reflexivity|]. cbn. split; [lia|]. intros; lia. }
  destruct (Ascii.eqb bp0 BACKSLASH) eqn:Hbs.
  { destruct rest as [|bp1 rest1]; cbn [take_string].
    - unfold ReadByte. cbn.
      eexists _, _. split; [reflexivity|]. cbn. split; [lia|].
      intros c r [= <- <-] ? ?; close_case.
    - destruct (negb (Ascii.eqb bp1 RBRACE) && negb (Ascii.eqb bp1 LBRACE)
                && negb (Ascii.eqb bp1 BACKSLASH)).
      + eexists _, _. split; [reflexivity|]. cbn. split; [lia|].
        intros c r [= <- <-] ? ?; close_case.
      + unfold ReadByte. cbn [buf].
        destruct (IH (mkReader (Some bp1) rest1)
                    ((buffer ++ String bp0 EmptyString) ++ String bp1 EmptyString))
          as (rd' & b' & -> & Hle & _); [unfold remaining; cbn in *; lia|].
        unfold remaining in Hle. cbn in Hle.
        eexists _, _. split; [reflexivity|]. cbn. split; [lia|].
        intros c r [= <- <-] ? ?; close_case. }
  destruct (is_brace bp0) eqn:Hbr.
  { eexists _, _. split; [reflexivity|]. cbn. split; [lia|].
    intros c r [= <- <-] ? ?; close_case. }
  destruct (ReadRune (mkReader None (String bp0 rest))) as [[rd1 br] err] eqn:Hrr.
  pose proof (ReadRune_remaining _ _ _ _ Hrr) as Hrem.
  destruct err.
  { unfold ReadRune in Hrr. cbn [buf] in Hrr.
    destruct (byteZ bp0 <? 128); [discriminate|].
    destruct (utf8.DecodeRune _); discriminate. }
  unfold remaining in Hrem. cbn in Hrem.
  destruct (IH rd1 (buffer ++ utf8.EncodeRune br)) as (rd' & b' & -> & Hle & _);
    [unfold remaining; lia|].
  unfold remaining in Hle.
  eexists _, _. split; [reflexivity|]. cbn [String.length buf] in *.
  split; [lia|]. intros; lia.
Qed.

(** The loop that skips the fallback of a [\u] ends within the bytes that
    are left and gives none back. *)
Lemma skip_loop_ends fuel : forall rd uc,
  (remaining rd < fuel)%nat ->
  exists rd', skip_loop fuel rd uc = Some rd' /\
              (remaining rd' <= remaining rd)%nat.
Proof.
  induction fuel as [|fuel IH]; intros rd uc Hf; [lia|].
  cbn [skip_loop]. unfold Peek at 1. cbn [buf]. unfold remaining in *.
  destruct (buf rd) as [|c0 rest] eqn:Hb; cbn [take_string String.length Nat.ltb Nat.leb].
  { eexists. split; [reflexivity|]. cbn. lia. }
  cbn [String.length] in Hf. cbn [first_byte].
  destruct (is_brace c0).
  { eexists. split; [reflexivity|]. cbn. lia. }
  destruct (ReadRune (mkReader None (String c0 rest))) as [[rd1 br] err] eqn:Hrr.
  pose proof (ReadRune_remaining _ _ _ _ Hrr) as Hrem.
  destruct err.
  { eexists. split; [reflexivity|]. subst rd1. cbn. lia. }
  unfold remaining in Hrem. cbn in Hrem.
  assert (Hcount : forall rd2, (String.length (buf rd2) <= String.length (buf rd1))%nat ->
            exists rd', (let uc0 := wrap_int (uc - 1) in
                         if uc0 <=? 0 then Some rd2 else skip_loop fuel rd2 uc0) = Some rd' /\
                        (String.length (buf rd') <= S (String.length rest))%nat).
  { intros rd2 H2. cbv zeta. destruct (wrap_int (uc - 1) <=? 0).
    - eexists. split; [reflexivity|]. lia.
    - destruct (IH rd2 (wrap_int (uc - 1))) as (rd' & -> & Hle);
        [unfold remaining; lia|].
      unfold remaining in Hle. eexists. split; [reflexivity|]. lia. }
  unfold Peek at 1. cbn [buf].
  destruct (buf rd1) as [|c1 rest1] eqn:Hb1; cbn [take_string String.length Nat.ltb Nat.leb].
  { eexists. split; [reflexivity|]. cbn. lia. }
  cbn [first_byte].
  destruct ((br =? byteZ BACKSLASH) && Ascii.eqb c1 APOSTROPHE).
  2:{ apply (Hcount (mkReader None (String c1 rest1))). cbn. lia. }
  unfold ReadByte at 1. cbn [buf].
  unfold ReadByte at 1. cbn [buf].
  destruct rest1 as [|c2 rest2].
  { eexists. split; [reflexivity|]. cbn in *. lia. }
  unfold ReadByte at 1. cbn [buf].
  destruct rest2 as [|c3 rest3].
  { eexists. split; [reflexivity|]. cbn in *. lia. }
  apply (Hcount (mkReader (Some c3) rest3)). cbn in *. lia.
Qed.

Lemma read_while_length P : forall s w rest,
  read_while P s = (w, rest) -> (String.length rest <= String.length s)%nat.
Proof.
  induction s as [|c s IH]; intros w rest; cbn.
  - intros [= <- <-]. done.
  - destruct (P c).
    + destruct (read_while P s) as [w0 r0]. intros [= <- <-].
      specialize (IH _ _ eq_refl). lia.
    + intros [= <- <-]. cbn. lia.
Qed.

Lemma addChild_orderly_at c o rd :
  (remaining rd <= remaining (reader o))%nat ->
  orderly_at o (addChild c (with_reader rd o)).
Proof.
  intros Hle. unfold addChild, orderly_at, frames_match. cbn.
  destruct (path o); [done|]. cbn. split; [lia|done].
Qed.

Lemma startGroup_orderly : orderly startGroup.
Proof.
  intros o. unfold startGroup, orderly_at, frames_match.
  destruct (Root_is_nil o) eqn:Hr.
  - cbn. split; [lia|].
    unfold Root_is_nil in Hr. destruct (closed o); [discriminate|].
    destruct (path o); [|discriminate]. cbn. intros H.
    rewrite length_app, H. reflexivity.
  - destruct (path o) eqn:Hp; [done|].
    destruct (index _ _); [|done]. cbn. split; [lia|].
    rewrite length_app. cbn. lia.
Qed.

Lemma endGroup_orderly : orderly endGroup.
Proof.
  intros o. unfold endGroup, orderly_at, frames_match.
  destruct (path o) as [|g parents] eqn:Hp; [done|].
  assert (Hlen : length (uc o) = S (length parents) ->
            length (if 0 <? len (uc o) then take (length (uc o) - 1) (uc o) else uc o)
            = length parents).
  { unfold len. intros H.
    destruct (Z.ltb_spec 0 (Z.of_nat (length (uc o)))); [|lia].
    rewrite length_take. lia. }
  destruct parents as [|p rest]; cbn; (split; [lia|]);
    intros H; apply Hlen in H; cbn in H; exact H.
Qed.

Lemma parseText_orderly_at o rd :
  (remaining rd <= S (remaining (reader o)))%nat ->
  match parseText (with_reader rd o) with
  | Ret o' =>
      (remaining (reader o') <= remaining rd)%nat /\
      (forall c rest, buf rd = String c rest ->
         Ascii.eqb c BACKSLASH = false -> is_brace c = false ->
         (remaining (reader o') < remaining rd)%nat) /\
      (frames_match o -> frames_match o')
  | GoPanic => True
  | OutOfFuel => False
  end.
Proof.
  intros _. unfold parseText. cbn [reader with_reader].
  destruct (parseText_loop_ends (S (String.length (buf rd))) rd EmptyString)
    as (rd' & buffer' & -> & Hle & Hlt); [unfold remaining; lia|].
  destruct (0 <? string_len buffer').
  - unfold addChild, frames_match. cbn. destruct (path o); [done|]. cbn. auto.
  - cbn. auto.
Qed.

Lemma parseControlSymbol_orderly : orderly parseControlSymbol.
Proof.
  intros o. unfold parseControlSymbol.
  destruct (ReadByte (reader o)) as [[rd b] err] eqn:Hrb. cbv beta iota.
  pose proof (ReadByte_remaining _ _ _ _ Hrb) as Hrem.
  destruct err.
  { subst rd. cbn. split; [lia|done]. }
  assert (Hadd : forall c rd2, (remaining rd2 <= remaining rd)%nat ->
            orderly_at o (addChild c (with_reader rd2 o))).
  { intros c rd2 Hle. apply addChild_orderly_at. lia. }
  destruct (is_eol b).
  - unfold Peek. cbn [buf]. cbv beta iota.
    destruct (buf rd) as [|c1 rest1] eqn:Hb1; cbn [take_string String.length Nat.ltb Nat.leb].
    + cbn. split; [unfold remaining in *; rewrite Hb1 in *; cbn; lia|done].
    + cbn [Nat.eqb first_byte andb]. apply Hadd.
      destruct (is_eol c1); unfold remaining; cbn; rewrite Hb1; cbn; lia.
  - destruct (Ascii.eqb b APOSTROPHE); [|by apply Hadd].
    unfold Peek at 1. cbn [buf]. cbv beta iota.
    destruct (buf rd) as [|c1 rest1] eqn:Hb1; cbn [take_string String.length Nat.ltb Nat.leb negb andb first_byte].
    { apply Hadd. unfold remaining. cbn. rewrite Hb1. cbn. lia. }
    destruct (Utils.ByteIsHexDigit c1).
    2:{ apply Hadd. unfold remaining. cbn. rewrite Hb1. cbn. lia. }
    unfold ReadByte at 1 2. cbn [buf fst]. unfold Peek. cbn [buf]. cbv beta iota.
    destruct rest1 as [|c2 rest2]; cbn [take_string String.length Nat.ltb Nat.leb negb andb first_byte].
    { apply Hadd. unfold remaining. cbn. rewrite Hb1. cbn. lia. }
    destruct (Utils.ByteIsHexDigit c2); apply Hadd; unfold remaining; cbn; rewrite Hb1; cbn; lia.
Qed.
End TokenizerFacts.


Section ParseFacts.
Import Tree Bufio Structure.

Lemma parseControlWord_orderly : orderly parseControlWord.
Proof.
  intros o. unfold parseControlWord.
  destruct (read_while Utils.ByteIsAsciiLetter (buf (reader o))) as [w rest] eqn:Hw.
  apply read_while_length in Hw. cbv beta iota.
  unfold Peek at 1. cbn [buf]. cbv beta iota.
  match goal with |- context [match ?e with pair _ _ => _ end] =>
    destruct e as [rd1 sign] eqn:H1 end.
  assert (Hle1 : (remaining rd1 <= remaining (reader o))%nat).
  { destruct (negb _ && _) in H1.
    - destruct (ReadByte _) as [[rd' ?] ?] eqn:Hrb in H1. injection H1 as <- _.
      pose proof (ReadByte_le (mkReader None rest)) as Hl. rewrite Hrb in Hl.
      unfold remaining in *. cbn in *. lia.
    - injection H1 as <- _. unfold remaining. cbn. lia. }
  clear H1.
  destruct (read_while Utils.ByteIsDigit (buf rd1)) as [digits rest2] eqn:Hd.
  apply read_while_length in Hd. cbv beta iota.
  unfold Peek at 1. cbn [buf]. cbv beta iota zeta.
  match goal with |- context [with_reader _ _] => idtac end.
  set (rd3 := if negb _ && _ then _ else _).
  assert (Hle3 : (remaining rd3 <= remaining (reader o))%nat).
  { subst rd3. destruct (negb _ && _).
    - etransitivity; [apply ReadByte_le|]. unfold remaining in *. cbn. lia.
    - unfold remaining in *. cbn. lia. }
  clearbody rd3.
  set (parameter := if 0 <? string_len (sign ++ digits) then _ else 1).
  clearbody parameter.
  destruct (String.eqb w "uc").
  - destruct (store (uc o) (len (uc o) - 1) parameter) as [uc'|] eqn:Hst; [|done].
    apply store_length in Hst. cbn [mbind run_bind].
    assert (Hfin : forall rd4, (remaining rd4 <= remaining rd3)%nat ->
              orderly_at o (addChild (rtfControlWord w (sign ++ digits))
                              (with_reader rd4 (with_uc uc' o)))).
    { intros rd4 H4. unfold addChild, orderly_at, frames_match. cbn.
      destruct (path o); [done|]. cbn. split; [lia|]. rewrite Hst. done. }
    destruct (String.eqb w "u").
    + cbn [uc with_uc].
      destruct (index uc' (len uc' - 1)); [|done].
      destruct (skip_loop_ends (S (String.length (buf rd3))) rd3 z)
        as (rd4 & -> & H4); [unfold remaining; lia|].
      cbn [mbind run_bind]. by apply Hfin.
    + cbn [mbind run_bind]. by apply Hfin.
  - cbn [mbind run_bind].
    destruct (String.eqb w "u").
    + destruct (index (uc o) (len (uc o) - 1)); [|done].
      destruct (skip_loop_ends (S (String.length (buf rd3))) rd3 z)
        as (rd4 & -> & H4); [unfold remaining; lia|].
      cbn [mbind run_bind]. apply addChild_orderly_at. lia.
    + cbn [mbind run_bind]. apply addChild_orderly_at. lia.
Qed.

Lemma parseControl_orderly : orderly parseControl.
Proof.
  intros o. unfold parseControl, Peek. cbv beta iota.
  destruct (String.length (take_string 1 (buf (reader o))) <? 1)%nat.
  { cbn. split; [unfold remaining; cbn; lia|done]. }
  destruct (negb _).
  - pose proof (parseControlSymbol_orderly (with_reader (mkReader None (buf (reader o))) o)) as H.
    unfold orderly_at in *. destruct (parseControlSymbol _); auto.
  - pose proof (parseControlWord_orderly (with_reader (mkReader None (buf (reader o))) o)) as H.
    unfold orderly_at in *. destruct (parseControlWord _); auto.
Qed.

(** A pass of the loop of [Parse] needs no more fuel than it has, keeps
    [frames_match], and, when the loop is to go on, has read a byte. *)
Lemma Parse_step_orderly o :
  match Parse_step o with
  | Ret (o', again) =>
      (if again then (remaining (reader o') < remaining (reader o))%nat else True) /\
      (frames_match o -> frames_match o')
  | GoPanic => True
  | OutOfFuel => False
  end.
Proof.
  unfold Parse_step.
  destruct (ReadByte (reader o)) as [[rd b] err] eqn:Hrb. cbv beta iota zeta.
  destruct (currentGroup_is_nil _ && negb _); [cbn; auto|].
  assert (Hfin : forall res : run RtfStructure,
            match res with
            | Ret o' => (err = false -> (remaining (reader o') < remaining (reader o))%nat) /\
                        (frames_match o -> frames_match o')
            | GoPanic => True | OutOfFuel => False end ->
            match mbind (M:=run) (fun o0 : RtfStructure => Ret (o0, negb err)) res with
            | Ret (o', again) =>
                (if again then (remaining (reader o') < remaining (reader o))%nat else True) /\
                (frames_match o -> frames_match o')
            | GoPanic => True | OutOfFuel => False end).
  { intros [o'| |]; cbn; auto. intros (H2 & H3). split; [|done].
    destruct err; cbn; auto. }
  apply Hfin. clear Hfin.
  assert (Hsub : forall f, orderly f ->
            match f (with_reader rd o) with
            | Ret o' => (err = false -> (remaining (reader o') < remaining (reader o))%nat) /\
                        (frames_match o -> frames_match o')
            | GoPanic => True | OutOfFuel => False end).
  { intros f Hf. specialize (Hf (with_reader rd o)). unfold orderly_at in Hf.
    destruct (f _); auto. destruct Hf as [H1 H2]. split; [|done].
    intros ->. apply ReadByte_remaining in Hrb. cbn in H1. lia. }
  destruct (Ascii.eqb b LBRACE) eqn:E1; [by apply Hsub, startGroup_orderly|].
  destruct (Ascii.eqb b RBRACE) eqn:E2; [by apply Hsub, endGroup_orderly|].
  destruct (Ascii.eqb b BACKSLASH) eqn:E3; [by apply Hsub, parseControl_orderly|].
  clear Hsub. cbn [reader with_reader].
  replace (with_reader (UnreadByte rd) (with_reader rd o))
    with (with_reader (UnreadByte rd) o) by reflexivity.
  pose proof (parseText_orderly_at o (UnreadByte rd)) as Ht.
  pose proof (UnreadByte_remaining rd) as Hun.
  pose proof (ReadByte_le (reader o)) as Hrle. rewrite Hrb in Hrle. cbn in Hrle.
  destruct (parseText _) as [o'| |]; [|done|apply Ht; lia].
  destruct Ht as (H1 & H2 & H3); [lia|]. split; [|done].
  intros ->. unfold ReadByte in Hrb.
  destruct (buf (reader o)) as [|c rest] eqn:Hbuf; [discriminate|].
  injection Hrb as <- <-.
  specialize (H2 c rest eq_refl E3).
  unfold remaining in *. rewrite Hbuf. cbn in *. apply H2.
  unfold is_brace. by rewrite E1, E2.
Qed.

(** The loop of [Parse] ends within the bytes to read, by a panic or with an
    object on which [frames_match] still holds. *)
Lemma Parse_loop_ends fuel : forall o,
  (remaining (reader o) < fuel)%nat ->
  match Parse_loop fuel o with
  | Ret o' => frames_match o -> frames_match o'
  | GoPanic => True
  | OutOfFuel => False
  end.
Proof.
  induction fuel as [|fuel IH]; intros o Hf; [lia|]. cbn [Parse_loop].
  pose proof (Parse_step_orderly o) as Hs.
  destruct (Parse_step o) as [[o1 again]| |]; [|done..].
  destruct Hs as [H1 H2]. destruct again; [|done].
  specialize (IH o1). destruct (Parse_loop fuel o1); [|done|apply IH; lia].
  intros H. apply IH; [lia|auto].
Qed.

(** [ParseBytes] always comes back, with the object or by a panic, and the
    object has one [uc] frame for each group still open. *)
Lemma ParseBytes_returns content :
  match ParseBytes content with
  | Ret o => frames_match o
  | GoPanic => True
  | OutOfFuel => False
  end.
Proof.
  unfold ParseBytes.
  pose proof (Parse_loop_ends (S (S (String.length content)))
                (setReader (NewReader content))) as H.
  destruct (Parse_loop _ _); [|done|apply H; unfold remaining; cbn; lia].
  apply H; [unfold remaining; cbn; lia|]. reflexivity.
Qed.
End ParseFacts.


(* ===================================================================== *)
(** ** Proofs: the HTML-encapsulated interpreter *)
(* ===================================================================== *)

Section InterpFacts.
Import Tree Structure Interp.
Variable decoder_Bytes : Utils.Decoder -> string -> string.

(** Induction on a token tree, with the hypothesis on every child of a
    group. *)
Lemma rtfElement_tree_ind (P : rtfElement -> Prop) :
  (forall children, Forall P children -> P (rtfGroup children)) ->
  (forall word parameter, P (rtfControlWord word parameter)) ->
  (forall symbol parameter, P (rtfControlSymbol symbol parameter)) ->
  (forall content, P (rtfText content)) ->
  forall item, P item.
Proof.
  intros Hg Hw Hs Ht.
  fix IH 1. intros [children|word parameter|symbol parameter|text].
  - apply Hg. induction children as [|c cs IHcs]; constructor.
    + apply IH.
    + exact IHcs.
  - apply Hw.
  - apply Hs.
  - apply Ht.
Qed.

(** [copy] returns a fresh empty state, whatever it is given. *)
Lemma copy_empty c : copy c = NewRtfState.
Proof. unfold copy, NewRtfState. cbn. by rewrite map_fold_empty. Qed.

Lemma keeps_stack_Ret p p' :
  groupsInitialStates p' = groupsInitialStates p ->
  (allocated p -> allocated p') ->
  keeps_stack p (Ret p').
Proof. intros H1 H2. split; assumption. Qed.

(** The tokens of a group cannot reach the saved states. *)
Lemma updateState_keeps word value p : keeps_stack p (updateState word value p).
Proof.
  unfold updateState, keeps_stack, allocated.
  destruct (DetectWordState word) as [scope valueType].
  destruct (states (groupCurrentState p)) as [m|]; cbn; [|tauto].
  split; [reflexivity|discriminate].
Qed.

Lemma parseControlWord_keeps word parameter p :
  keeps_stack p (parseControlWord word parameter p).
Proof.
  unfold parseControlWord.
  repeat case_match;
    first [apply updateState_keeps | by apply keeps_stack_Ret].
Qed.

Lemma parseControlSymbol_keeps symbol parameter p :
  keeps_stack p (Ret (parseControlSymbol decoder_Bytes symbol parameter p)).
Proof.
  unfold parseControlSymbol.
  repeat case_match; by apply keeps_stack_Ret.
Qed.

Lemma parseText_keeps text p :
  keeps_stack p (Ret (parseText decoder_Bytes text p)).
Proof. unfold parseText. case_match; by apply keeps_stack_Ret. Qed.

Lemma parseFontInfo_child_stack acc child :
  groupsInitialStates (parseFontInfo_child acc child).1
  = groupsInitialStates acc.1 /\
  groupCurrentState (parseFontInfo_child acc child).1
  = groupCurrentState acc.1.
Proof.
  destruct acc as [p fontIdx]. unfold parseFontInfo_child.
  repeat case_match; split; reflexivity.
Qed.

Lemma parseFontInfoGroup_stack children p :
  groupsInitialStates (parseFontInfoGroup children p) = groupsInitialStates p /\
  groupCurrentState (parseFontInfoGroup children p) = groupCurrentState p.
Proof.
  unfold parseFontInfoGroup. generalize 0 as fontIdx.
  revert p. induction children as [|c cs IH]; intros p fontIdx; [done|].
  cbn [fold_left].
  destruct (parseFontInfo_child (p, fontIdx) c) as [p1 i1] eqn:H1.
  destruct (IH p1 i1) as [-> ->].
  change p1 with (p1, i1).1. rewrite <- H1.
  apply parseFontInfo_child_stack.
Qed.

Lemma parseFontTableGroup_stack children p :
  groupsInitialStates (parseFontTableGroup children p) = groupsInitialStates p /\
  groupCurrentState (parseFontTableGroup children p) = groupCurrentState p.
Proof.
  unfold parseFontTableGroup.
  change (groupsInitialStates p) with (groupsInitialStates (with_fontTable ∅ p)).
  change (groupCurrentState p) with (groupCurrentState (with_fontTable ∅ p)).
  generalize (with_fontTable ∅ p). clear p.
  induction children as [|c cs IH]; intros p; [done|].
  cbn [fold_left]. destruct (IH (match c with
       | rtfGroup cs0 => if IsFontInfo cs0 then parseFontInfoGroup cs0 p else p
       | _ => p end)) as [-> ->].
  destruct c as [g| | |]; try done.
  destruct (IsFontInfo g); [apply parseFontInfoGroup_stack|done].
Qed.

Lemma parseColorTableGroup_stack children p :
  groupsInitialStates (parseColorTableGroup children p) = groupsInitialStates p /\
  groupCurrentState (parseColorTableGroup children p) = groupCurrentState p.
Proof.
  unfold parseColorTableGroup. destruct (negb _); [done|].
  generalize (mkColor 0 0 0) as color.
  revert p. induction children as [|c cs IH]; intros p color; [done|].
  cbn [fold_left].
  destruct (parseColorTable_child (p, color) c) as [p1 c1] eqn:H1.
  destruct (IH p1 c1) as [-> ->]. unfold parseColorTable_child in H1.
  repeat case_match; by injection H1 as <- <-.
Qed.

Lemma range_parse_keeps children : forall p,
  Forall (fun item => forall q, keeps_stack q (parseElement decoder_Bytes item q))
         children ->
  keeps_stack p (range_parse (parseElement decoder_Bytes) children p).
Proof.
  induction children as [|c cs IH]; intros p Hall; cbn [range_parse].
  { by apply keeps_stack_Ret. }
  inversion Hall as [|? ? Hc Hcs]; subst.
  specialize (Hc p). destruct (parseElement decoder_Bytes c p) as [p1| |];
    cbn [mbind run_bind]; [|exact Hc|exact Hc].
  destruct Hc as [Hs Ha]. specialize (IH p1 Hcs).
  unfold keeps_stack in *.
  destruct (range_parse _ cs p1) as [p2| |]; [|tauto|tauto].
  destruct IH as [Hs2 Ha2]. split; [congruence|tauto].
Qed.

Lemma pop_pushed {A} (s : list A) (x : A) :
  index (s ++ [x]) (len (s ++ [x]) - 1) = Some x /\
  take (length (s ++ [x]) - 1) (s ++ [x]) = s.
Proof.
  unfold index, len. rewrite length_app. cbn [length].
  destruct (Z.ltb_spec (Z.of_nat (length s + 1) - 1) 0); [lia|].
  replace (Z.to_nat (Z.of_nat (length s + 1) - 1)) with (length s + 0)%nat by lia.
  rewrite lookup_app_r by lia. replace (length s + 0 - length s)%nat with 0%nat by lia.
  split; [done|].
  replace (length s + 1 - 1)%nat with (length s) by lia.
  by rewrite take_app_length.
Qed.

(** [parseGroup] leaves the saved states as it found them; after a group
    whose children it walked the current state is the fresh empty one; and
    it panics only from a nil current map under a stack that is not empty,
    which no walk started by [Parse] meets. *)
Lemma parseGroup_with_keeps children p :
  Forall (fun item => forall q, keeps_stack q (parseElement decoder_Bytes item q))
         children ->
  match parseGroup_with (parseElement decoder_Bytes) children p with
  | Ret p' =>
      groupsInitialStates p' = groupsInitialStates p /\
      (allocated p -> allocated p') /\
      (walked children = true -> groupCurrentState p' = NewRtfState)
  | GoPanic => ~ allocated p /\ groupsInitialStates p <> []
  | OutOfFuel => False
  end.
Proof.
  intros Hall. unfold parseGroup_with, walked.
  match goal with |- context [match ?e with pair _ _ => _ end] =>
    destruct e as [[isTag isStart] p0] eqn:Hpre end.
  assert (H0 : groupsInitialStates p0 = groupsInitialStates p /\
               groupCurrentState p0 = groupCurrentState p).
  { repeat case_match; injection Hpre as <- <- <-; split; reflexivity. }
  clear Hpre.
  set (p1 := if isTag then _ else p0).
  assert (H1 : groupsInitialStates p1 = groupsInitialStates p /\
               groupCurrentState p1 = groupCurrentState p).
  { subst p1. by destruct isTag. }
  clearbody p1. clear H0 p0. destruct H1 as [H1 H1c].
  assert (Hfin : forall q : rtfHtmlEncapsulatedInterpreter,
            groupsInitialStates
              (if isTag then
                 let q' := with_insideHtmlTagGroup (insideHtmlTagGroup q - 1) q in
                 if insideHtmlTagGroup q' <? 0 then with_insideHtmlTagGroup 0 q' else q'
               else q) = groupsInitialStates q /\
            groupCurrentState
              (if isTag then
                 let q' := with_insideHtmlTagGroup (insideHtmlTagGroup q - 1) q in
                 if insideHtmlTagGroup q' <? 0 then with_insideHtmlTagGroup 0 q' else q'
               else q) = groupCurrentState q).
  { intros q. destruct isTag; [|done]. cbv zeta. by case_match. }
  unfold allocated.
  destruct (IsFontTable children).
  { cbn [mbind run_bind].
    rewrite (proj1 (Hfin _)), (proj2 (Hfin _)).
    destruct (parseFontTableGroup_stack children p1) as [-> ->].
    rewrite H1, H1c. split; [done|]. split; [done|discriminate]. }
  destruct (IsColorTable children).
  { cbn [mbind run_bind].
    rewrite (proj1 (Hfin _)), (proj2 (Hfin _)).
    destruct (parseColorTableGroup_stack children p1) as [-> ->].
    rewrite H1, H1c. split; [done|]. split; [done|discriminate]. }
  destruct (_ || _).
  { cbn [mbind run_bind].
    rewrite (proj1 (Hfin _)), (proj2 (Hfin _)), H1, H1c.
    split; [done|]. split; [done|discriminate]. }
  cbv zeta.
  set (p2 := if len (groupsInitialStates p1) =? 0 then _ else p1).
  assert (H2 : groupsInitialStates p2 = groupsInitialStates p).
  { subst p2. rewrite <- H1. by destruct (_ =? _). }
  assert (H2a : allocated p2 \/ (~ allocated p /\ groupsInitialStates p <> [])).
  { subst p2. unfold allocated, len. rewrite <- H1, <- H1c.
    destruct (groupsInitialStates p1) eqn:Hs; cbn.
    - by left.
    - destruct (Z.eqb_spec (Z.of_nat (S (length l))) 0); [lia|].
      destruct (states (groupCurrentState p1)); [by left|right; split; [|done]].
      intros H; by apply H. }
  clearbody p2.
  match goal with |- context [range_parse _ _ ?q] =>
    pose proof (range_parse_keeps children q Hall) as Hr end.
  unfold keeps_stack in Hr.
  destruct (range_parse _ _ _) as [p3| |]; cbn [mbind run_bind]; [| |done].
  2:{ unfold allocated in *. cbn in Hr. destruct H2a as [?|?]; tauto. }
  destruct Hr as [H3 _].
  cbn [groupsInitialStates with_groupsInitialStates] in H3. rewrite H3.
  destruct (pop_pushed (groupsInitialStates p2) (copy (groupCurrentState p2)))
    as [-> Htake].
  cbn [mbind run_bind].
  rewrite (proj1 (Hfin _)), (proj2 (Hfin _)).
  destruct isStart; cbn; rewrite ?H3, ?Htake, ?copy_empty, ?H2;
    (split; [done|]); (split; [discriminate|done]).
Qed.

(** The walk of any tree, from any interpreter, keeps the saved states. *)
Lemma parseElement_keeps : forall item p,
  keeps_stack p (parseElement decoder_Bytes item p).
Proof.
  induction item as [children IH|word parameter|symbol parameter|text]
    using rtfElement_tree_ind; intros p; cbn [parseElement].
  - pose proof (parseGroup_with_keeps children p IH) as H. unfold keeps_stack.
    destruct (parseGroup_with _ _ _); tauto.
  - apply parseControlWord_keeps.
  - apply parseControlSymbol_keeps.
  - apply parseText_keeps.
Qed.

(** From an allocated current map, or with no state saved yet, the walk
    ends without a panic. *)
Lemma parseElement_stack item p :
  allocated p ->
  exists p', parseElement decoder_Bytes item p = Ret p' /\
             groupsInitialStates p' = groupsInitialStates p /\ allocated p'.
Proof.
  intros Ha. pose proof (parseElement_keeps item p) as H. unfold keeps_stack in H.
  destruct (parseElement _ _ _) as [p'| |]; [|tauto..].
  exists p'. split; [done|]. tauto.
Qed.

Lemma parseGroup_walked children p :
  allocated p \/ groupsInitialStates p = [] ->
  exists p', parseGroup decoder_Bytes children p = Ret p' /\
             groupsInitialStates p' = groupsInitialStates p /\
             (walked children = true -> groupCurrentState p' = NewRtfState).
Proof.
  intros Ha.
  assert (Hall : Forall (fun item => forall q,
            keeps_stack q (parseElement decoder_Bytes item q)) children).
  { apply Forall_forall. intros item _. apply parseElement_keeps. }
  pose proof (parseGroup_with_keeps children p Hall) as H.
  unfold parseGroup. destruct (parseGroup_with _ _ _) as [p'| |]; [|tauto..].
  exists p'. split; [done|]. tauto.
Qed.
End InterpFacts.


(* ===================================================================== *)
(** ** The claims on the tokenizer and the interpreter *)
(* ===================================================================== *)

Section TokenClaims.
Import Tree Bufio Structure Interp.

(** *** Encapsulation detection *)

(** With at least one child and twelve passes allowed, the test ends and
    says whether the word occurs anywhere among the children of the root. *)
Lemma range_children_spec word children : forall idx,
  range_children word children idx =
    if existsb (is_control_word word) children then None
    else Some (idx + len children).
Proof.
  induction children as [|c cs IH]; intros idx; cbn [range_children existsb].
  - unfold len. cbn. f_equal. lia.
  - unfold len in *. destruct c as [g|w v|s v|t]; cbn [is_control_word orb];
      try (rewrite IH; destruct (existsb _ cs); [done|f_equal; cbn [length]; lia]).
    destruct (String.eqb w word); [done|]. cbn [orb].
    rewrite IH; destruct (existsb _ cs); [done|f_equal; cbn [length]; lia].
Qed.

Lemma encapsulated_loop_scans_all word children fuel : forall idx,
  children <> [] -> 0 <= idx -> (11 - Z.to_nat idx < fuel)%nat ->
  encapsulated_loop fuel word children idx
  = Ret (existsb (is_control_word word) children).
Proof.
  induction fuel as [|fuel IH]; intros idx Hne Hidx Hf; [lia|].
  cbn [encapsulated_loop]. rewrite range_children_spec.
  destruct (existsb _ children) eqn:Hex; [done|].
  assert (1 <= len children).
  { unfold len. destruct children; [done|]. cbn [length]. lia. }
  destruct (Z.gtb_spec (idx + len children) 10); [done|].
  rewrite IH; [first [done | by rewrite Hex]|done|lia|lia].
Qed.

(** With no child under the root, [idx] stays 0 and no pass ends the loop. *)
Lemma empty_root_never_decides o :
  Root o = Some [] ->
  forall fuel, IsHtmlEncapsulated fuel o = OutOfFuel /\
               IsTextEncapsulated fuel o = OutOfFuel /\
               forall decoder_Bytes, HtmlParse decoder_Bytes fuel o = OutOfFuel.
Proof.
  intros Hroot fuel.
  assert (H : forall word, encapsulated_loop fuel word [] 0 = OutOfFuel).
  { intros word. induction fuel as [|fuel IH]; [done|]. exact IH. }
  unfold HtmlParse, IsHtmlEncapsulated, IsTextEncapsulated. rewrite Hroot, !H.
  auto.
Qed.

(** C2, evaluated.  On the document whose root has no child the test never
    ends, however many passes it is allowed, and neither does the HTML
    conversion that starts with it; and on a document whose [\fromhtml] (or
    [\fromtext]) is the twelfth child of the root, absent from the first
    ten, it answers true in its first pass. *)
Theorem encapsulation_test_diverges_and_overreads :
  (exists o, ParseBytes doc_empty_root = Ret o /\ Root o = Some [] /\
     forall fuel, IsHtmlEncapsulated fuel o = OutOfFuel /\
                  IsTextEncapsulated fuel o = OutOfFuel /\
                  forall decoder_Bytes, HtmlParse decoder_Bytes fuel o = OutOfFuel) /\
  (exists o children, ParseBytes doc_late_fromhtml = Ret o /\
     Root o = Some children /\
     existsb (is_control_word "fromhtml") (take 10 children) = false /\
     IsHtmlEncapsulated 1 o = Ret true) /\
  (exists o children, ParseBytes doc_late_fromtext = Ret o /\
     Root o = Some children /\
     existsb (is_control_word "fromtext") (take 10 children) = false /\
     IsTextEncapsulated 1 o = Ret true).
Proof.
  split; [|split].
  - eexists. split; [vm_compute; reflexivity|]. split; [reflexivity|].
    by apply empty_root_never_decides.
  - eexists _, _. split; [vm_compute; reflexivity|].
    split; [reflexivity|]. split; vm_compute; reflexivity.
  - eexists _, _. split; [vm_compute; reflexivity|].
    split; [reflexivity|]. split; vm_compute; reflexivity.
Qed.

(** *** The skip that follows a [\u] *)

(** C5, evaluated.  With [\uc0] in force the loop still takes one unit: of
    the text XY only Y is left.  And a control word that follows a [\u]
    loses its backslash alone: the letters of [\par] come out as text. *)
Theorem u_skip_takes_one_unit_too_many_and_splits_words :
  (exists o, ParseBytes doc_uc0 = Ret o /\
     Root o = Some [rtfControlWord "rtf" "1"; rtfControlWord "uc" "0";
                    rtfControlWord "u" "233"; rtfText "Y"]) /\
  skip_loop 4 (NewReader "XY}") 0 = Some (mkReader None "Y}") /\
  (exists o, ParseBytes doc_u_then_par = Ret o /\
     Root o = Some [rtfControlWord "rtf" "1"; rtfControlWord "u" "233";
                    rtfText "par X"]) /\
  skip_loop 8 (NewReader "\par X}") 1 = Some (mkReader None "par X}").
Proof.
  split; [eexists; split; vm_compute; reflexivity|].
  split; [vm_compute; reflexivity|].
  split; [eexists; split; vm_compute; reflexivity|].
  vm_compute; reflexivity.
Qed.

(** *** The parameter of [\'] *)

(** C10, evaluated.  After [\'] the two letters zz, which are not digits of
    base 16, are taken as the parameter.  (With one digit and the end of the
    input the token has the one-digit parameter.) *)
Theorem quote_takes_any_letter :
  Utils.is_hexadecimal "z" = false /\
  Utils.ByteIsHexDigit "z" = true /\
  (exists o, ParseBytes doc_quote_zz = Ret o /\
     Root o = Some [rtfControlSymbol "'" "zz"]) /\
  (exists o, ParseBytes doc_quote_one_digit = Ret o /\
     Root o = Some [rtfControlSymbol "'" "e"]).
Proof.
  split; [reflexivity|]. split; [reflexivity|].
  split; eexists; split; vm_compute; reflexivity.
Qed.

(** The part of C10 that holds: at most two bytes become the parameter, and
    [ByteIsHexDigit] accepted each. *)
Lemma quote_parameter_at_most_two o o' children parents rest :
  buf (reader o) = String APOSTROPHE rest ->
  path o = children :: parents ->
  Structure.parseControlSymbol o = Ret o' ->
  exists parameter,
    path o' = (children ++ [rtfControlSymbol "'" parameter])%list :: parents /\
    (String.length parameter <= 2)%nat /\
    buf (reader o') = drop_string (String.length parameter) rest /\
    parameter = take_string (String.length parameter) rest /\
    forallb Utils.ByteIsHexDigit (list_ascii_of_string parameter) = true.
Proof.
  intros Hb Hp. unfold Structure.parseControlSymbol, ReadByte. rewrite Hb.
  cbv beta iota. change (is_eol APOSTROPHE) with false. cbv iota.
  rewrite (Ascii.eqb_refl APOSTROPHE). unfold Peek at 1. cbn [buf]. cbv beta iota.
  unfold addChild. cbn [path with_reader]. rewrite Hp.
  destruct rest as [|c1 rest1]; cbn [take_string String.length Nat.ltb Nat.leb negb andb first_byte].
  { intros [= <-]. exists EmptyString. cbn. auto. }
  destruct (Utils.ByteIsHexDigit c1) eqn:H1.
  2:{ intros [= <-]. exists EmptyString. cbn. auto. }
  unfold ReadByte, Peek. cbn [buf fst]. cbv beta iota.
  destruct rest1 as [|c2 rest2]; cbn [take_string String.length Nat.ltb Nat.leb negb andb first_byte].
  { intros [= <-]. exists (String c1 EmptyString). cbn. rewrite H1. auto. }
  destruct (Utils.ByteIsHexDigit c2) eqn:H2.
  - intros [= <-]. exists (String c1 (String c2 EmptyString)). cbn.
    rewrite H1, H2. auto.
  - intros [= <-]. exists (String c1 EmptyString). cbn. rewrite H1. auto.
Qed.

(** *** The stacks *)

(** C6 as stated fails: after the balanced document [doc_balanced] the [uc]
    stack holds no frame, not one. *)
Lemma uc_stack_ends_empty_not_one :
  exists o, ParseBytes doc_balanced = Ret o /\
            currentGroup_is_nil o = true /\ length (uc o) <> 1%nat.
Proof. eexists. split; [vm_compute; reflexivity|]. split; [reflexivity|]. cbn. lia. Qed.

Lemma startGroup_pushes_one o o' :
  startGroup o = Ret o' -> length (uc o') = S (length (uc o)).
Proof.
  unfold startGroup. destruct (Root_is_nil o).
  - intros [= <-]. cbn. rewrite length_app. cbn. lia.
  - destruct (path o); [discriminate|]. destruct (index _ _); [|discriminate].
    intros [= <-]. cbn. rewrite length_app. cbn. lia.
Qed.

Lemma endGroup_pops_one o o' :
  endGroup o = Ret o' -> length (uc o') = Nat.pred (length (uc o)).
Proof.
  unfold endGroup. destruct (path o) as [|g parents]; [discriminate|].
  assert (H : length (if 0 <? len (uc o) then take (length (uc o) - 1) (uc o) else uc o)
              = Nat.pred (length (uc o))).
  { unfold len. destruct (Z.ltb_spec 0 (Z.of_nat (length (uc o)))).
    - rewrite length_take. lia.
    - lia. }
  destruct parents; intros [= <-]; exact H.
Qed.

(** C6, amended.  While a document is tokenized the [uc] stack holds one
    frame for each group that is open: the first frame is pushed by the
    root group itself, every group entry pushes one and every group exit
    pops one; so once every group is closed the stack is empty.  The walk
    of the interpreter ends, for any tree, with the stack of saved states
    as it found it, so [Parse] on a fresh interpreter ends, without a
    panic, with that stack empty. *)
Theorem stacks_end_empty (decoder_Bytes : Utils.Decoder -> string -> string)
    (content : string) (o : RtfStructure) :
  ParseBytes content = Ret o ->
  length (uc o) = length (path o) /\
  (currentGroup_is_nil o = true -> uc o = []) /\
  (forall o1 o2, startGroup o1 = Ret o2 -> length (uc o2) = S (length (uc o1))) /\
  (forall o1 o2, endGroup o1 = Ret o2 -> length (uc o2) = Nat.pred (length (uc o1))) /\
  (forall item p p', parseElement decoder_Bytes item p = Ret p' ->
      groupsInitialStates p' = groupsInitialStates p) /\
  (Root o <> None ->
   exists p' res, Parse decoder_Bytes o fresh = Ret (p', res) /\
                  groupsInitialStates p' = []).
Proof.
  intros Hparse. pose proof (ParseBytes_returns content) as Hfm.
  rewrite Hparse in Hfm. unfold frames_match in Hfm.
  split; [exact Hfm|]. split.
  { unfold currentGroup_is_nil. destruct (path o); [|discriminate].
    intros _. by destruct (uc o). }
  split; [apply startGroup_pushes_one|]. split; [apply endGroup_pops_one|].
  split.
  { intros item p p' H. pose proof (parseElement_keeps decoder_Bytes item p) as Hk.
    rewrite H in Hk. apply Hk. }
  intros Hroot. unfold Parse, IsValid.
  destruct (Root o) as [children|]; [|done].
  set (p0 := with_insideHtmlTagGroup 0 (with_content EmptyString fresh)).
  assert (Hwalk : exists p', parseElement decoder_Bytes (rtfGroup children) p0 = Ret p' /\
                            groupsInitialStates p' = []).
  { destruct (parseGroup_walked decoder_Bytes children p0) as (p' & H1 & H2 & _);
      [by right|]. exists p'. split; [exact H1|exact H2]. }
  destruct Hwalk as (p' & Hp & Hs).
  destruct children as [|[g|w v|sy v|t] rest]; cbn [mbind run_bind negb].
  1,2,4,5: by eexists _, _.
  destruct (_ && _); cbn [negb].
  - rewrite Hp. cbn [mbind run_bind]. by eexists _, _.
  - by eexists _, _.
Qed.

(** The theorem at [doc_balanced]. *)
Lemma stacks_end_empty_witness :
  exists o, ParseBytes doc_balanced = Ret o /\ uc o = [] /\
    exists p', Parse (fun _ s => s) o fresh = Ret (p', Some "xy") /\
               groupsInitialStates p' = [].
Proof.
  eexists. split; [vm_compute; reflexivity|].
  match goal with |- uc ?o = [] /\ _ =>
    destruct (stacks_end_empty (fun _ s => s) doc_balanced o)
      as (_ & Huc & _ & _ & _ & Hst); [vm_compute; reflexivity|] end.
  split; [apply Huc; reflexivity|].
  destruct Hst as (p' & res & Hp & Hs); [discriminate|].
  exists p'. split; [|exact Hs].
  rewrite Hp. do 2 f_equal.
  vm_compute in Hp. by injection Hp as _ <-.
Defined.
End TokenClaims.


Section InterpClaims.
Import Tree Structure Interp.

(** *** The state on group exit *)

(** C1, evaluated.  Inside a group the state holds font 1; a nested group
    that holds one text run is walked; after it the state is the empty one,
    not the state that was in effect when the group was entered.  In a
    whole document: text that follows a nested group is written although
    [\htmlrtf1] was in force when that group was entered. *)
Theorem group_exit_leaves_empty_state
    (decoder_Bytes : Utils.Decoder -> string -> string) :
  lookup_state (groupCurrentState inside_with_font_1) "f" = Some "1" /\
  (exists p', parseGroup decoder_Bytes [rtfText "x"] inside_with_font_1 = Ret p' /\
     groupCurrentState p' = NewRtfState /\
     lookup_state (groupCurrentState p') "f" = None /\
     groupCurrentState p' <> groupCurrentState inside_with_font_1) /\
  (exists o p', ParseBytes doc_nested_after_htmlrtf = Ret o /\
     Parse decoder_Bytes o fresh = Ret (p', Some "LEAK") /\
     HtmlParse decoder_Bytes 1 o = Ret (Some (p', Some "LEAK"))).
Proof.
  split; [vm_compute; reflexivity|]. split.
  - destruct (parseGroup_walked decoder_Bytes [rtfText "x"] inside_with_font_1)
      as (p' & Hp & _ & Hcur); [by left|].
    exists p'. split; [exact Hp|]. specialize (Hcur eq_refl).
    split; [exact Hcur|]. rewrite Hcur. split; [reflexivity|].
    intros Heq. apply (f_equal (fun s => lookup_state s "f")) in Heq.
    vm_compute in Heq. discriminate.
  - eexists _, _. split; [vm_compute; reflexivity|].
    split; vm_compute; reflexivity.
Qed.

(** What the walk does at every group it walks, whatever the state at its
    entry: it leaves the empty state. *)
Lemma walked_group_leaves_empty_state
    (decoder_Bytes : Utils.Decoder -> string -> string) children p :
  walked children = true -> allocated p ->
  exists p', parseGroup decoder_Bytes children p = Ret p' /\
             groupCurrentState p' = NewRtfState.
Proof.
  intros Hw Ha.
  destruct (parseGroup_walked decoder_Bytes children p) as (p' & H1 & _ & H2);
    [by left|]. eauto.
Qed.

(** *** The state words *)

Lemma eta_state p m :
  states (groupCurrentState p) = Some m -> with_current_map m p = p.
Proof.
  destruct p as [? ? ? ? ? ? ? ? [?] ? ?]. cbn. by intros ->.
Qed.

Lemma current_map_Some p m :
  states (groupCurrentState p) = Some m -> current_map p = m.
Proof. unfold current_map. by intros ->. Qed.

Lemma htmlrtf_on_lookup p :
  htmlrtf_on p = true <->
  exists m, states (groupCurrentState p) = Some m /\ m !! "htmlrtf" = Some "1".
Proof.
  unfold htmlrtf_on, stateExists, stateValue, lookup_state.
  destruct (states (groupCurrentState p)) as [m|].
  - destruct (m !! "htmlrtf") as [v|] eqn:Hv; cbn [andb].
    + destruct (String.eqb_spec v "1") as [->|Hne]; split.
      * eauto.
      * done.
      * discriminate.
      * intros (m' & [= <-] & Hm). congruence.
    + split; [discriminate|]. intros (m' & [= <-] & Hm). congruence.
  - cbn. split; [discriminate|]. intros (m' & H & _). discriminate.
Qed.

(** C3 as stated fails: [\b] without a parameter, inside a first group,
    outside any htmltag group and with no suppression, leaves the
    interpreter as it is, with no entry for b in the state. *)
Lemma bold_is_not_recorded :
  insideHtmlTagGroup inside_first_group = 0 /\
  htmlrtf_on inside_first_group = false /\
  parseControlWord "b" EmptyString inside_first_group = Ret inside_first_group /\
  lookup_state (groupCurrentState inside_first_group) "b" <> Some "1".
Proof.
  split; [reflexivity|]. split; [reflexivity|]. split; [reflexivity|].
  vm_compute. discriminate.
Qed.

(** C3, amended.  Outside an htmltag group: [\f] and [\fs] store their
    parameter string under their own name in the current state ([\fs] when
    suppression is off, [\f] always); the words [\b], [\i], [\ul],
    [\strike], [\super], [\v], [\cf], [\cb], [\chcfpat], [\chcbpat] and
    [\highlight] leave the interpreter as it is.  The flag rule, parameter 0
    gives 0 and any other parameter, the absent one included, gives 1, is
    the rule of [updateState] for the flag words, and the interpreter calls
    it for [\htmlrtf] alone. *)
Theorem state_words_outside_htmltag
    (p : rtfHtmlEncapsulatedInterpreter) (m : gmap string string)
    (word parameter : string) :
  insideHtmlTagGroup p <= 0 ->
  states (groupCurrentState p) = Some m ->
  (word = "f" \/ (word = "fs" /\ htmlrtf_on p = false) ->
     parseControlWord word parameter p
     = Ret (with_current_map (<[word := parameter]> m) p)) /\
  (In word style_words -> parseControlWord word parameter p = Ret p) /\
  parseControlWord "htmlrtf" parameter p
    = Ret (with_current_map
             (<["htmlrtf" := if String.eqb parameter "0" then "0" else "1"]> m) p) /\
  (In word flag_words ->
     updateState word parameter p
     = Ret (with_current_map
              (<[word := if String.eqb parameter "0" then "0" else "1"]> m) p)).
Proof.
  intros Hin Hm.
  assert (Hout : (insideHtmlTagGroup p >? 0) = false).
  { destruct (Z.gtb_spec (insideHtmlTagGroup p) 0); [lia|done]. }
  split; [|split; [|split]].
  - intros [->|[-> Hoff]]; unfold parseControlWord, updateState;
      rewrite Hout, Hm.
    + reflexivity.
    + rewrite Hoff. reflexivity.
  - intros Hw. unfold style_words in Hw. cbn [In] in Hw.
    unfold parseControlWord. rewrite Hout.
    destruct (htmlrtf_on p);
      repeat (destruct Hw as [<-|Hw]; [reflexivity|]); contradiction.
  - unfold parseControlWord, updateState. rewrite Hm. reflexivity.
  - intros Hw. unfold flag_words in Hw. cbn [In] in Hw.
    unfold updateState. rewrite Hm.
    repeat (destruct Hw as [<-|Hw]; [reflexivity|]); contradiction.
Qed.

(** The theorem inside a first group, at [\fs20]. *)
Lemma state_words_outside_htmltag_witness :
  insideHtmlTagGroup inside_first_group <= 0 /\
  states (groupCurrentState inside_first_group) = Some ∅ /\
  parseControlWord "fs" "20" inside_first_group
  = Ret (with_current_map {["fs" := "20"]} inside_first_group).
Proof.
  split; [vm_compute; discriminate|]. split; [reflexivity|].
  destruct (state_words_outside_htmltag inside_first_group ∅ "fs" "20") as [H _];
    [vm_compute; discriminate|reflexivity|].
  rewrite H; [|right; split; reflexivity]. reflexivity.
Defined.

(** *** Suppression by [\htmlrtf] *)

Lemma parseControlWord_htmlrtf parameter p m :
  states (groupCurrentState p) = Some m ->
  parseControlWord "htmlrtf" parameter p =
  Ret (with_current_map
         (<["htmlrtf" := if String.eqb parameter "0" then "0" else "1"]> m) p).
Proof.
  intros Hm. unfold parseControlWord, updateState. rewrite Hm. reflexivity.
Qed.

(** One suppressed token: nothing changes but, for [\fN], the font entry. *)
Lemma suppressed_token (decoder_Bytes : Utils.Decoder -> string -> string)
    item p :
  htmlrtf_on p = true -> insideHtmlTagGroup p <= 0 ->
  is_token item = true -> is_htmlrtf0 item = false ->
  parseElement decoder_Bytes item p =
  Ret (with_current_map (track_font (current_map p) item) p).
Proof.
  intros Hon Hin Htok Hnot0.
  assert (Hout : (insideHtmlTagGroup p >? 0) = false).
  { destruct (Z.gtb_spec (insideHtmlTagGroup p) 0); [lia|done]. }
  destruct (proj1 (htmlrtf_on_lookup p) Hon) as (m & Hm & Hlk).
  rewrite (current_map_Some p m Hm).
  destruct item as [children|word parameter|symbol parameter|text];
    [discriminate| | |]; cbn [parseElement track_font].
  - destruct (String.eqb_spec word "htmlrtf") as [->|Hne1].
    + rewrite (parseControlWord_htmlrtf parameter p m Hm).
      assert (Hp : String.eqb parameter "0" = false).
      { unfold is_htmlrtf0 in Hnot0.
        by rewrite (String.eqb_refl "htmlrtf") in Hnot0. }
      rewrite Hp. change (String.eqb "htmlrtf" "f") with false. cbv iota.
      by rewrite insert_id.
    + destruct (String.eqb_spec word "f") as [->|Hne2].
      * unfold parseControlWord, updateState. rewrite Hout, Hm. reflexivity.
      * unfold parseControlWord.
        destruct (String.eqb_spec word "htmlrtf"); [done|]. rewrite Hout.
        destruct (String.eqb_spec word "f"); [done|]. rewrite Hon. cbn [negb andb].
        by rewrite (eta_state p m Hm).
  - unfold parseControlSymbol. rewrite Hon. by rewrite (eta_state p m Hm).
  - unfold parseText. rewrite Hon. by rewrite (eta_state p m Hm).
Qed.

Lemma track_font_other m item word :
  word <> "f" -> track_font m item !! word = m !! word.
Proof.
  intros Hw. destruct item as [| w v | |]; cbn [track_font]; try done.
  destruct (String.eqb w "f"); [|done]. by rewrite lookup_insert_ne.
Qed.

Lemma track_fonts_other items : forall m word,
  word <> "f" -> fold_left track_font items m !! word = m !! word.
Proof.
  induction items as [|it its IH]; intros m word Hw; cbn [fold_left]; [done|].
  rewrite IH by done. by apply track_font_other.
Qed.

(** The part of C4 that holds.  While the htmlrtf state is ON, outside an
    htmltag group, the text runs, control words and control symbols that
    follow, up to a [\htmlrtf0] or a nested group, append nothing to the
    output and change nothing in the interpreter, but for [\fN], which
    records its font; the state stays ON.  The state is ON exactly after a
    [\htmlrtf] whose parameter is not 0, and [\htmlrtf0] turns it off. *)
Lemma htmlrtf_suppresses_tokens
    (decoder_Bytes : Utils.Decoder -> string -> string)
    (items : list rtfElement) (p : rtfHtmlEncapsulatedInterpreter) :
  htmlrtf_on p = true -> insideHtmlTagGroup p <= 0 ->
  Forall (fun item => is_token item = true /\ is_htmlrtf0 item = false) items ->
  let p' := with_current_map (fold_left track_font items (current_map p)) p in
  range_parse (parseElement decoder_Bytes) items p = Ret p' /\
  content p' = content p /\
  htmlrtf_on p' = true /\
  (forall word, word <> "f" ->
     lookup_state (groupCurrentState p') word
     = lookup_state (groupCurrentState p) word) /\
  (forall q parameter, allocated q ->
     exists q', parseControlWord "htmlrtf" parameter q = Ret q' /\
                htmlrtf_on q' = negb (String.eqb parameter "0")) /\
  (exists q', parseControlWord "htmlrtf" "0" p' = Ret q' /\
              content q' = content p /\ htmlrtf_on q' = false).
Proof.
  intros Hon Hin Hall. cbv zeta.
  assert (Hrun : forall its q, htmlrtf_on q = true -> insideHtmlTagGroup q <= 0 ->
            Forall (fun item => is_token item = true /\ is_htmlrtf0 item = false) its ->
            range_parse (parseElement decoder_Bytes) its q =
            Ret (with_current_map (fold_left track_font its (current_map q)) q)).
  { induction its as [|it its IH]; intros q Hq Hi Hf; cbn [range_parse fold_left].
    - destruct (proj1 (htmlrtf_on_lookup q) Hq) as (m & Hm & _).
      by rewrite (current_map_Some q m Hm), (eta_state q m Hm).
    - inversion Hf as [|? ? [Ht Hn] Hf']; subst.
      rewrite (suppressed_token decoder_Bytes it q Hq Hi Ht Hn).
      cbn [mbind run_bind]. rewrite IH; [reflexivity| |exact Hi|exact Hf'].
      apply htmlrtf_on_lookup. eexists. split; [reflexivity|].
      rewrite track_font_other by done.
      destruct (proj1 (htmlrtf_on_lookup q) Hq) as (m & Hm & Hlk).
      by rewrite (current_map_Some q m Hm). }
  destruct (proj1 (htmlrtf_on_lookup p) Hon) as (m & Hm & Hlk).
  pose proof (current_map_Some p m Hm) as Hcm.
  assert (Hq0 : forall q parameter mq, states (groupCurrentState q) = Some mq ->
            exists q', parseControlWord "htmlrtf" parameter q = Ret q' /\
                       content q' = content q /\
                       htmlrtf_on q' = negb (String.eqb parameter "0")).
  { intros q parameter mq Hmq. eexists.
    split; [apply (parseControlWord_htmlrtf parameter q mq Hmq)|].
    split; [reflexivity|].
    unfold htmlrtf_on, stateExists, stateValue, lookup_state, with_current_map.
    cbn [groupCurrentState with_groupCurrentState states].
    rewrite lookup_insert_eq. cbn [andb].
    by destruct (String.eqb parameter "0"). }
  split; [by apply Hrun|]. split; [reflexivity|].
  split.
  { apply htmlrtf_on_lookup. eexists. split; [reflexivity|].
    rewrite track_fonts_other by done. by rewrite Hcm. }
  split.
  { intros word Hw. unfold lookup_state, with_current_map.
    cbn [groupCurrentState with_groupCurrentState states].
    rewrite track_fonts_other by done. by rewrite Hcm, Hm. }
  split.
  { intros q parameter Hq. unfold allocated in Hq.
    destruct (states (groupCurrentState q)) as [mq|] eqn:Hmq; [|done].
    destruct (Hq0 q parameter mq Hmq) as (q' & H1 & _ & H2). eauto. }
  match goal with |- context [parseControlWord _ _ ?q] =>
    destruct (Hq0 q "0" _ eq_refl) as (q' & H1 & H2 & H3) end.
  exists q'. split; [exact H1|]. split; [exact H2|exact H3].
Qed.

(** The lemma inside a first group, after [\htmlrtf1]: a text run,
    [\par], [\'e9], [\f3], a second [\htmlrtf1] and [\b] leave the output
    empty and record font 3. *)
Lemma htmlrtf_suppresses_tokens_example :
  parseControlWord "htmlrtf" "1" inside_first_group = Ret inside_htmlrtf_on /\
  htmlrtf_on inside_htmlrtf_on = true /\
  exists p',
    range_parse (parseElement (fun _ s => s))
      [rtfText "hidden"; rtfControlWord "par" EmptyString;
       rtfControlSymbol "'" "e9"; rtfControlWord "f" "3";
       rtfControlWord "htmlrtf" "1"; rtfControlWord "b" EmptyString]
      inside_htmlrtf_on = Ret p' /\
    content p' = EmptyString /\
    lookup_state (groupCurrentState p') "f" = Some "3".
Proof.
  split; [reflexivity|]. split; [reflexivity|].
  eexists. split.
  - apply (htmlrtf_suppresses_tokens (fun _ s => s)).
    + reflexivity.
    + vm_compute. discriminate.
    + repeat constructor.
  - split; vm_compute; reflexivity.
Qed.

(** C4, evaluated.  With [\htmlrtf1] in force, outside the htmltag groups, a
    nested group is walked: the text in it is suppressed, but at its exit
    the state is the empty one, so that the suppression is off although no
    [\htmlrtf0] was met and the group in which [\htmlrtf1] stands is still
    open, and the text that follows the nested group is written.  So it is
    after every nested group that is walked; and in a whole document,
    [Parse] returns the text LEAK that follows [\htmlrtf1{x}]. *)
Theorem htmlrtf_lost_after_nested_group
    (decoder_Bytes : Utils.Decoder -> string -> string) :
  htmlrtf_on inside_htmlrtf_on = true /\
  insideHtmlTagGroup inside_htmlrtf_on <= 0 /\
  (exists p1 p2,
     parseElement decoder_Bytes (rtfGroup [rtfText "x"]) inside_htmlrtf_on = Ret p1 /\
     content p1 = content inside_htmlrtf_on /\ htmlrtf_on p1 = false /\
     parseElement decoder_Bytes (rtfText "LEAK") p1 = Ret p2 /\
     content p2 = "LEAK") /\
  (forall children q, walked children = true -> htmlrtf_on q = true ->
     exists q', parseGroup decoder_Bytes children q = Ret q' /\
                htmlrtf_on q' = false /\
                forall text, content (parseText decoder_Bytes text q')
                             = content q'
                               ++ Utils.ConvertToUtf8 decoder_Bytes text (rtfEncoding q')) /\
  (exists o p',
     ParseBytes doc_nested_after_htmlrtf = Ret o /\
     Root o = Some [rtfControlWord "rtf" "1"; rtfControlWord "fromhtml" "1";
                    rtfControlWord "htmlrtf" "1"; rtfGroup [rtfText "x"];
                    rtfText "LEAK"] /\
     HtmlParse decoder_Bytes 1 o = Ret (Some (p', Some "LEAK"))).
Proof.
  split; [reflexivity|]. split; [vm_compute; discriminate|]. split.
  { eexists _, _. split; [vm_compute; reflexivity|].
    split; [reflexivity|]. split; [reflexivity|].
    split; vm_compute; reflexivity. }
  split.
  { intros children q Hw Hon.
    assert (Ha : allocated q).
    { destruct (proj1 (htmlrtf_on_lookup q) Hon) as (m & Hm & _).
      unfold allocated. by rewrite Hm. }
    destruct (walked_group_leaves_empty_state decoder_Bytes children q Hw Ha)
      as (q' & Hq' & Hcur).
    assert (Hoff : htmlrtf_on q' = false) by (unfold htmlrtf_on; by rewrite Hcur).
    exists q'. split; [exact Hq'|]. split; [exact Hoff|].
    intros text. unfold parseText. by rewrite Hoff. }
  eexists _, _. split; [vm_compute; reflexivity|].
  split; vm_compute; reflexivity.
Qed.
End InterpClaims.


(* ===================================================================== *)
(** ** Further properties: decompress.go *)
(* ===================================================================== *)

Section CrtfMore.
Import Crtf.
Close Scope string_scope.

Lemma index_None_range {A} (l : list A) i :
  index l i = None <-> i < 0 \/ len l <= i.
Proof.
  split.
  - intros H. destruct (Z.ltb_spec i 0); [lia|].
    destruct (Z.ltb_spec i (len l)); [|lia].
    destruct (index_in_range l i) as [x Hx]; [lia|congruence].
  - intros H. destruct (index l i) eqn:E; [|done].
    apply index_Some_range in E. lia.
Qed.

(** Four bytes put together as [getU32] does it. *)
Lemma le_bytes_value t0 t1 t2 t3 :
  Z.land
    (Z.lor (Z.lor (Z.lor (Z.land (b2z t0) 0xFF)
                         (Z.shiftl (Z.land (b2z t1) 0xFF) 8))
                  (Z.shiftl (Z.land (b2z t2) 0xFF) 16))
           (Z.shiftl (Z.land (b2z t3) 0xFF) 24)) 0xFFFFFFFF
  = b2z t0 + 2 ^ 8 * b2z t1 + 2 ^ 16 * b2z t2 + 2 ^ 24 * b2z t3.
Proof.
  pose proof (b2z_range t0). pose proof (b2z_range t1).
  pose proof (b2z_range t2). pose proof (b2z_range t3).
  change 0xFF with (Z.ones 8). rewrite !Z.land_ones by lia.
  rewrite !(Z.mod_small _ (2 ^ 8)) by lia.
  rewrite (Z.lor_comm (b2z t0)), (lor_disjoint_add (b2z t1) (b2z t0) 8) by lia.
  rewrite (Z.lor_comm _ (Z.shiftl (b2z t2) 16)), lor_disjoint_add by lia.
  rewrite (Z.lor_comm _ (Z.shiftl (b2z t3) 24)), lor_disjoint_add by lia.
  change 0xFFFFFFFF with (Z.ones 32). rewrite Z.land_ones by lia.
  rewrite Z.mod_small by lia. lia.
Qed.

(** X1. [getU32] reads the four bytes at [offset] as a little-endian
    number, [t0 + 2^8 t1 + 2^16 t2 + 2^24 t3], which lies in [0, 2^32); it
    panics exactly when one of the four positions is outside [buf]. *)
Theorem getU32_little_endian (buf : list byte) (offset : Z) :
  (getU32 buf offset = None <-> offset < 0 \/ len buf < offset + 4) /\
  (forall v, getU32 buf offset = Some v ->
     0 <= v < 2 ^ 32 /\
     exists t0 t1 t2 t3,
       index buf offset = Some t0 /\ index buf (offset + 1) = Some t1 /\
       index buf (offset + 2) = Some t2 /\ index buf (offset + 3) = Some t3 /\
       v = b2z t0 + 2 ^ 8 * b2z t1 + 2 ^ 16 * b2z t2 + 2 ^ 24 * b2z t3).
Proof.
  unfold getU32. split.
  - split.
    + intros H.
      destruct (index buf offset) eqn:E0; simpl in H;
        [|apply index_None_range in E0; lia].
      destruct (index buf (offset + 1)) eqn:E1; simpl in H;
        [|apply index_None_range in E1; lia].
      destruct (index buf (offset + 2)) eqn:E2; simpl in H;
        [|apply index_None_range in E2; lia].
      destruct (index buf (offset + 3)) eqn:E3; simpl in H;
        [discriminate|apply index_None_range in E3; lia].
    + intros H.
      destruct (index buf offset) eqn:E0; simpl; [|done].
      destruct (index buf (offset + 1)) eqn:E1; simpl; [|done].
      destruct (index buf (offset + 2)) eqn:E2; simpl; [|done].
      destruct (index buf (offset + 3)) eqn:E3; simpl; [|done].
      apply index_Some_range in E0, E3. lia.
  - intros v H.
    destruct (index buf offset) as [t0|]; simpl in H; [|discriminate].
    destruct (index buf (offset + 1)) as [t1|]; simpl in H; [|discriminate].
    destruct (index buf (offset + 2)) as [t2|]; simpl in H; [|discriminate].
    destruct (index buf (offset + 3)) as [t3|]; simpl in H; [|discriminate].
    inversion H as [Hv]. clear H. rewrite le_bytes_value.
    pose proof (b2z_range t0). pose proof (b2z_range t1).
    pose proof (b2z_range t2). pose proof (b2z_range t3).
    split; [lia|]. exists t0, t1, t2, t3. repeat split; lia.
Qed.

Lemma lxor_range n a b :
  0 <= n -> 0 <= a < 2 ^ n -> 0 <= b < 2 ^ n -> 0 <= Z.lxor a b < 2 ^ n.
Proof.
  intros Hn Ha Hb.
  assert (H0 : 0 <= Z.lxor a b) by (apply Z.lxor_nonneg; lia).
  split; [done|].
  destruct (Z.eqb_spec (Z.lxor a b) 0) as [->|Hnz]; [lia|].
  assert (0 < n).
  { destruct (Z.eqb_spec n 0) as [->|]; [|lia].
    assert (a = 0) by lia. assert (b = 0) by lia. by subst. }
  apply Z.log2_lt_pow2; [lia|].
  pose proof (Z.log2_lxor a b ltac:(lia) ltac:(lia)) as Hl.
  assert (Z.log2 a < n).
  { destruct (Z.eqb_spec a 0) as [->|]; [simpl; lia|]. apply Z.log2_lt_pow2; lia. }
  assert (Z.log2 b < n).
  { destruct (Z.eqb_spec b 0) as [->|]; [simpl; lia|]. apply Z.log2_lt_pow2; lia. }
  lia.
Qed.

Lemma crc_bit_range c : 0 <= c < 2 ^ 32 -> 0 <= crc_bit c < 2 ^ 32.
Proof.
  intros Hc. unfold crc_bit.
  assert (0 <= Z.shiftr c 1 < 2 ^ 32).
  { rewrite Z.shiftr_div_pow2 by lia. change (2 ^ 1) with 2.
    split; [apply Z.div_pos; lia|]. apply Z.div_lt_upper_bound; lia. }
  destruct (Z.odd c); [|done].
  apply lxor_range; [lia|done|]. unfold POLY. lia.
Qed.

Lemma crc_byte_range crc b : 0 <= crc < 2 ^ 32 -> 0 <= crc_byte crc b < 2 ^ 32.
Proof.
  intros Hc. unfold crc_byte.
  assert (H : 0 <= Z.lxor crc (b2z b) < 2 ^ 32).
  { apply lxor_range; [lia|done|]. pose proof (b2z_range b). lia. }
  revert H. generalize (Z.lxor crc (b2z b)). intros x Hx.
  do 8 (rewrite Nat.iter_succ_r; apply crc_bit_range in Hx). done.
Qed.

Lemma crc_fold_range bs : forall crc,
  0 <= crc < 2 ^ 32 -> 0 <= fold_left crc_byte bs crc < 2 ^ 32.
Proof.
  induction bs as [|b bs IH]; intros crc Hc; [done|].
  simpl. apply IH. by apply crc_byte_range.
Qed.

Lemma crc_for_None count buf : forall i crc,
  crc_for count buf i crc = None <->
  (0 < count)%nat /\ (i < 0 \/ len buf < i + Z.of_nat count).
Proof.
  induction count as [|count IH]; intros i crc.
  - simpl. split; [discriminate|lia].
  - simpl. destruct (index buf i) as [b|] eqn:Hb; simpl.
    + apply index_Some_range in Hb. rewrite IH. lia.
    + apply index_None_range in Hb. split; [lia|done].
Qed.

Lemma crc_for_take count buf : forall k crc,
  (k + count <= length buf)%nat ->
  crc_for count buf (Z.of_nat k) crc
  = Some (fold_left crc_byte (take count (drop k buf)) crc).
Proof.
  induction count as [|count IH]; intros k crc Hk; [done|].
  simpl crc_for. unfold index at 1.
  destruct (Z.ltb_spec (Z.of_nat k) 0); [lia|].
  rewrite Nat2Z.id.
  destruct (lookup_lt_is_Some_2 buf k) as [b Hb]; [lia|].
  rewrite Hb. simpl.
  rewrite (drop_S _ _ _ Hb). simpl.
  replace (Z.of_nat k + 1) with (Z.of_nat (S k)) by lia.
  rewrite IH by lia. by rewrite crc_update_bitwise.
Qed.

(** X2. On [l] bytes of [buf] from [off], all inside [buf],
    the table-driven [calculateCRC32Continue] returns what the bit-by-bit
    CRC with the reflected polynomial 0xEDB88320 gives when started from
    [crc], with no inversion; a 32-bit [crc] gives a 32-bit result. *)
Theorem calculateCRC32Continue_bitwise (buf : list byte) (off l crc : Z) :
  0 <= off -> 0 <= l -> off + l <= len buf ->
  calculateCRC32Continue buf off l crc
  = Some (fold_left crc_byte (take (Z.to_nat l) (drop (Z.to_nat off) buf)) crc) /\
  (0 <= crc < 2 ^ 32 ->
   0 <= fold_left crc_byte (take (Z.to_nat l) (drop (Z.to_nat off) buf)) crc < 2 ^ 32).
Proof.
  intros Hoff Hl Hlen. split; [|apply crc_fold_range].
  unfold calculateCRC32Continue.
  replace (off + l - off) with l by lia.
  rewrite <- (Z2Nat.id off) at 1 by lia.
  apply crc_for_take. unfold len in Hlen. lia.
Qed.

(** The theorem on bytes 1 and 2 of a four-byte buffer. *)
Lemma calculateCRC32Continue_bitwise_witness :
  calculateCRC32Continue [x00; x68; x69; x00] 1 2 0
  = Some (crc_byte (crc_byte 0 x68) x69).
Proof.
  apply (calculateCRC32Continue_bitwise [x00; x68; x69; x00] 1 2 0);
    vm_compute; discriminate.
Defined.

(** X3. For [off] and [l] whose sum is an [int] too, so that
    [end := off + l] does not wrap around, [calculateCRC32Continue] panics
    exactly when it has a byte to read outside [buf]; with [l <= 0] it reads
    nothing and returns [crc] as it is, wherever [off] points. *)
Theorem calculateCRC32Continue_panics_iff (buf : list byte) (off l crc : Z) :
  is_int off -> is_int l -> is_int (off + l) ->
  (calculateCRC32Continue buf off l crc = None <->
   0 < l /\ (off < 0 \/ len buf < off + l)) /\
  (l <= 0 -> calculateCRC32Continue buf off l crc = Some crc).
Proof.
  intros _ _ _. unfold calculateCRC32Continue. split.
  - rewrite crc_for_None. lia.
  - intros Hl. replace (Z.to_nat (off + l - off)) with 0%nat by lia. done.
Qed.

(** The theorem at two bytes: a read that ends one byte behind them, and an
    empty read from an offset before them. *)
Lemma calculateCRC32Continue_panics_iff_witness :
  is_int 1 /\ is_int 2 /\ is_int (-5) /\ is_int 0 /\
  calculateCRC32Continue [x68; x69] 1 2 0 = None /\
  calculateCRC32Continue [x68; x69] (-5) 0 7 = Some 7.
Proof.
  assert (H1 : is_int 1) by (unfold is_int; lia).
  assert (H2 : is_int 2) by (unfold is_int; lia).
  assert (H3 : is_int (1 + 2)) by (unfold is_int; lia).
  assert (H5 : is_int (-5)) by (unfold is_int; lia).
  assert (H0 : is_int 0) by (unfold is_int; lia).
  assert (H50 : is_int (-5 + 0)) by (unfold is_int; lia).
  repeat (split; [assumption|]). split.
  - apply (proj1 (calculateCRC32Continue_panics_iff [x68; x69] 1 2 0 H1 H2 H3)).
    split; [lia|]. right. vm_compute. reflexivity.
  - apply (proj2 (calculateCRC32Continue_panics_iff [x68; x69] (-5) 0 7 H5 H0 H50)).
    lia.
Defined.

Lemma crc_for_app n1 buf : forall n2 i crc,
  crc_for (n1 + n2) buf i crc
  = crc_for n1 buf i crc ≫= crc_for n2 buf (i + Z.of_nat n1).
Proof.
  induction n1 as [|n1 IH]; intros n2 i crc.
  - simpl. by rewrite Z.add_0_r.
  - simpl. destruct (index buf i) as [b|]; simpl; [|done].
    rewrite IH. do 2 f_equal. lia.
Qed.

(** X4. A checksum can be continued: for lengths that are not
    negative and an [off] with [off + l1 + l2] an [int] too, so that no end
    wraps around, the checksum of [l1 + l2] bytes is the checksum of the
    last [l2] bytes continued from the checksum of the first [l1], panics
    included. *)
Theorem calculateCRC32Continue_split (buf : list byte) (off l1 l2 crc : Z) :
  0 <= l1 -> 0 <= l2 -> is_int off -> is_int (off + l1 + l2) ->
  calculateCRC32Continue buf off (l1 + l2) crc
  = calculateCRC32Continue buf off l1 crc
      ≫= calculateCRC32Continue buf (off + l1) l2.
Proof.
  intros H1 H2 _ _. unfold calculateCRC32Continue.
  replace (Z.to_nat (off + (l1 + l2) - off)) with (Z.to_nat l1 + Z.to_nat l2)%nat by lia.
  rewrite crc_for_app.
  replace (off + l1 - off) with l1 by lia.
  replace (off + l1 + l2 - (off + l1)) with l2 by lia.
  by rewrite Z2Nat.id by lia.
Qed.

(** The theorem on "hi" split into "h" and "i". *)
Lemma calculateCRC32Continue_split_witness :
  calculateCRC32Continue [x68; x69] 0 (1 + 1) 0
  = calculateCRC32Continue [x68; x69] 0 1 0
      ≫= calculateCRC32Continue [x68; x69] (0 + 1) 1.
Proof.
  apply (calculateCRC32Continue_split [x68; x69] 0 1 1 0);
    unfold is_int; lia.
Defined.

(** X5. A stream of at least 16 bytes whose size field is
    [len(src) - 4] and whose magic is MELA (0x414c454d) is returned as it
    is, its 16 header bytes included; neither its checksum field nor its
    uncompressed-size field is looked at. *)
Theorem Decompress_uncompressed (src : list byte) :
  16 <= len src ->
  compressedSize src = len src - 4 ->
  magic src = MAGIC_UNCOMPRESSED ->
  Decompress src = Some (Ok src).
Proof.
  intros Hl Hs Hm. unfold Decompress.
  rewrite Decompress_fuel_unfold by done.
  rewrite Hs, Z.eqb_refl, Hm, Z.eqb_refl. done.
Qed.

(** The theorem at [stream_mela]. *)
Lemma Decompress_uncompressed_witness :
  16 <= len stream_mela /\ Decompress stream_mela = Some (Ok stream_mela).
Proof.
  split; [vm_compute; discriminate|].
  apply (Decompress_uncompressed stream_mela); vm_compute;
    first [reflexivity | discriminate].
Defined.

Lemma store_spec {A} (l l' : list A) i x :
  store l i x = Some l' ->
  0 <= i < len l /\ l' = <[Z.to_nat i := x]> l.
Proof.
  unfold store, len.
  destruct (Z.leb_spec 0 i); destruct (Z.ltb_spec i (Z.of_nat (length l)));
    simpl; try discriminate.
  intros [= <-]. split; [lia|done].
Qed.

Lemma drop_replicate_tail (l : list byte) n :
  (n < length l)%nat ->
  drop n l = replicate (length l - n) x00 ->
  drop (S n) l = replicate (length l - S n) x00.
Proof.
  intros Hn H. rewrite <- (Nat.add_1_r n), <- drop_drop, H.
  rewrite drop_replicate. f_equal. lia.
Qed.

(** A store at the write position keeps the shape, one place further. *)
Lemma store_shape size st dst' b in' fc fl :
  dst_shape size st -> store (d_dst st) (d_out st) b = Some dst' ->
  dst_shape size (mkD in' (d_out st + 1) fc fl dst').
Proof.
  intros (Hlen & Hpre & Hout & Hzero) Hs.
  apply store_spec in Hs as [Hi ->]. unfold dst_shape, len in *.
  cbn [d_dst d_out]. rewrite length_insert. split; [done|]. split.
  { rewrite take_insert_ge by lia. done. }
  split; [lia|].
  replace (Z.to_nat (d_out st + 1)) with (S (Z.to_nat (d_out st))) by lia.
  rewrite drop_insert_lt by lia.
  apply drop_replicate_tail; [lia|done].
Qed.

Lemma copy_for_shape size count : forall dst out offset dst' out' in0 fc fl in1 fc1 fl1,
  copy_for count dst out offset = Some (dst', out') ->
  dst_shape size (mkD in0 out fc fl dst) ->
  dst_shape size (mkD in1 out' fc1 fl1 dst').
Proof.
  induction count as [|count IH]; simpl;
    intros dst out offset dst' out' in0 fc fl in1 fc1 fl1 H Hsh.
  - inversion H; subst. exact Hsh.
  - destruct (index dst offset) as [b|]; simpl in H; [|discriminate].
    destruct (store dst out b) as [d1|] eqn:Hs; simpl in H; [|discriminate].
    eapply IH; [exact H|].
    apply (store_shape size (mkD in0 out fc fl dst) d1 b in0 fc fl Hsh Hs).
Qed.

Lemma decodeStep_shape size src st st' :
  decodeStep src st = Next st' -> dst_shape size st -> dst_shape size st'.
Proof.
  unfold decodeStep. intros H Hsh.
  destruct (fetch_flags src st) as [[flags in1]|]; [|discriminate].
  destruct (Z.land flags 1 =? 0).
  - destruct (index src in1) as [b|]; [|discriminate].
    destruct (store _ _ _) as [dst'|] eqn:Hs; [|discriminate].
    inversion H; subst. eapply store_shape; eauto.
  - destruct (index src in1) as [hi|]; [|discriminate].
    destruct (index src (in1 + 1)) as [lo|]; [|discriminate].
    cbv zeta in H. destruct st as [i o fc fl d]. simpl in *.
    destruct (_ >=? _).
    + destruct (_ =? _); [discriminate|].
      destruct (copy_for _ _ _ _) as [[dst' out']|] eqn:Hc; [|discriminate].
      inversion H; subst. eapply copy_for_shape; eauto.
    + destruct (copy_for _ _ _ _) as [[dst' out']|] eqn:Hc; [|discriminate].
      inversion H; subst. eapply copy_for_shape; eauto.
Qed.

Lemma uncompressedSize_nonneg src : 0 <= uncompressedSize src.
Proof.
  unfold uncompressedSize, getU32.
  destruct (index src 4); simpl; [|lia].
  destruct (index src (4 + 1)); simpl; [|lia].
  destruct (index src (4 + 2)); simpl; [|lia].
  destruct (index src (4 + 3)); simpl; [|lia].
  apply Z.land_nonneg. right. lia.
Qed.

Lemma start_shape src : dst_shape (uncompressedSize src) (start src).
Proof.
  pose proof (uncompressedSize_nonneg src) as Hnn.
  unfold dst_shape, start. cbn [d_dst d_out]. unfold initial_dst, len.
  rewrite length_app, length_replicate.
  split; [lia|]. split; [by rewrite take_app_length|]. split; [lia|].
  rewrite Nat2Z.id, drop_app_length. f_equal. lia.
Qed.

Lemma reaches_shape src a b :
  reaches src a b -> forall size, dst_shape size a -> dst_shape size b.
Proof.
  induction 1 as [|a b c Hs Hr IH]; intros size Hsh; [done|].
  apply IH. eapply decodeStep_shape; eauto.
Qed.

(** Bytes returned for the compressed magic are what [dst] holds, the
    preamble dropped, at a self-reference that the loop reached. *)
Lemma Decompress_Ok_sentinel src out :
  magic src = MAGIC_COMPRESSED ->
  Decompress src = Some (Ok out) ->
  exists st, reaches src (start src) st /\ is_sentinel src st /\
             out = drop (length COMPRESSED_RTF_PREBUF) (d_dst st).
Proof.
  intros Hm Hd. unfold Decompress in Hd.
  destruct (Z.ltb_spec (len src) 16) as [Hshort|Hlong].
  { unfold Decompress_fuel in Hd.
    destruct (Z.ltb_spec (len src) 16); [discriminate|lia]. }
  rewrite Decompress_fuel_unfold in Hd by done.
  destruct (negb _); [discriminate|].
  rewrite Hm in Hd. change (MAGIC_COMPRESSED =? MAGIC_UNCOMPRESSED) with false in Hd.
  rewrite Z.eqb_refl in Hd.
  destruct (negb _); [discriminate|].
  destruct (decodeLoop _ _ _) as [[st'|]|] eqn:Hl; [|discriminate..].
  inversion Hd as [Hout]. clear Hd.
  apply decodeLoop_Finished in Hl as (st1 & Hr & Hsen & Hdst & Hlen).
  exists st1. by rewrite <- Hdst.
Qed.

(** X6. Whatever the decoding loop does, it never writes into
    the preamble at the head of [dst] and never moves the write position
    back.  So when [Decompress] returns bytes for the compressed magic and
    the end marker came after [n] decoded bytes, the result is those [n]
    bytes followed by zero bytes up to the announced uncompressed size. *)
Theorem Decompress_zero_padded (src out : list byte) :
  magic src = MAGIC_COMPRESSED ->
  Decompress src = Some (Ok out) ->
  exists st,
    reaches src (start src) st /\ is_sentinel src st /\
    take (length COMPRESSED_RTF_PREBUF) (d_dst st) = COMPRESSED_RTF_PREBUF /\
    let n := Z.to_nat (d_out st - len COMPRESSED_RTF_PREBUF) in
    (n <= length out)%nat /\
    out = take n out ++ replicate (length out - n) x00.
Proof.
  intros Hm Hd.
  destruct (Decompress_Ok_sentinel src out Hm Hd) as (st & Hr & Hsen & ->).
  exists st. split; [done|]. split; [done|].
  pose proof (reaches_shape _ _ _ Hr _ (start_shape src)) as (Hlen & Hpre & Hout & Hz).
  split; [done|]. cbv zeta. unfold len in *.
  rewrite length_drop. split; [lia|].
  rewrite <- (take_drop (Z.to_nat (d_out st - Z.of_nat (length COMPRESSED_RTF_PREBUF)))
                (drop (length COMPRESSED_RTF_PREBUF) (d_dst st))) at 1.
  f_equal. rewrite drop_drop.
  replace (length COMPRESSED_RTF_PREBUF
           + Z.to_nat (d_out st - Z.of_nat (length COMPRESSED_RTF_PREBUF)))%nat
    with (Z.to_nat (d_out st)) by lia.
  rewrite Hz. f_equal. lia.
Qed.

(** The theorem at [stream_short]: one literal, one zero byte. *)
Lemma Decompress_zero_padded_witness :
  magic stream_short = MAGIC_COMPRESSED /\
  Decompress stream_short = Some (Ok [x68; x00]) /\
  exists st,
    reaches stream_short (start stream_short) st /\ is_sentinel stream_short st /\
    take (length COMPRESSED_RTF_PREBUF) (d_dst st) = COMPRESSED_RTF_PREBUF /\
    let n := Z.to_nat (d_out st - len COMPRESSED_RTF_PREBUF) in
    (n <= length [x68; x00])%nat /\
    [x68; x00] = take n [x68; x00] ++ replicate (length [x68; x00] - n) x00.
Proof.
  split; [reflexivity|]. split; [vm_compute; reflexivity|].
  apply (Decompress_zero_padded stream_short [x68; x00]); vm_compute; reflexivity.
Defined.

End CrtfMore.


(** *** Back-references and literals *)

Section CrtfCopy.
Import Crtf.
Close Scope string_scope.

Lemma index_lookup {A} (l : list A) i :
  0 <= i -> index l i = l !! Z.to_nat i.
Proof. intros Hi. unfold index. destruct (Z.ltb_spec i 0); [lia|done]. Qed.

Lemma lookup_take_eq {A} (l l' : list A) n i :
  take n l' = take n l -> (i < n)%nat -> l' !! i = l !! i.
Proof.
  intros H Hi. rewrite <- (lookup_take_lt l' n i), <- (lookup_take_lt l n i) by done.
  by rewrite H.
Qed.

Lemma take_take_small {A} (l : list A) n m :
  (n <= m)%nat -> take n (take m l) = take n l.
Proof. intros H. rewrite take_take. f_equal. lia. Qed.

(** X7. The copy of a back-reference goes byte by byte from
    [offset] to the write position [out], so a reference that runs into the
    bytes it is writing repeats them: afterwards [dst[out+i] = dst[offset+i]]
    for every [i] below the length, [out] has advanced by the length, and no
    byte below the old [out] or from the new [out] on has changed. *)
Theorem copy_for_repeats (count : nat) (dst dst' : list byte) (out offset out' : Z) :
  copy_for count dst out offset = Some (dst', out') ->
  offset < out ->
  out' = out + Z.of_nat count /\
  length dst' = length dst /\
  take (Z.to_nat out) dst' = take (Z.to_nat out) dst /\
  drop (Z.to_nat out') dst' = drop (Z.to_nat out') dst /\
  forall i, 0 <= i < Z.of_nat count ->
    index dst' (out + i) = index dst' (offset + i) /\ index dst' (out + i) <> None.
Proof.
  revert dst out offset.
  induction count as [|count IH]; intros dst out offset H Hlt.
  - simpl in H. inversion H; subst. repeat split; try done; lia.
  - simpl in H.
    destruct (index dst offset) as [b|] eqn:Hb; simpl in H; [|discriminate].
    destruct (store dst out b) as [d1|] eqn:Hs; simpl in H; [|discriminate].
    apply store_spec in Hs as [Hout ->].
    pose proof (index_Some_range _ _ _ Hb) as Hoff.
    rewrite index_lookup in Hb by lia.
    destruct (IH _ _ _ H ltac:(lia)) as (-> & Hlen & Htake & Hdrop & Hper).
    rewrite length_insert in Hlen.
    replace (Z.to_nat (out + 1)) with (S (Z.to_nat out)) in Htake by lia.
    assert (Ht0 : take (Z.to_nat out) dst' = take (Z.to_nat out) dst).
    { rewrite <- (take_take_small dst' (Z.to_nat out) (S (Z.to_nat out))) by lia.
      rewrite Htake, take_take_small by lia. by rewrite take_insert_ge by lia. }
    split; [lia|]. split; [done|]. split; [done|]. split.
    { rewrite Hdrop. by rewrite drop_insert_lt by lia. }
    intros i Hi.
    destruct (Z.eqb_spec i 0) as [->|Hnz].
    + rewrite !Z.add_0_r, !index_lookup by lia.
      rewrite (lookup_take_eq _ _ _ (Z.to_nat out) Htake) by lia.
      rewrite (lookup_take_eq _ _ _ (Z.to_nat offset) Htake) by lia.
      unfold len in *.
      rewrite list_lookup_insert_eq by lia.
      rewrite list_lookup_insert_ne by lia. by rewrite Hb.
    + destruct (Hper (i - 1) ltac:(lia)) as [He Hn].
      replace (out + 1 + (i - 1)) with (out + i) in * by lia.
      replace (offset + 1 + (i - 1)) with (offset + i) in He by lia.
      done.
Qed.

(** The theorem on a reference to the byte just written: it fills the
    next three places with that byte. *)
Lemma copy_for_repeats_witness :
  copy_for 3 [x61; x00; x00; x00] 1 0 = Some ([x61; x61; x61; x61], 4) /\
  forall i, 0 <= i < 3 ->
    index [x61; x61; x61; x61] (1 + i) = index [x61; x61; x61; x61] (0 + i).
Proof.
  split; [reflexivity|]. intros i Hi.
  apply (copy_for_repeats 3 [x61; x00; x00; x00] [x61; x61; x61; x61] 1 0 4);
    [reflexivity|lia|exact Hi].
Defined.

End CrtfCopy.


(** *** A stream of literals decodes to its literals *)

Section CrtfPack.
Import Crtf.
Close Scope string_scope.

Lemma b2z_z2b z : 0 <= z < 256 -> b2z (z2b z) = z.
Proof.
  intros Hz. unfold z2b, b2z.
  destruct (Byte.of_N (Z.to_N z)) as [y|] eqn:E; simpl.
  - apply Byte.to_of_N in E. lia.
  - apply Byte.of_N_None_iff in E. lia.
Qed.

Lemma land1_testbit x : Z.land x 1 = Z.b2z (Z.testbit x 0).
Proof.
  change 1 with (Z.ones 1). rewrite Z.land_ones by lia.
  symmetry. apply Z.bit0_mod.
Qed.

Lemma store_ok {A} (l : list A) i x :
  0 <= i < len l -> store l i x = Some (<[Z.to_nat i := x]> l).
Proof.
  unfold store, len. intros Hi.
  destruct (Z.leb_spec 0 i); [|lia].
  destruct (Z.ltb_spec i (Z.of_nat (length l))); [done|lia].
Qed.

Lemma decodeStep_literal_first src in0 out fc fl dst f b :
  Z.land fc 7 = 0 -> index src in0 = Some f -> Z.testbit (b2z f) 0 = false ->
  index src (in0 + 1) = Some b -> 0 <= out < len dst ->
  decodeStep src (mkD in0 out fc fl dst)
  = Next (mkD (in0 + 2) (out + 1) (fc + 1) (b2z f) (<[Z.to_nat out := b]> dst)).
Proof.
  intros Hfc Hf Hbit Hb Hout. unfold decodeStep, fetch_flags. cbn [d_flagCount d_in d_flags d_out d_dst].
  rewrite Hfc, Z.eqb_refl, Hf, land1_testbit, Hbit. cbn [Z.b2z].
  rewrite Z.eqb_refl, Hb, store_ok by done.
  do 2 f_equal. lia.
Qed.

Lemma decodeStep_literal_next src in_ out fc fl dst b :
  Z.land fc 7 <> 0 -> Z.testbit fl 1 = false ->
  index src in_ = Some b -> 0 <= out < len dst ->
  decodeStep src (mkD in_ out fc fl dst)
  = Next (mkD (in_ + 1) (out + 1) (fc + 1) (Z.shiftr fl 1) (<[Z.to_nat out := b]> dst)).
Proof.
  intros Hfc Hbit Hb Hout. unfold decodeStep, fetch_flags. cbn [d_flagCount d_in d_flags d_out d_dst].
  destruct (Z.eqb_spec (Z.land fc 7) 0); [done|].
  rewrite land1_testbit, Z.shiftr_spec by lia. change (0 + 1) with 1.
  rewrite Hbit. cbn [Z.b2z].
  rewrite Z.eqb_refl, Hb, store_ok by done. done.
Qed.

Lemma reaches_trans src a b c :
  reaches src a b -> reaches src b c -> reaches src a c.
Proof.
  induction 1 as [|a b b' Hs Hr IH]; intros Hbc; [done|].
  econstructor; [exact Hs|]. by apply IH.
Qed.

Lemma splice_nil dst out : splice dst out [] = dst.
Proof. unfold splice. simpl. rewrite Nat.add_0_r. apply take_drop. Qed.

Lemma splice_length dst out lits :
  0 <= out -> out + len lits <= len dst -> length (splice dst out lits) = length dst.
Proof.
  unfold splice, len. intros H0 H1.
  rewrite !length_app, length_take, length_drop. lia.
Qed.

Lemma splice_cons dst out b lits :
  0 <= out < len dst ->
  splice (<[Z.to_nat out := b]> dst) (out + 1) lits = splice dst out (b :: lits).
Proof.
  unfold splice, len. intros Hout.
  replace (Z.to_nat (out + 1)) with (S (Z.to_nat out)) by lia.
  rewrite drop_insert_lt by lia.
  rewrite (insert_take_drop dst (Z.to_nat out) b) by lia.
  rewrite (cons_middle b), (app_assoc (take (Z.to_nat out) dst) [b]).
  rewrite take_app_length' by (rewrite length_app, length_take; simpl; lia).
  rewrite <- app_assoc. simpl. do 4 f_equal. lia.
Qed.

Lemma splice_app dst out a b :
  0 <= out -> out + len a + len b <= len dst ->
  splice (splice dst out a) (out + len a) b = splice dst out (a ++ b).
Proof.
  unfold splice, len. intros H0 H1.
  replace (Z.to_nat (out + Z.of_nat (length a))) with (Z.to_nat out + length a)%nat by lia.
  set (l := take (Z.to_nat out) dst).
  assert (Hl : length l = Z.to_nat out) by (unfold l; rewrite length_take; lia).
  set (r := drop (Z.to_nat out + length a) dst).
  rewrite (app_assoc l a r).
  rewrite (take_app_length' (l ++ a)) by (rewrite length_app; lia).
  rewrite (drop_app_ge (l ++ a)) by (rewrite length_app; lia).
  unfold r. rewrite drop_drop, !length_app, <- !app_assoc. do 4 f_equal. lia.
Qed.

(** The literals of a run after its first. *)
Lemma run_tail src : forall lits in_ out fc fl dst,
  (forall i, (i < length lits)%nat -> Z.testbit fl (1 + Z.of_nat i) = false) ->
  (forall i, (i < length lits)%nat -> Z.land (fc + Z.of_nat i) 7 <> 0) ->
  (forall i, (i < length lits)%nat -> index src (in_ + Z.of_nat i) = lits !! i) ->
  0 <= out -> out + len lits <= len dst ->
  reaches src (mkD in_ out fc fl dst)
    (mkD (in_ + len lits) (out + len lits) (fc + len lits)
         (Z.shiftr fl (len lits)) (splice dst out lits)).
Proof.
  induction lits as [|b lits IH]; intros in_ out fc fl dst Hbits Hfc Hsrc H0 Hlen.
  - unfold len. simpl length. rewrite !Z.add_0_r, Z.shiftr_0_r, splice_nil. constructor.
  - unfold len in *. simpl length in *.
    econstructor.
    + apply decodeStep_literal_next.
      * specialize (Hfc 0%nat ltac:(lia)). by rewrite Z.add_0_r in Hfc.
      * apply (Hbits 0%nat). lia.
      * specialize (Hsrc 0%nat ltac:(lia)). by rewrite Z.add_0_r in Hsrc.
      * unfold len. lia.
    + replace (in_ + Z.of_nat (S (length lits))) with (in_ + 1 + len lits) by (unfold len; lia).
      replace (out + Z.of_nat (S (length lits))) with (out + 1 + len lits) by (unfold len; lia).
      replace (fc + Z.of_nat (S (length lits))) with (fc + 1 + len lits) by (unfold len; lia).
      replace (Z.shiftr fl (Z.of_nat (S (length lits))))
        with (Z.shiftr (Z.shiftr fl 1) (len lits))
        by (unfold len; rewrite Z.shiftr_shiftr by lia; f_equal; lia).
      rewrite <- splice_cons by (unfold len; lia).
      apply IH.
      * intros i Hi. rewrite Z.shiftr_spec by lia.
        specialize (Hbits (S i) ltac:(lia)).
        replace (1 + Z.of_nat i + 1) with (1 + Z.of_nat (S i)) by lia. done.
      * intros i Hi. specialize (Hfc (S i) ltac:(lia)).
        replace (fc + 1 + Z.of_nat i) with (fc + Z.of_nat (S i)) by lia. done.
      * intros i Hi. specialize (Hsrc (S i) ltac:(lia)).
        replace (in_ + 1 + Z.of_nat i) with (in_ + Z.of_nat (S i)) by lia. done.
      * lia.
      * unfold len. rewrite length_insert. lia.
Qed.

Lemma index_drop {A} (l k : list A) n i :
  0 <= n -> drop (Z.to_nat n) l = k -> 0 <= i ->
  index l (n + i) = k !! Z.to_nat i.
Proof.
  intros Hn <- Hi. rewrite index_lookup by lia.
  rewrite lookup_drop. f_equal. lia.
Qed.

Lemma end_marker_offset out :
  0 <= out ->
  exists hi lo, end_marker out = [hi; lo] /\ abs_offset out hi lo = out.
Proof.
  intros H0. unfold end_marker. eexists _, _. split; [reflexivity|].
  destruct (abs_offset_in_block out (z2b (out mod 4096 / 16)) (z2b (out mod 16 * 16)))
    as [-> _].
  rewrite !b2z_z2b by (Z.div_mod_to_equations; lia).
  unfold DICT_SIZE. Z.div_mod_to_equations. lia.
Qed.

Lemma putU32_length v : length (putU32 v) = 4%nat.
Proof. reflexivity. Qed.

Lemma getU32_putU32 pre v rest :
  0 <= v < 2 ^ 32 ->
  getU32 (pre ++ putU32 v ++ rest) (len pre) = Some v.
Proof.
  intros Hv. unfold getU32.
  assert (Hi : forall i, (i < 4)%nat ->
            index (pre ++ putU32 v ++ rest) (len pre + Z.of_nat i) = putU32 v !! i).
  { intros i Hi. unfold len. rewrite index_lookup by lia.
    replace (Z.to_nat (Z.of_nat (length pre) + Z.of_nat i)) with (length pre + i)%nat by lia.
    rewrite lookup_app_r by lia.
    replace (length pre + i - length pre)%nat with i by lia.
    by rewrite lookup_app_l by (rewrite putU32_length; lia). }
  pose proof (Hi 0%nat ltac:(lia)) as H0. rewrite Z.add_0_r in H0.
  pose proof (Hi 1%nat ltac:(lia)) as H1. change (Z.of_nat 1) with 1 in H1.
  pose proof (Hi 2%nat ltac:(lia)) as H2. change (Z.of_nat 2) with 2 in H2.
  pose proof (Hi 3%nat ltac:(lia)) as H3. change (Z.of_nat 3) with 3 in H3.
  rewrite H0, H1, H2, H3.
  unfold putU32. simpl. f_equal. rewrite le_bytes_value.
  change 0xFF with (Z.ones 8). rewrite !Z.land_ones by lia.
  rewrite !Z.shiftr_div_pow2 by lia.
  rewrite !b2z_z2b by (apply Z.mod_pos_bound; lia).
  Z.div_mod_to_equations. lia.
Qed.

Lemma literal_runs_length fuel : forall data out,
  (length data < fuel)%nat ->
  (length (literal_runs fuel data out) <= 2 * length data + 3)%nat.
Proof.
  induction fuel as [|fuel IH]; intros data out Hf; [lia|].
  simpl. destruct (Nat.ltb_spec (length data) 8).
  - simpl. rewrite length_app. simpl. lia.
  - simpl. rewrite length_app, length_take.
    specialize (IH (drop 8 data) (out + 8)).
    rewrite length_drop in IH. lia.
Qed.

Lemma land7_mod x : Z.land x 7 = x mod 8.
Proof. change 7 with (Z.ones 3). by rewrite Z.land_ones by lia. Qed.

(** From a run boundary on, a stream of literal runs is decoded up to its
    end marker, and [dst] then holds the literals. *)
Lemma decode_runs src : forall fuel data in0 out fc fl dst,
  (length data < fuel)%nat -> 0 <= in0 ->
  drop (Z.to_nat in0) src = literal_runs fuel data out ->
  Z.land fc 7 = 0 ->
  0 <= out -> out + len data <= len dst ->
  exists st', reaches src (mkD in0 out fc fl dst) st' /\ is_sentinel src st' /\
              d_dst st' = splice dst out data.
Proof.
  induction fuel as [|fuel IH]; intros data in0 out fc fl dst Hfuel Hin Hdrop Hfc Hout Hlen;
    [lia|].
  simpl in Hdrop. rewrite land7_mod in Hfc.
  destruct (Nat.ltb_spec (length data) 8) as [Hshort|Hfull].
  - (* the last run *)
    destruct (end_marker_offset (out + len data)) as (hi & lo & Hem & Habs);
      [unfold len; lia|].
    rewrite Hem in Hdrop.
    assert (Hpow : 0 <= 2 ^ len data < 256).
    { unfold len. split; [apply Z.pow_nonneg; lia|].
      apply Z.le_lt_trans with (2 ^ 7); [|reflexivity].
      apply Z.pow_le_mono_r; lia. }
    pose proof (index_drop src _ in0 0 Hin Hdrop ltac:(lia)) as Hf.
    rewrite Z.add_0_r in Hf. simpl in Hf.
    assert (Hlit : forall i, (i < length data)%nat ->
              index src (in0 + 1 + Z.of_nat i) = data !! i).
    { intros i Hi.
      rewrite <- Z.add_assoc, (index_drop src _ in0 _ Hin Hdrop) by lia.
      replace (Z.to_nat (1 + Z.of_nat i)) with (S i) by lia. simpl.
      by rewrite lookup_app_l by lia. }
    assert (Hhi : index src (in0 + 1 + len data) = Some hi).
    { unfold len. rewrite <- Z.add_assoc, (index_drop src _ in0 _ Hin Hdrop) by lia.
      replace (Z.to_nat (1 + Z.of_nat (length data))) with (S (length data)) by lia.
      simpl. rewrite lookup_app_r by lia. by rewrite Nat.sub_diag. }
    assert (Hlo : index src (in0 + 1 + len data + 1) = Some lo).
    { unfold len.
      replace (in0 + 1 + Z.of_nat (length data) + 1)
        with (in0 + (2 + Z.of_nat (length data))) by lia.
      rewrite (index_drop src _ in0 _ Hin Hdrop) by lia.
      replace (Z.to_nat (2 + Z.of_nat (length data))) with (S (S (length data))) by lia.
      simpl. rewrite lookup_app_r by lia.
      by replace (S (length data) - length data)%nat with 1%nat by lia. }
    destruct data as [|b lits].
    + change (len (@nil byte)) with 0 in *. rewrite !Z.add_0_r in *.
      exists (mkD in0 out fc fl dst). split; [constructor|]. split.
      * exists (b2z (z2b (2 ^ 0))), (in0 + 1), hi, lo.
        unfold fetch_flags. cbn [d_flagCount d_in d_flags d_out d_dst].
        rewrite land7_mod, Hfc, Z.eqb_refl, Hf.
        split; [done|]. split; [by rewrite b2z_z2b by done|].
        repeat split; done.
      * cbn [d_dst]. by rewrite splice_nil.
    + unfold len in *. simpl length in *.
      set (k := Z.of_nat (S (length lits))) in *.
      set (dst1 := <[Z.to_nat out := b]> dst).
      pose proof (run_tail src lits (in0 + 2) (out + 1) (fc + 1) (2 ^ k) dst1) as Hrun.
      eexists. split; [|split].
      * eapply reaches_next.
        { apply decodeStep_literal_first with (f := z2b (2 ^ k)).
          - by rewrite land7_mod.
          - done.
          - rewrite b2z_z2b by done. apply Z.pow2_bits_false. lia.
          - specialize (Hlit 0%nat ltac:(lia)). by rewrite Z.add_0_r in Hlit.
          - unfold len. lia. }
        rewrite b2z_z2b by done. fold dst1. apply Hrun.
        { intros i Hi. apply Z.pow2_bits_false. lia. }
        { intros i Hi. rewrite land7_mod. Z.div_mod_to_equations. lia. }
        { intros i Hi. specialize (Hlit (S i) ltac:(lia)). simpl in Hlit.
          rewrite <- Hlit. f_equal. lia. }
        { lia. }
        { unfold len, dst1. rewrite length_insert. lia. }
      * exists 1, (in0 + 2 + len lits), hi, lo.
        unfold fetch_flags. cbn [d_flagCount d_in d_flags d_out d_dst].
        rewrite land7_mod.
        destruct (Z.eqb_spec ((fc + 1 + len lits) mod 8) 0) as [He|_].
        { unfold len in He. Z.div_mod_to_equations. lia. }
        rewrite Z.shiftr_shiftr by (unfold len; lia).
        replace (len lits + 1) with k by (unfold len, k; lia).
        rewrite Z.shiftr_div_pow2, Z.div_same by lia.
        split; [done|]. split; [done|].
        replace (in0 + 2 + len lits) with (in0 + 1 + k) by (unfold len, k; lia).
        replace (out + 1 + len lits) with (out + k) by (unfold len, k; lia).
        repeat split; done.
      * cbn [d_dst]. unfold dst1. apply splice_cons. unfold len. lia.
  - (* a full run *)
    assert (Hd : data = take 8 data ++ drop 8 data) by (by rewrite take_drop).
    assert (Ht : length (take 8 data) = 8%nat) by (rewrite length_take; lia).
    destruct (take 8 data) as [|b lits] eqn:Etake; [discriminate|].
    simpl in Ht. assert (Hl7 : length lits = 7%nat) by lia. clear Ht.
    pose proof (index_drop src _ in0 0 Hin Hdrop ltac:(lia)) as Hf.
    rewrite Z.add_0_r in Hf. simpl in Hf.
    assert (Hlit : forall i, (i < 8)%nat ->
              index src (in0 + 1 + Z.of_nat i) = (b :: lits) !! i).
    { intros i Hi.
      rewrite <- Z.add_assoc, (index_drop src _ in0 _ Hin Hdrop) by lia.
      replace (Z.to_nat (1 + Z.of_nat i)) with (S i) by lia.
      change ((x00 :: (b :: lits) ++ literal_runs fuel (drop 8 data) (out + 8)) !! S i)
        with (((b :: lits) ++ literal_runs fuel (drop 8 data) (out + 8)) !! i).
      by rewrite lookup_app_l by (simpl; lia). }
    assert (Hdata : (8 <= length data)%nat) by lia.
    assert (Hlen8 : out + 8 <= len dst) by (unfold len in *; lia).
    set (dst1 := <[Z.to_nat out := b]> dst).
    pose proof (run_tail src lits (in0 + 2) (out + 1) (fc + 1) 0 dst1) as Hrun.
    destruct (IH (drop 8 data) (in0 + 9) (out + 8) (fc + 8) 0
                 (splice dst out (b :: lits))) as (st' & Hr & Hsen & Hdst).
    { rewrite length_drop. lia. }
    { lia. }
    { replace (Z.to_nat (in0 + 9)) with (Z.to_nat in0 + 9)%nat by lia.
      rewrite <- drop_drop, Hdrop.
      change (drop 9 (x00 :: (b :: lits) ++ literal_runs fuel (drop 8 data) (out + 8)))
        with (drop 8 ((b :: lits) ++ literal_runs fuel (drop 8 data) (out + 8))).
      by rewrite drop_app_length' by (simpl; lia). }
    { rewrite land7_mod. Z.div_mod_to_equations. lia. }
    { lia. }
    { unfold len in *. rewrite length_drop, splice_length; unfold len; simpl length; lia. }
    exists st'. split; [|split; [done|]].
    + eapply reaches_next.
      { apply decodeStep_literal_first with (f := x00).
        - by rewrite land7_mod.
        - done.
        - done.
        - specialize (Hlit 0%nat ltac:(lia)). by rewrite Z.add_0_r in Hlit.
        - lia. }
      change (b2z x00) with 0. fold dst1.
      eapply reaches_trans.
      { apply Hrun.
        - intros i Hi. apply Z.bits_0.
        - intros i Hi. rewrite land7_mod. Z.div_mod_to_equations. lia.
        - intros i Hi. specialize (Hlit (S i) ltac:(lia)). simpl in Hlit.
          rewrite <- Hlit. f_equal. lia.
        - lia.
        - unfold len, dst1. rewrite length_insert. unfold len in Hlen8. lia. }
      unfold len. rewrite Hl7. rewrite Z.shiftr_0_l.
      replace (in0 + 2 + Z.of_nat 7) with (in0 + 9) by lia.
      replace (out + 1 + Z.of_nat 7) with (out + 8) by lia.
      replace (fc + 1 + Z.of_nat 7) with (fc + 8) by lia.
      unfold dst1. rewrite splice_cons by lia. exact Hr.
    + rewrite Hdst.
      replace (out + 8) with (out + len (b :: lits)) by (unfold len; simpl length; lia).
      rewrite splice_app.
      * by rewrite <- Hd.
      * lia.
      * unfold len in *. rewrite length_drop. simpl length. lia.
Qed.

(** X8. Every byte string shorter than 2^30 has a compressed stream
    from which [Decompress] returns it: its bytes as literals, eight to a
    flag byte, closed by the end marker, under a header with the right
    sizes, the compressed magic and the checksum of what follows. *)
Theorem Decompress_pack (data : list byte) :
  len data < 2 ^ 30 -> Decompress (pack data) = Some (Ok data).
Proof.
  intros Hsmall. unfold pack.
  set (body := literal_runs (S (length data)) data (len COMPRESSED_RTF_PREBUF)).
  set (src := putU32 (len body + 12) ++ putU32 (len data) ++ putU32 MAGIC_COMPRESSED
              ++ putU32 (crc32_plain body) ++ body).
  pose proof (literal_runs_length (S (length data)) data (len COMPRESSED_RTF_PREBUF)
                ltac:(lia)) as Hlb.
  fold body in Hlb.
  assert (Hcrc : 0 <= crc32_plain body < 2 ^ 32) by (apply crc_fold_range; lia).
  assert (Hlen : len src = 16 + len body).
  { unfold src, len. rewrite !length_app, !putU32_length. lia. }
  assert (H0 : getU32 src 0 = Some (len body + 12)).
  { apply (getU32_putU32 []). unfold len in *. lia. }
  assert (H4 : getU32 src 4 = Some (len data)).
  { apply (getU32_putU32 (putU32 (len body + 12))). unfold len in *. lia. }
  assert (H8 : getU32 src 8 = Some MAGIC_COMPRESSED).
  { unfold src. rewrite (app_assoc (putU32 (len body + 12))).
    apply (getU32_putU32 (putU32 (len body + 12) ++ putU32 (len data))). done. }
  assert (H12 : getU32 src 12 = Some (crc32_plain body)).
  { unfold src. rewrite (app_assoc (putU32 (len data))).
    rewrite (app_assoc (putU32 (len body + 12))).
    apply (getU32_putU32 (putU32 (len body + 12) ++ putU32 (len data)
                          ++ putU32 MAGIC_COMPRESSED)). done. }
  assert (Hbody : drop 16 src = body).
  { unfold src. rewrite !app_assoc.
    apply drop_app_length'. by rewrite !length_app, !putU32_length. }
  assert (Hu : uncompressedSize src = len data) by (unfold uncompressedSize; by rewrite H4).
  assert (Hm : magic src = MAGIC_COMPRESSED) by (unfold magic; by rewrite H8).
  assert (Hok : ~ integrity_failure src).
  { unfold integrity_failure, compressedSize, crc32sum.
    rewrite H0, H12, Hm, Hbody. simpl default. unfold len in *. intros [?|[?|[[? ?]|[? ?]]]]; lia. }
  destruct (decode_runs src (S (length data)) data 16 (len COMPRESSED_RTF_PREBUF) 0 0
              (initial_dst (uncompressedSize src))) as (st & Hr & Hsen & Hdst).
  { lia. }
  { lia. }
  { exact Hbody. }
  { done. }
  { unfold len. lia. }
  { rewrite Hu. unfold initial_dst, len.
    rewrite length_app, length_replicate. lia. }
  rewrite (Decompress_stops_at_sentinel src st Hok Hm Hr Hsen).
  do 2 f_equal. rewrite Hdst, Hu. unfold splice, initial_dst, len.
  rewrite !Nat2Z.id. rewrite take_app_length.
  rewrite drop_app_length.
  rewrite drop_app_ge by lia.
  rewrite drop_ge by (rewrite length_replicate; lia).
  by rewrite app_nil_r.
Qed.

(** The theorem at the two bytes "hi". *)
Lemma Decompress_pack_witness :
  pack [x68; x69] = stream_hi /\ Decompress (pack [x68; x69]) = Some (Ok [x68; x69]).
Proof.
  split; [vm_compute; reflexivity|].
  apply (Decompress_pack [x68; x69]). vm_compute. reflexivity.
Defined.

End CrtfPack.


(* ===================================================================== *)
(** ** Further properties: the tokenizer *)
(* ===================================================================== *)

Section TokenizerMore.
Import Tree Bufio Structure.

Lemma read_while_all P : forall s w rest,
  read_while P s = (w, rest) -> all_bytes P w = true /\ s = w ++ rest.
Proof.
  induction s as [|c s IH]; intros w rest; cbn.
  - by intros [= <- <-].
  - destruct (P c) eqn:Hc.
    + destruct (read_while P s) as [w0 r0]. intros [= <- <-].
      destruct (IH _ _ eq_refl) as [H1 H2]. cbn. rewrite Hc, H1. by rewrite H2 at 1.
    + by intros [= <- <-].
Qed.

Lemma read_while_first P c s w rest :
  P c = true -> read_while P (String c s) = (w, rest) ->
  (0 < String.length w)%nat.
Proof.
  intros Hc. cbn. rewrite Hc. destruct (read_while P s). intros [= <- <-]. cbn. lia.
Qed.

Lemma addChild_token_step tok o o1 :
  well_formed tok = true -> path o1 = path o -> closed o1 = closed o ->
  length (uc o1) = length (uc o) -> token_step o (addChild tok o1).
Proof.
  intros Hwf Hp Hc Hu. unfold addChild, token_step. rewrite Hp.
  destruct (path o) as [|g parents] eqn:E; [by left|].
  cbn. split; [done|]. split; [done|]. right. exists g, parents, tok. done.
Qed.

Lemma keep_token_step o o1 :
  path o1 = path o -> closed o1 = closed o -> length (uc o1) = length (uc o) ->
  token_step o (Ret o1).
Proof. intros Hp Hc Hu. cbn. auto. Qed.

Lemma parseText_token_step o rd : token_step o (parseText (with_reader rd o)).
Proof.
  unfold parseText. cbn [reader with_reader].
  destruct (parseText_loop _ _ _) as [[rd' buffer]|]; [|done].
  destruct (0 <? string_len buffer) eqn:Hb.
  - apply addChild_token_step; try done.
    destruct buffer; [discriminate|done].
  - by apply keep_token_step.
Qed.

Lemma string_of_byte_length b :
  (1 <=? String.length (string_of_byte b))%nat
  && (String.length (string_of_byte b) <=? 2)%nat = true.
Proof. destruct b as [[] [] [] [] [] [] [] []]; vm_compute; reflexivity. Qed.

Lemma parseControlSymbol_token_step o :
  token_step o (Structure.parseControlSymbol o).
Proof.
  unfold Structure.parseControlSymbol.
  destruct (ReadByte (reader o)) as [[rd b] err]. cbv beta iota.
  destruct err; [by apply keep_token_step|].
  destruct (is_eol b).
  - destruct (Peek 1 rd) as [[rd1 bp] err1]. cbv beta iota.
    destruct err1; [by apply keep_token_step|].
    by apply addChild_token_step.
  - match goal with |- context [match ?e with pair _ _ => _ end] =>
      destruct e as [rd2 parameter] eqn:E end.
    apply addChild_token_step; try done.
    cbn [well_formed]. rewrite string_of_byte_length. cbn [andb].
    destruct (Ascii.eqb b APOSTROPHE) eqn:Hb.
    + apply Ascii.eqb_eq in Hb. subst b.
      replace (String.eqb (string_of_byte APOSTROPHE) "'") with true by reflexivity.
      rewrite orb_true_r, andb_true_r.
      destruct (Peek 1 rd) as [[rd1 bp] err1]. cbv beta iota in E.
      destruct (negb err1 && Utils.ByteIsHexDigit (first_byte bp)) eqn:H1;
        [|by injection E as <- <-].
      apply andb_prop in H1 as [_ H1].
      destruct (Peek 1 _) as [[rd3 bp3] err3]. cbv beta iota in E.
      destruct (negb err3 && Utils.ByteIsHexDigit (first_byte bp3)) eqn:H3.
      * apply andb_prop in H3 as [_ H3]. injection E as <- <-.
        cbv [String.append]. cbn -[Utils.ByteIsHexDigit]. by rewrite H1, H3.
      * injection E as <- <-. cbn -[Utils.ByteIsHexDigit]. by rewrite H1.
    + by injection E as <- <-.
Qed.

Lemma store_top_None {A} (l : list A) x : store l (len l - 1) x = None -> l = [].
Proof.
  unfold store, len. destruct l as [|a l]; [done|]. cbn [length].
  destruct (Z.leb_spec 0 (Z.of_nat (S (length l)) - 1)); [|lia].
  destruct (Z.ltb_spec (Z.of_nat (S (length l)) - 1) (Z.of_nat (S (length l)))); [|lia].
  discriminate.
Qed.

Lemma index_top_None {A} (l : list A) : index l (len l - 1) = None -> l = [].
Proof.
  intros H. destruct l as [|a l]; [done|].
  destruct (index_in_range (a :: l) (len (a :: l) - 1)) as [x Hx];
    [unfold len; cbn [length]; lia|congruence].
Qed.

Lemma is_numeric_signed sign digits :
  sign = EmptyString \/ sign = "-" ->
  all_bytes Utils.ByteIsDigit digits = true ->
  is_numeric (sign ++ digits) = true.
Proof.
  intros [->| ->] Hd.
  - change (EmptyString ++ digits) with digits. unfold is_numeric.
    destruct digits as [|c r]; [done|].
    destruct (Ascii.eqb c MINUS); [|done].
    cbn in Hd. by apply andb_prop in Hd as [_ ?].
  - done.
Qed.

Lemma parseControlWord_token_step o c r :
  buf (reader o) = String c r -> Utils.ByteIsAsciiLetter c = true ->
  token_step o (Structure.parseControlWord o).
Proof.
  intros Hbuf Hc. unfold Structure.parseControlWord.
  destruct (read_while Utils.ByteIsAsciiLetter (buf (reader o))) as [w rest] eqn:Hw.
  rewrite Hbuf in Hw. pose proof (read_while_first _ _ _ _ _ Hc Hw) as Hw0.
  apply read_while_all in Hw as [Hw _]. cbv beta iota.
  unfold Peek at 1. cbn [buf]. cbv beta iota.
  match goal with |- context [match ?e with pair _ _ => _ end] =>
    destruct e as [rd1 sign] eqn:H1 end.
  assert (Hsign : sign = EmptyString \/ sign = "-").
  { destruct (negb _ && _) in H1.
    - destruct (ReadByte _) as [[rd' ?] err'] in H1. injection H1 as _ <-.
      destruct err'; auto.
    - injection H1 as _ <-. auto. }
  clear H1.
  destruct (read_while Utils.ByteIsDigit (buf rd1)) as [digits rest2] eqn:Hd.
  apply read_while_all in Hd as [Hd _]. cbv beta iota.
  unfold Peek at 1. cbn [buf]. cbv beta iota zeta.
  set (rd3 := if negb _ && _ then _ else _). clearbody rd3.
  set (parameter := if 0 <? string_len (sign ++ digits) then _ else 1).
  clearbody parameter.
  assert (Hwf : well_formed (rtfControlWord w (sign ++ digits)) = true).
  { cbn [well_formed]. rewrite Hw, is_numeric_signed by done.
    rewrite !andb_true_r. apply Nat.ltb_lt. lia. }
  destruct (String.eqb w "uc").
  - destruct (store (uc o) (len (uc o) - 1) parameter) as [uc'|] eqn:Hst.
    2:{ right. by apply store_top_None in Hst. }
    apply store_length in Hst. cbn [mbind run_bind].
    destruct (String.eqb w "u").
    + cbn [uc with_uc].
      destruct (index uc' (len uc' - 1)) eqn:Hi.
      2:{ right. apply index_top_None in Hi. subst uc'. by destruct (uc o). }
      destruct (skip_loop _ _ _) as [rd4|]; [|done].
      cbn [mbind run_bind]. by apply addChild_token_step.
    + cbn [mbind run_bind]. by apply addChild_token_step.
  - cbn [mbind run_bind].
    destruct (String.eqb w "u").
    + destruct (index (uc o) (len (uc o) - 1)) eqn:Hi.
      2:{ right. by apply index_top_None in Hi. }
      destruct (skip_loop _ _ _) as [rd4|]; [|done].
      cbn [mbind run_bind]. by apply addChild_token_step.
    + cbn [mbind run_bind]. by apply addChild_token_step.
Qed.

Lemma parseControl_token_step o : token_step o (parseControl o).
Proof.
  unfold parseControl, Peek. cbv beta iota.
  destruct (buf (reader o)) as [|c r] eqn:Hb; cbn [take_string String.length Nat.ltb Nat.leb].
  { by apply keep_token_step. }
  cbn [first_byte].
  destruct (Utils.ByteIsAsciiLetter c) eqn:Hc; cbn [negb].
  - pose proof (parseControlWord_token_step
                  (with_reader (mkReader None (String c r)) o) c r eq_refl Hc) as H.
    destruct (Structure.parseControlWord _); exact H.
  - pose proof (parseControlSymbol_token_step
                  (with_reader (mkReader None (String c r)) o)) as H.
    destruct (Structure.parseControlSymbol _); exact H.
Qed.

Lemma forallb_snoc {A} (f : A -> bool) l x :
  forallb f (l ++ [x]) = forallb f l && f x.
Proof. rewrite forallb_app. cbn. by rewrite andb_true_r. Qed.

Lemma plug_well_formed parents : forall g,
  forallb well_formed g = true ->
  Forall (fun p => forallb well_formed p = true) parents ->
  forallb well_formed (plug g parents) = true.
Proof.
  induction parents as [|p rest IH]; intros g Hg Hp; [done|].
  inversion Hp as [|? ? Hp1 Hp2]; subst. cbn [plug]. apply IH; [|done].
  rewrite forallb_snoc, Hp1. done.
Qed.

(** A token reader run on an object that has no closed root. *)
Lemma token_step_tokenizing o rd res :
  tokenizing o -> closed o = None ->
  token_step (with_reader rd o) res ->
  match res with
  | Ret o' => tokenizing o' /\ closed o' = None /\ (path o <> [] -> path o' <> [])
  | GoPanic => path o = []
  | OutOfFuel => True
  end.
Proof.
  unfold tokenizing. intros Ht Hc. rewrite Hc in Ht. destruct Ht as [Hfm Hwf].
  destruct res as [o'| |]; cbn [token_step with_reader path closed uc]; [|
    |done].
  - intros (Hc' & Hu & Hp). rewrite Hc', Hc.
    destruct Hp as [Hp|(g & parents & tok & Hp & Hp' & Htok)].
    + rewrite Hp. unfold frames_match in *. rewrite Hu, Hp. done.
    + rewrite Hp'. unfold frames_match in *. rewrite Hu, Hp' , Hfm, Hp.
      split; [|done]. split; [done|].
      rewrite Hp in Hwf. inversion Hwf as [|? ? H1 H2]; subst.
      constructor; [|done]. by rewrite forallb_snoc, H1, Htok.
  - intros [Hp|Hu]; [done|].
    unfold frames_match in Hfm. rewrite Hu in Hfm.
    by destruct (path o).
Qed.

Lemma Parse_step_tokenizing o :
  tokenizing o ->
  match Parse_step o with
  | Ret (o', _) => tokenizing o' /\ (started o -> started o')
  | GoPanic => ~ started o
  | OutOfFuel => True
  end.
Proof.
  intros Ht. unfold Parse_step.
  destruct (ReadByte (reader o)) as [[rd b] err]. cbv beta iota zeta.
  unfold currentGroup_is_nil, Root_is_nil. cbn [with_reader path closed].
  pose proof Ht as Ht0. unfold tokenizing in Ht.
  destruct (closed o) as [root|] eqn:Hc.
  { destruct Ht as [Hp Hwf]. rewrite Hp. cbn.
    split; [|done]. unfold tokenizing. cbn. by rewrite Hc. }
  destruct Ht as [Hfm Hwf].
  assert (Htok : forall rd' (res : run RtfStructure),
            token_step (with_reader rd' o) res ->
            match mbind (M:=run) (fun o0 : RtfStructure => Ret (o0, negb err)) res with
            | Ret (o', _) => tokenizing o' /\ (started o -> started o')
            | GoPanic => ~ started o
            | OutOfFuel => True
            end).
  { intros rd' res Hres.
    pose proof (token_step_tokenizing o rd' res Ht0 Hc Hres) as H.
    destruct res as [o'| |]; cbn; [| |done].
    - destruct H as (H1 & H2 & H3). split; [done|].
      unfold started. rewrite Hc, H2. intros [?|?]; [left; auto|done].
    - unfold started. rewrite H, Hc. intros [?|?]; done. }
  destruct (path o) as [|g parents] eqn:Hp.
  - (* before the first group *)
    cbn [andb negb].
    destruct (Ascii.eqb b LBRACE).
    { unfold startGroup, Root_is_nil. cbn [with_reader path closed uc reader].
      rewrite Hc, Hp. cbn. split; [|by left].
      unfold tokenizing, frames_match in *. cbn. rewrite Hp in Hfm. cbn in Hfm.
      rewrite length_app, Hfm. cbn. split; [done|]. by repeat constructor. }
    destruct (Ascii.eqb b RBRACE).
    { unfold endGroup. cbn [with_reader path]. rewrite Hp. cbn.
      unfold started. rewrite Hp, Hc. intros [?|?]; done. }
    destruct (Ascii.eqb b BACKSLASH).
    { apply (Htok rd). apply parseControl_token_step. }
    apply (Htok rd). apply (parseText_token_step (with_reader rd o)).
  - (* a group is open *)
    cbn [andb].
    assert (Huc : uc o <> []).
    { unfold frames_match in Hfm. rewrite Hp in Hfm. by destruct (uc o). }
    destruct (Ascii.eqb b LBRACE).
    { unfold startGroup, Root_is_nil. cbn [with_reader path closed uc reader].
      rewrite Hc, Hp.
      destruct (index (uc o) (len (uc o) - 1)) as [top|] eqn:Hi;
        [|by apply index_top_None in Hi].
      cbn. split; [|by left].
      unfold tokenizing, frames_match in *. cbn. rewrite Hp in Hfm. cbn in Hfm.
      rewrite length_app, Hfm. cbn. split; [lia|]. by constructor. }
    destruct (Ascii.eqb b RBRACE).
    { pose proof (endGroup_orderly (with_reader rd o)) as Ho.
      unfold orderly_at in Ho. revert Ho.
      unfold endGroup. cbn [with_reader path closed uc reader]. rewrite Hp.
      inversion Hwf as [|? ? Hg Hrest]; subst.
      destruct parents as [|p rest]; cbn; intros [_ Hfm'].
      - split; [|by right]. unfold tokenizing. cbn. done.
      - split; [|by left]. unfold tokenizing. cbn. rewrite Hc.
        split; [apply Hfm'; exact Hfm|].
        inversion Hrest as [|? ? Hp1 Hp2]; subst.
        constructor; [|done]. rewrite forallb_snoc, Hp1. done. }
    destruct (Ascii.eqb b BACKSLASH).
    { apply (Htok rd). apply parseControl_token_step. }
    apply (Htok rd). apply (parseText_token_step (with_reader rd o)).
Qed.

Lemma Parse_loop_tokenizing fuel : forall o,
  tokenizing o ->
  match Parse_loop fuel o with
  | Ret o' => tokenizing o' /\ (started o -> started o')
  | GoPanic => ~ started o
  | OutOfFuel => True
  end.
Proof.
  induction fuel as [|fuel IH]; intros o Ht; [done|]. cbn [Parse_loop].
  pose proof (Parse_step_tokenizing o Ht) as Hs.
  destruct (Parse_step o) as [[o1 again]| |]; [|done..].
  destruct Hs as [H1 H2]. destruct again; [|done].
  specialize (IH o1 H1). destruct (Parse_loop fuel o1); [|auto|done].
  destruct IH as [H3 H4]. auto.
Qed.

Lemma tokenizing_Root o children :
  tokenizing o -> Root o = Some children -> forallb well_formed children = true.
Proof.
  unfold tokenizing, Root. destruct (closed o) as [root|].
  - intros [_ H] [= <-]. done.
  - intros [_ H]. destruct (path o) as [|g parents]; [discriminate|].
    intros [= <-]. inversion H; subst. by apply plug_well_formed.
Qed.

Lemma started_Root o : started o -> Root o <> None.
Proof.
  unfold started, Root. destruct (closed o); [done|].
  destruct (path o); [|done]. intros [?|?]; done.
Qed.

(** X9. Whatever the input, every token of the tree that the
    tokenizer returns is well formed, at every depth: a control word is a
    non-empty run of ASCII letters with a parameter made of digits after an
    optional minus sign; a control symbol has a parameter, of one or two
    bytes accepted by [ByteIsHexDigit], only when it is the apostrophe; no
    text token is empty. *)
Theorem tokens_well_formed (content : string) (o : RtfStructure)
    (children : list rtfElement) :
  ParseBytes content = Ret o -> Root o = Some children ->
  forallb well_formed children = true.
Proof.
  unfold ParseBytes. intros Hp Hr.
  pose proof (Parse_loop_tokenizing (S (S (String.length content)))
                (setReader (NewReader content))) as H.
  rewrite Hp in H. destruct H as [H _].
  - unfold tokenizing, frames_match. cbn. done.
  - by apply (tokenizing_Root o).
Qed.

(** The theorem at [doc_quote_zz], whose quote takes two letters. *)
Lemma tokens_well_formed_witness :
  exists o, ParseBytes doc_quote_zz = Ret o /\
            Root o = Some [rtfControlSymbol "'" "zz"] /\
            forallb well_formed [rtfControlSymbol "'" "zz"] = true.
Proof.
  eexists. split; [vm_compute; reflexivity|]. split; [reflexivity|].
  eapply (tokens_well_formed doc_quote_zz); vm_compute; reflexivity.
Defined.

(** X10. On an input whose first byte is an opening brace the
    tokenizer never panics and never loops: it returns, and [Root] is not
    nil. *)
Theorem ParseBytes_after_brace (rest : string) :
  exists o children,
    ParseBytes (String LBRACE rest) = Ret o /\ Root o = Some children.
Proof.
  unfold ParseBytes. cbn [String.length].
  set (o1 := mkS (mkReader (Some LBRACE) rest) None [[]] [1]).
  assert (Hstep : Parse_loop (S (S (S (String.length rest))))
                    (setReader (NewReader (String LBRACE rest)))
                  = Parse_loop (S (S (String.length rest))) o1) by reflexivity.
  rewrite Hstep.
  assert (Ht : tokenizing o1) by (unfold tokenizing, frames_match; cbn; by repeat constructor).
  assert (Hs : started o1) by (by left).
  pose proof (Parse_loop_tokenizing (S (S (String.length rest))) o1 Ht) as H1.
  pose proof (Parse_loop_ends (S (S (String.length rest))) o1) as H2.
  destruct (Parse_loop _ o1) as [o'| |].
  - destruct H1 as [_ H1]. specialize (H1 Hs). apply started_Root in H1.
    destruct (Root o') as [children|] eqn:Hr; [|done]. by exists o', children.
  - done.
  - exfalso. apply H2. unfold remaining. cbn. lia.
Qed.

Lemma string_length_app (a b : string) :
  String.length (a ++ b) = (String.length a + String.length b)%nat.
Proof. induction a as [|c a IH]; [done|]. cbn. by rewrite <- IH. Qed.

Lemma EncodeRune_nonempty r : (0 < String.length (utf8.EncodeRune r))%nat.
Proof.
  unfold utf8.EncodeRune, utf8.three_bytes.
  repeat match goal with |- context [if ?b then _ else _] => destruct b end;
    cbn; lia.
Qed.

(** The loop of [parseText] only appends to its buffer. *)
Lemma parseText_loop_grows fuel : forall rd buffer rd' buffer',
  parseText_loop fuel rd buffer = Some (rd', buffer') ->
  (String.length buffer <= String.length buffer')%nat.
Proof.
  induction fuel as [|fuel IH]; intros rd buffer rd' buffer'; [discriminate|].
  cbn [parseText_loop]. unfold Peek. cbn [buf].
  destruct (buf rd) as [|bp0 rest] eqn:Hb; cbn [take_string].
  { by intros [= <- <-]. }
  destruct (is_eol bp0).
  { unfold ReadByte. cbn [buf]. apply IH. }
  destruct (Ascii.eqb bp0 BACKSLASH).
  { destruct rest as [|bp1 rest1]; cbn [take_string].
    - unfold ReadByte. cbn. intros [= <- <-]. rewrite string_length_app. lia.
    - destruct (negb _ && _ && _).
      + by intros [= <- <-].
      + unfold ReadByte. cbn [buf]. intros H. apply IH in H.
        rewrite !string_length_app in H. lia. }
  destruct (is_brace bp0).
  { by intros [= <- <-]. }
  destruct (ReadRune _) as [[rd1 br] err].
  destruct err.
  { by intros [= <- <-]. }
  intros H. apply IH in H. rewrite string_length_app in H. lia.
Qed.

(** X11. Before the first opening brace there is no
    current group: an input that begins with a closing brace, or with a
    byte of text (any byte but a brace, a backslash, CR and LF), makes the
    tokenizer panic; no error is returned. *)
Theorem ParseBytes_panics_before_root :
  (forall rest, ParseBytes (String RBRACE rest) = GoPanic) /\
  (forall c rest,
     is_eol c = false -> is_brace c = false -> Ascii.eqb c BACKSLASH = false ->
     ParseBytes (String c rest) = GoPanic).
Proof.
  split; [reflexivity|].
  intros c rest Heol Hbr Hbs. unfold ParseBytes. cbn [String.length Parse_loop].
  assert (Hstep : Parse_step (setReader (NewReader (String c rest))) = GoPanic);
    [|by rewrite Hstep].
  unfold Parse_step, setReader, NewReader, ReadByte. cbn [buf reader].
  cbv beta iota zeta. cbn [with_reader currentGroup_is_nil Root_is_nil path closed andb negb].
  unfold is_brace in Hbr. apply orb_false_elim in Hbr as [Hl Hr].
  rewrite Hl, Hr, Hbs. cbn [reader UnreadByte lastByte buf].
  unfold parseText. cbn [with_reader reader].
  change (UnreadByte {| lastByte := Some c; buf := rest |})
    with (mkReader None (String c rest)).
  cbn [buf String.length].
  destruct (parseText_loop_ends (S (S (String.length rest)))
              (mkReader None (String c rest)) EmptyString)
    as (rd' & buffer' & Hloop & _); [unfold remaining; cbn; lia|].
  rewrite Hloop. cbn [mbind run_bind].
  assert (Hne : (0 < String.length buffer')%nat).
  { revert Hloop. generalize (S (String.length rest)). intros fuel.
    cbn [parseText_loop]. unfold Peek. cbn [buf take_string].
    rewrite Heol, Hbs. unfold is_brace. rewrite Hl, Hr. cbn [orb].
    destruct (ReadRune _) as [[rd1 br] err] eqn:Hrr.
    destruct err.
    { unfold ReadRune in Hrr. cbn [buf] in Hrr.
      destruct (byteZ c <? 128); [discriminate|].
      destruct (utf8.DecodeRune _); discriminate. }
    intros H. apply parseText_loop_grows in H.
    rewrite string_length_app in H.
    pose proof (EncodeRune_nonempty br). lia. }
  destruct (Z.ltb_spec 0 (string_len buffer')) as [_|H0];
    [reflexivity|unfold string_len in H0; lia].
Qed.

End TokenizerMore.


(** *** Runs of text *)

Section TextRuns.
Import Tree Bufio Structure.

Lemma string_app_String c (a b : string) : String c a ++ b = String c (a ++ b).
Proof. reflexivity. Qed.

Lemma string_app_nil_r (s : string) : s ++ EmptyString = s.
Proof. induction s as [|c s IH]; [done|]. by rewrite string_app_String, IH. Qed.

Lemma string_app_assoc (a b c : string) : a ++ (b ++ c) = (a ++ b) ++ c.
Proof. induction a as [|x a IH]; [done|]. by rewrite !string_app_String, IH. Qed.

Lemma string_app_cons (a : string) c t :
  a ++ String c t = (a ++ String c EmptyString) ++ t.
Proof. by rewrite <- string_app_assoc. Qed.

Lemma byte_of_Z_byteZ c : byte_of_Z (byteZ c) = c.
Proof.
  unfold byte_of_Z, byteZ. pose proof (N_ascii_bounded c).
  rewrite Z.mod_small by lia. rewrite N2Z.id. apply ascii_N_embedding.
Qed.

Lemma EncodeRune_ascii c : byteZ c < 0x80 -> utf8.EncodeRune (byteZ c) = String c EmptyString.
Proof.
  intros Hc. unfold utf8.EncodeRune.
  assert (0 <= byteZ c) by (unfold byteZ; lia).
  destruct (Z.leb_spec 0 (byteZ c)); [|lia].
  destruct (Z.leb_spec (byteZ c) 0x7F); [|lia].
  cbn [andb]. by rewrite byte_of_Z_byteZ.
Qed.

Lemma text_stop_loop fuel lb rest buffer :
  text_stop rest = true ->
  parseText_loop (S fuel) (mkReader lb rest) buffer = Some (mkReader None rest, buffer).
Proof.
  intros Hs. cbn [parseText_loop]. unfold Peek. cbn [buf].
  destruct rest as [|c r]; [done|]. cbn [take_string].
  cbn [text_stop] in Hs.
  destruct (is_brace c) eqn:Hb.
  - assert (is_eol c = false) as ->.
    { unfold is_brace, is_eol in *.
      destruct (Ascii.eqb_spec c LBRACE) as [->|]; [done|].
      destruct (Ascii.eqb_spec c RBRACE) as [->|]; [done|]. done. }
    assert (Ascii.eqb c BACKSLASH = false) as ->.
    { unfold is_brace in *.
      destruct (Ascii.eqb_spec c LBRACE) as [->|]; [done|].
      destruct (Ascii.eqb_spec c RBRACE) as [->|]; [done|]. done. }
    done.
  - cbn [orb] in Hs. apply andb_prop in Hs as [Hbs Hr].
    apply Ascii.eqb_eq in Hbs. subst c.
    replace (is_eol BACKSLASH) with false by reflexivity.
    replace (Ascii.eqb BACKSLASH BACKSLASH) with true by reflexivity.
    destruct r as [|c1 r1]; [discriminate|]. cbn [take_string].
    unfold is_brace in Hr. rewrite !negb_orb in Hr.
    apply andb_prop in Hr as [Hr H3]. apply andb_prop in Hr as [H1 H2].
    by rewrite H2, H1, H3.
Qed.

Lemma parseText_loop_run fuel : forall s lb buffer t rest,
  text_run s = Some t -> text_stop rest = true ->
  (String.length (s ++ rest) < fuel)%nat ->
  parseText_loop fuel (mkReader lb (s ++ rest)) buffer
  = Some (mkReader None rest, buffer ++ t).
Proof.
  induction fuel as [|fuel IH]; intros s lb buffer t rest Hrun Hstop Hf; [lia|].
  destruct s as [|c r].
  - injection Hrun as <-. rewrite string_app_nil_r. by apply text_stop_loop.
  - change (String c r ++ rest) with (String c (r ++ rest)) in *.
    cbn [String.length] in Hf.
    cbn [parseText_loop]. unfold Peek. cbn [buf take_string].
    cbn [text_run] in Hrun.
    destruct (is_eol c) eqn:Heol.
    { unfold ReadByte. cbn [buf]. apply IH; [done|done|lia]. }
    destruct (Ascii.eqb c BACKSLASH) eqn:Hbs.
    { destruct r as [|c1 r1]; [discriminate|].
      change (String c1 r1 ++ rest) with (String c1 (r1 ++ rest)) in *.
      cbn [String.length] in Hf. cbn [take_string].
      destruct (is_brace c1 || Ascii.eqb c1 BACKSLASH) eqn:Hesc; [|discriminate].
      destruct (text_run r1) as [t1|] eqn:Hr1; [|discriminate].
      injection Hrun as <-.
      assert (negb (Ascii.eqb c1 RBRACE) && negb (Ascii.eqb c1 LBRACE)
              && negb (Ascii.eqb c1 BACKSLASH) = false) as ->.
      { unfold is_brace in Hesc.
        destruct (Ascii.eqb c1 RBRACE), (Ascii.eqb c1 LBRACE), (Ascii.eqb c1 BACKSLASH);
          done. }
      unfold ReadByte. cbn [buf].
      rewrite (IH r1 _ _ t1 rest Hr1 Hstop) by lia.
      rewrite (string_app_cons buffer c (String c1 t1)).
      by rewrite (string_app_cons (buffer ++ String c EmptyString) c1 t1). }
    destruct (is_brace c) eqn:Hbr; [discriminate|].
    unfold ReadRune. cbn [buf].
    change 128 with 0x80. destruct (Z.ltb_spec (byteZ c) 0x80) as [Hlow|Hhigh].
    + destruct (text_run r) as [t1|] eqn:Hr1; [|discriminate].
      injection Hrun as <-.
      cbn [take_string drop_string last_char].
      rewrite EncodeRune_ascii by done.
      rewrite (IH r _ _ t1 rest Hr1 Hstop) by lia.
      by rewrite (string_app_cons buffer c t1).
    + destruct (utf8.lead (byteZ c)) eqn:Hlead; [discriminate|].
      destruct (text_run r) as [t1|] eqn:Hr1; [|discriminate].
      injection Hrun as <-.
      unfold utf8.DecodeRune.
      destruct (Z.ltb_spec (byteZ c) 0x80); [lia|]. rewrite Hlead.
      cbn [take_string drop_string last_char].
      rewrite (IH r _ _ t1 rest Hr1 Hstop) by lia.
      by rewrite string_app_assoc.
Qed.

(** X12. [parseText] takes a run of text byte for byte: CR and LF
    are dropped, an escaped brace or backslash is kept together with its
    backslash, every other byte below 0x80 is kept, and a byte from 0x80 on
    that cannot begin a UTF-8 sequence is replaced by the bytes EF BF BD.
    The run ends at the end of the input, at a brace, or at a backslash that
    starts a control word or symbol, and is appended to the current group as
    one text token when it is not empty. *)
Theorem parseText_text_run (o : RtfStructure) (s rest t : string)
    (g : list rtfElement) (parents : list (list rtfElement)) :
  buf (reader o) = s ++ rest -> text_run s = Some t -> text_stop rest = true ->
  path o = g :: parents ->
  Structure.parseText o
  = Ret (mkS (mkReader None rest) (closed o) (with_text t g :: parents) (uc o)).
Proof.
  intros Hbuf Hrun Hstop Hp. unfold Structure.parseText.
  destruct (reader o) as [lb b] eqn:Hrd. cbn [buf] in *. subst b.
  rewrite (parseText_loop_run _ s lb EmptyString t rest Hrun Hstop) by lia.
  change (EmptyString ++ t) with t. unfold with_text.
  destruct t as [|c t]; cbn.
  - unfold with_reader. by rewrite Hp.
  - unfold addChild. cbn. by rewrite Hp.
Qed.

(** The theorem at [sample_run] before a closing brace; and the document
    [doc_text_run]. *)
Lemma parseText_text_run_witness :
  Structure.parseText (mkS (NewReader (sample_run ++ "}")) None [[]] [1])
  = Ret (mkS (mkReader None "}") None [[rtfText sample_run_text]] [1]) /\
  exists o', ParseBytes doc_text_run = Ret o' /\
             Root o' = Some [rtfText sample_run_text].
Proof.
  split.
  - apply (parseText_text_run (mkS (NewReader (sample_run ++ "}")) None [[]] [1])
             sample_run "}" sample_run_text [] []); reflexivity.
  - eexists. split; vm_compute; reflexivity.
Defined.

End TextRuns.


(** *** Control words *)

Section ControlWords.
Import Tree Bufio Structure.

Lemma read_while_app P : forall w s,
  all_bytes P w = true ->
  match s with String c _ => P c = false | EmptyString => True end ->
  read_while P (w ++ s) = (w, s).
Proof.
  induction w as [|c w IH]; intros s Hw Hs.
  - change (EmptyString ++ s) with s. destruct s as [|c s]; [done|].
    cbn. by rewrite Hs.
  - rewrite string_app_String. cbn in Hw. apply andb_prop in Hw as [Hc Hw].
    cbn [read_while]. rewrite Hc, (IH s Hw Hs). done.
Qed.

Lemma parameter_value p :
  (if 0 <? string_len p
   then match Atoi p with Some v => v | None => 1 end else 1)
  = GetIntParameter p.
Proof. unfold GetIntParameter. by destruct p. Qed.

Lemma store_top {A} (l : list A) x :
  l <> [] -> store l (len l - 1) x = Some (<[Nat.pred (length l) := x]> l).
Proof.
  intros Hl. unfold store, len. destruct l as [|a l]; [done|]. cbn [length].
  destruct (Z.leb_spec 0 (Z.of_nat (S (length l)) - 1)); [|lia].
  destruct (Z.ltb_spec (Z.of_nat (S (length l)) - 1) (Z.of_nat (S (length l)))); [|lia].
  cbn [andb]. do 2 f_equal. lia.
Qed.

(** What is read after the letters: the sign, the digits, the space. *)
Lemma read_parameter p rest :
  is_numeric p = true -> delimits p rest = true ->
  exists sign digits rd1,
    p = sign ++ digits /\
    (let '(rd, bp, err) := Peek 1 (mkReader None (p ++ rest)) in
     if negb err && Ascii.eqb (first_byte bp) MINUS then
       let '(rd, _, err) := ReadByte rd in
       (rd, if err then EmptyString else "-")
     else (rd, EmptyString)) = (rd1, sign) /\
    read_while Utils.ByteIsDigit (buf rd1) = (digits, rest).
Proof.
  intros Hnum Hdel.
  assert (Hrest : match rest with
                  | String c _ => Utils.ByteIsDigit c = false
                  | EmptyString => True
                  end).
  { destruct rest as [|c r]; [done|]. cbn [delimits String.eqb] in Hdel.
    apply andb_prop in Hdel as [Hd _]. by destruct (Utils.ByteIsDigit c). }
  destruct p as [|c0 p'].
  - exists EmptyString, EmptyString, (mkReader None rest).
    split; [done|]. change (EmptyString ++ rest) with rest.
    unfold Peek. cbn [buf]. destruct rest as [|c r]; [done|].
    cbn [take_string String.length Nat.ltb Nat.leb negb andb first_byte].
    cbn [delimits String.eqb] in Hdel. apply andb_prop in Hdel as [_ Hdel].
    apply andb_prop in Hdel as [_ Hm].
    destruct (Ascii.eqb c MINUS); [discriminate|].
    split; [done|]. cbn [buf]. apply (read_while_app _ EmptyString); done.
  - rewrite string_app_String. unfold Peek. cbn [buf].
    cbn [take_string String.length Nat.ltb Nat.leb negb andb first_byte].
    cbn [is_numeric] in Hnum.
    destruct (Ascii.eqb c0 MINUS) eqn:Hm.
    + apply Ascii.eqb_eq in Hm. subst c0.
      exists "-", p', (mkReader (Some MINUS) (p' ++ rest)).
      split; [done|]. split; [done|]. cbn [buf]. by apply read_while_app.
    + exists EmptyString, (String c0 p'), (mkReader None (String c0 (p' ++ rest))).
      split; [done|]. split; [done|]. cbn [buf].
      rewrite <- string_app_String. by apply read_while_app.
Qed.

(** X13. [parseControlWord] reads a control word greedily: the
    letters, then a minus sign and digits as the parameter, then one space,
    which is dropped; what follows is left for the next token.  The word is
    appended to the current group with its parameter as a string; [\ucN]
    also sets the top of the [uc] stack to N, to 1 when N is missing. *)
Theorem parseControlWord_token (o : RtfStructure) (w p rest : string)
    (g : list rtfElement) (parents : list (list rtfElement)) :
  buf (reader o) = w ++ p ++ rest ->
  all_bytes Utils.ByteIsAsciiLetter w = true ->
  is_numeric p = true -> delimits p rest = true ->
  String.eqb w "u" = false ->
  path o = g :: parents -> uc o <> [] ->
  Structure.parseControlWord o
  = Ret (mkS (after_delimiter rest) (closed o)
             ((g ++ [rtfControlWord w p])%list :: parents)
             (uc_after w p (uc o))).
Proof.
  intros Hbuf Hw Hnum Hdel Hu Hp Huc. unfold Structure.parseControlWord.
  rewrite Hbuf.
  assert (Hfirst : match p ++ rest with
                   | String c _ => Utils.ByteIsAsciiLetter c = false
                   | EmptyString => True
                   end).
  { destruct p as [|c0 p'].
    - change (EmptyString ++ rest) with rest. destruct rest as [|c r]; [done|].
      cbn [delimits String.eqb] in Hdel. apply andb_prop in Hdel as [_ Hdel].
      apply andb_prop in Hdel as [Hl _]. by destruct (Utils.ByteIsAsciiLetter c).
    - rewrite string_app_String. cbn [is_numeric] in Hnum.
      destruct (Ascii.eqb c0 MINUS) eqn:Hm.
      + apply Ascii.eqb_eq in Hm. by subst c0.
      + cbn [all_bytes] in Hnum. apply andb_prop in Hnum as [Hd _].
        revert Hd. clear. destruct c0 as [[] [] [] [] [] [] [] []]; by vm_compute. }
  rewrite (read_while_app _ w (p ++ rest) Hw Hfirst). cbv beta iota.
  destruct (read_parameter p rest Hnum Hdel) as (sign & digits & rd1 & Hpd & Hsign & Hdig).
  unfold Peek at 1. cbn [buf]. cbv beta iota.
  unfold Peek in Hsign. cbn [buf] in Hsign. cbv beta iota in Hsign.
  rewrite Hsign, Hdig. cbv beta iota zeta. rewrite <- Hpd.
  rewrite parameter_value.
  assert (Hdelim : (let '(rd, bp, err) := Peek 1 (mkReader None rest) in
                    if negb err && Ascii.eqb (first_byte bp) SPACE
                    then fst (fst (ReadByte rd)) else rd) = after_delimiter rest).
  { unfold Peek, after_delimiter. cbn [buf]. destruct rest as [|c r]; [done|].
    cbn [take_string String.length Nat.ltb Nat.leb negb andb first_byte].
    by destruct (Ascii.eqb c SPACE). }
  unfold uc_after.
  destruct (String.eqb w "uc") eqn:Huc'.
  - rewrite store_top by done. cbn [mbind run_bind]. rewrite Hu.
    cbn [mbind run_bind]. unfold addChild. cbn [path with_reader with_uc].
    rewrite Hp. unfold Peek in *. cbn [buf] in *. by rewrite Hdelim.
  - cbn [mbind run_bind]. rewrite Hu.
    cbn [mbind run_bind]. unfold addChild. cbn [path with_reader].
    rewrite Hp. unfold Peek in *. cbn [buf] in *. by rewrite Hdelim.
Qed.

(** The theorem at [\uc2] followed by a space and text. *)
Lemma parseControlWord_token_witness :
  Structure.parseControlWord (mkS (NewReader "uc2 x}") None [[]] [1])
  = Ret (mkS (mkReader (Some SPACE) "x}") None [[rtfControlWord "uc" "2"]] [2]).
Proof.
  apply (parseControlWord_token (mkS (NewReader "uc2 x}") None [[]] [1])
           "uc" "2" " x}" [] []); try reflexivity.
  discriminate.
Defined.

(** X14. [parseControlSymbol] on an escaped line end appends
    the control word [\par], taking a second CR or LF with the first, unless
    the line end is the last byte of the input: then it appends nothing.  On
    any other byte but the apostrophe it appends the control symbol of that
    byte, with an empty parameter, and reads nothing more. *)
Theorem parseControlSymbol_token (o : RtfStructure) (c : ascii) (rest : string)
    (g : list rtfElement) (parents : list (list rtfElement)) :
  buf (reader o) = String c rest -> path o = g :: parents ->
  (is_eol c = true ->
   Structure.parseControlSymbol o
   = Ret (match rest with
          | EmptyString => mkS (mkReader None rest) (closed o) (g :: parents) (uc o)
          | String c1 r1 =>
              mkS (if is_eol c1 then mkReader (Some c1) r1 else mkReader None rest)
                  (closed o) ((g ++ [rtfControlWord "par" EmptyString])%list :: parents)
                  (uc o)
          end)) /\
  (is_eol c = false -> Ascii.eqb c APOSTROPHE = false ->
   Structure.parseControlSymbol o
   = Ret (mkS (mkReader (Some c) rest) (closed o)
              ((g ++ [rtfControlSymbol (string_of_byte c) EmptyString])%list :: parents)
              (uc o))).
Proof.
  intros Hbuf Hp.
  split; intros Heol; unfold Structure.parseControlSymbol, ReadByte at 1;
    rewrite Hbuf; cbv beta iota.
  - rewrite Heol. unfold Peek. cbn [buf]. cbv beta iota.
    destruct rest as [|c1 r1];
      cbn [take_string String.length Nat.ltb Nat.leb Nat.eqb first_byte andb].
    + unfold with_reader. by rewrite Hp.
    + unfold addChild. cbn [path with_reader]. rewrite Hp.
      unfold ReadByte. cbn [buf fst]. by destruct (is_eol c1).
  - intros Hq. rewrite Heol, Hq.
    unfold addChild. cbn [path with_reader]. by rewrite Hp.
Qed.

(** The theorem at an escaped CR LF pair, and at [\~]. *)
Lemma parseControlSymbol_token_witness :
  Structure.parseControlSymbol
    (mkS (NewReader (String chr_CR (String chr_LF "x}"))) None [[]] [1])
  = Ret (mkS (mkReader (Some chr_LF) "x}") None
             [[rtfControlWord "par" EmptyString]] [1]) /\
  Structure.parseControlSymbol (mkS (NewReader "~x}") None [[]] [1])
  = Ret (mkS (mkReader (Some "~"%char) "x}") None
             [[rtfControlSymbol "~" EmptyString]] [1]).
Proof.
  split.
  - apply (parseControlSymbol_token
             (mkS (NewReader (String chr_CR (String chr_LF "x}"))) None [[]] [1])
             chr_CR (String chr_LF "x}") [] []); reflexivity.
  - apply (parseControlSymbol_token (mkS (NewReader "~x}") None [[]] [1])
             "~"%char "x}" [] []); reflexivity.
Defined.

(** The counter of the loop that follows a [\u], at the least [int]: the
    first [uc--] wraps around to the greatest, and the loop takes all there
    is up to the brace, where with a count of 1 it takes one unit. *)
Lemma skip_counter_wraps :
  (exists o, ParseBytes "{\uc-9223372036854775808\u1 abc}" = Ret o /\
             Root o = Some [rtfControlWord "uc" "-9223372036854775808";
                            rtfControlWord "u" "1"]) /\
  (exists o, ParseBytes "{\uc1\u1 abc}" = Ret o /\
             Root o = Some [rtfControlWord "uc" "1"; rtfControlWord "u" "1";
                            rtfText "bc"]).
Proof. split; eexists; split; vm_compute; reflexivity. Qed.

End ControlWords.


(* ===================================================================== *)
(** ** Further properties: the HTML-encapsulated interpreter *)
(* ===================================================================== *)

Section InterpMore.
Import Tree Structure Interp.
Variable decoder_Bytes : Utils.Decoder -> string -> string.

Lemma advances_refl p : advances p p.
Proof. split; [exists EmptyString; by rewrite string_app_nil_r|done]. Qed.

Lemma advances_trans p q r : advances p q -> advances q r -> advances p r.
Proof.
  intros [[s Hs] Hd] [[s' Hs'] Hd']. split; [|congruence].
  exists (s ++ s'). by rewrite Hs', Hs, string_app_assoc.
Qed.

Lemma advances_same p q :
  content q = content p -> insideHtmlTagGroup q = insideHtmlTagGroup p ->
  advances p q.
Proof. intros Hc Hd. split; [exists EmptyString; by rewrite string_app_nil_r|done]. Qed.

Lemma advances_write s p : advances p (WriteString s p).
Proof. split; [by exists s|done]. Qed.

Lemma updateState_advances word value p p' :
  updateState word value p = Ret p' -> advances p p'.
Proof.
  unfold updateState. destruct (DetectWordState word).
  destruct (states _); [|discriminate]. intros [= <-]. by apply advances_same.
Qed.

Lemma parseControlWord_advances word parameter p p' :
  parseControlWord word parameter p = Ret p' -> advances p p'.
Proof.
  unfold parseControlWord.
  repeat case_match; intros Hres;
    first [ by apply updateState_advances in Hres
          | injection Hres as <-;
            first [ apply advances_refl
                  | apply advances_write
                  | by apply advances_same
                  | eapply advances_trans; [eapply advances_trans|];
                    apply advances_write ] ].
Qed.

Lemma parseControlSymbol_advances symbol parameter p :
  advances p (parseControlSymbol decoder_Bytes symbol parameter p).
Proof.
  unfold parseControlSymbol.
  repeat case_match;
    first [ apply advances_refl | apply advances_write
          | eapply advances_trans; apply advances_write ].
Qed.

Lemma parseText_advances text p : advances p (parseText decoder_Bytes text p).
Proof. unfold parseText. case_match; [apply advances_refl|apply advances_write]. Qed.

Lemma only_tables_refl p : only_tables p p.
Proof. unfold only_tables. by destruct p. Qed.

Lemma only_tables_trans p q r : only_tables p q -> only_tables q r -> only_tables p r.
Proof.
  unfold only_tables. intros Hq Hr. rewrite Hr at 1. rewrite Hq at 1. by destruct p.
Qed.

Lemma only_tables_font ft p : only_tables p (with_fontTable ft p).
Proof. unfold only_tables. by destruct p. Qed.

Lemma only_tables_color ct p : only_tables p (with_colorTable ct p).
Proof. unfold only_tables. by destruct p. Qed.

Lemma only_tables_advances p q : only_tables p q -> advances p q.
Proof. intros ->. by apply advances_same. Qed.

Lemma parseFontInfo_child_only_tables acc child :
  only_tables acc.1 (parseFontInfo_child acc child).1.
Proof.
  destruct acc as [p fontIdx]. unfold parseFontInfo_child, alter_font.
  repeat case_match; cbn [fst];
    first [apply only_tables_refl | apply only_tables_font].
Qed.

Lemma parseFontInfoGroup_only_tables children p :
  only_tables p (parseFontInfoGroup children p).
Proof.
  unfold parseFontInfoGroup. generalize 0 as fontIdx.
  revert p. induction children as [|c cs IH]; intros p fontIdx;
    [apply only_tables_refl|].
  cbn [fold_left].
  pose proof (parseFontInfo_child_only_tables (p, fontIdx) c) as H1.
  destruct (parseFontInfo_child (p, fontIdx) c) as [p1 i1].
  eapply only_tables_trans; [exact H1|apply IH].
Qed.

Lemma parseFontTableGroup_only_tables children p :
  only_tables p (parseFontTableGroup children p).
Proof.
  unfold parseFontTableGroup.
  eapply only_tables_trans; [apply (only_tables_font ∅)|].
  generalize (with_fontTable ∅ p). clear p.
  induction children as [|c cs IH]; intros p; [apply only_tables_refl|].
  cbn [fold_left]. eapply only_tables_trans; [|apply IH].
  destruct c as [g| | |]; try apply only_tables_refl.
  destruct (IsFontInfo g);
    [apply parseFontInfoGroup_only_tables|apply only_tables_refl].
Qed.

Lemma parseColorTableGroup_only_tables children p :
  only_tables p (parseColorTableGroup children p).
Proof.
  unfold parseColorTableGroup. destruct (negb _); [apply only_tables_refl|].
  generalize (mkColor 0 0 0) as color.
  revert p. induction children as [|c cs IH]; intros p color;
    [apply only_tables_refl|].
  cbn [fold_left].
  destruct (parseColorTable_child (p, color) c) as [p1 c1] eqn:H1.
  eapply only_tables_trans; [|apply IH].
  unfold parseColorTable_child in H1.
  repeat case_match; injection H1 as <- <-;
    first [apply only_tables_refl | apply only_tables_color].
Qed.

Lemma range_parse_advances children : forall p p',
  Forall (fun item => forall q q', 0 <= insideHtmlTagGroup q ->
            parseElement decoder_Bytes item q = Ret q' -> advances q q') children ->
  0 <= insideHtmlTagGroup p ->
  range_parse (parseElement decoder_Bytes) children p = Ret p' -> advances p p'.
Proof.
  induction children as [|c cs IH]; intros p p' Hall Hd; cbn [range_parse].
  { intros [= <-]. apply advances_refl. }
  inversion Hall as [|? ? Hc Hcs]; subst.
  destruct (parseElement decoder_Bytes c p) as [p1| |] eqn:H1;
    cbn [mbind run_bind]; [|discriminate..].
  intros H2. pose proof (Hc p p1 Hd H1) as Ha.
  eapply advances_trans; [exact Ha|].
  apply IH; [done| |done]. destruct Ha as [_ ->]. done.
Qed.

Lemma parseGroup_with_advances children p p' :
  Forall (fun item => forall q q', 0 <= insideHtmlTagGroup q ->
            parseElement decoder_Bytes item q = Ret q' -> advances q q') children ->
  0 <= insideHtmlTagGroup p ->
  parseGroup_with (parseElement decoder_Bytes) children p = Ret p' ->
  advances p p'.
Proof.
  intros Hall Hd. unfold parseGroup_with.
  match goal with |- context [match ?e with pair _ _ => _ end] =>
    destruct e as [[isTag isStart] p0] eqn:Hpre end.
  assert (H0 : content p0 = content p /\
               insideHtmlTagGroup p0 = insideHtmlTagGroup p).
  { repeat case_match; by injection Hpre as <- <- <-. }
  clear Hpre. destruct H0 as [H0c H0d].
  set (p1 := if isTag then _ else p0).
  assert (H1 : content p1 = content p /\
               insideHtmlTagGroup p1
               = insideHtmlTagGroup p + (if isTag then 1 else 0)).
  { subst p1. destruct isTag; cbn; split; first [done | lia]. }
  clearbody p1. clear H0c H0d p0. destruct H1 as [H1c H1d].
  assert (Hd1 : 0 <= insideHtmlTagGroup p1) by (destruct isTag; lia).
  match goal with |- context [mbind ?k ?m] => set (mid := m) end.
  assert (Hmid : forall p2, mid = Ret p2 -> advances p1 p2).
  { subst mid. intros p2.
    destruct (IsFontTable children).
    { intros [= <-]. apply only_tables_advances, parseFontTableGroup_only_tables. }
    destruct (IsColorTable children).
    { intros [= <-]. apply only_tables_advances, parseColorTableGroup_only_tables. }
    destruct (_ || _).
    { intros [= <-]. apply advances_refl. }
    cbv zeta.
    match goal with |- context [range_parse _ _ ?q] => set (q0 := q) end.
    assert (Hq0 : advances p1 q0).
    { subst q0. apply advances_same; cbn; by destruct (_ =? _). }
    destruct (range_parse _ children q0) as [p3| |] eqn:Hr;
      cbn [mbind run_bind]; [|discriminate..].
    apply range_parse_advances in Hr; [|done|by destruct Hq0 as [_ ->]].
    destruct (index _ _) as [saved|]; [|discriminate].
    intros [= <-].
    eapply advances_trans; [exact Hq0|].
    eapply advances_trans; [exact Hr|].
    apply advances_same; by destruct isStart. }
  destruct mid as [p2| |]; cbn [mbind run_bind]; [|discriminate..].
  specialize (Hmid p2 eq_refl). destruct Hmid as [[s Hs] Hd2].
  intros [= <-]. split.
  - exists s. rewrite <- H1c, <- Hs. destruct isTag; [|done].
    cbv zeta. by destruct (_ <? _).
  - destruct isTag; [|lia]. cbv zeta. cbn [insideHtmlTagGroup with_insideHtmlTagGroup].
    destruct (Z.ltb_spec (insideHtmlTagGroup p2 - 1) 0); cbn; lia.
Qed.

(** X15. The walk of any element, from an interpreter whose
    depth in htmltag groups is not negative, only appends to the output
    and comes back at the depth it started from: nothing already written is
    changed or withdrawn, and a group that raises the depth lowers it
    again. *)
Theorem parseElement_advances (item : rtfElement)
    (p p' : rtfHtmlEncapsulatedInterpreter) :
  0 <= insideHtmlTagGroup p ->
  parseElement decoder_Bytes item p = Ret p' ->
  (exists s, content p' = content p ++ s) /\
  insideHtmlTagGroup p' = insideHtmlTagGroup p.
Proof.
  revert p p'.
  induction item as [children IH|word parameter|symbol parameter|text]
    using rtfElement_tree_ind; intros p p' Hd; cbn [parseElement].
  - intros H. by apply (parseGroup_with_advances children p p').
  - apply parseControlWord_advances.
  - intros [= <-]. apply parseControlSymbol_advances.
  - intros [= <-]. apply parseText_advances.
Qed.

End InterpMore.

Section InterpMoreAt.
Import Tree Structure Interp.

(** The theorem at the group [{\*\htmltag64 <p>}], met after [a] has been
    written. *)
Lemma parseElement_advances_witness :
  0 <= insideHtmlTagGroup (WriteString "a" inside_first_group) /\
  parseElement (fun _ s => s) (htmltag_group "64" "<p>")
    (WriteString "a" inside_first_group)
  = Ret (WriteString "a<p>" inside_first_group) /\
  (exists s, content (WriteString "a<p>" inside_first_group)
             = content (WriteString "a" inside_first_group) ++ s) /\
  insideHtmlTagGroup (WriteString "a<p>" inside_first_group)
  = insideHtmlTagGroup (WriteString "a" inside_first_group).
Proof.
  split; [vm_compute; discriminate|]. split; [vm_compute; reflexivity|].
  apply (parseElement_advances (fun _ s => s) (htmltag_group "64" "<p>")
           (WriteString "a" inside_first_group)
           (WriteString "a<p>" inside_first_group)).
  - vm_compute; discriminate.
  - vm_compute; reflexivity.
Defined.
End InterpMoreAt.


(** *** The kinds of group *)

Section GroupKinds.
Import Tree Structure Interp.
Variable decoder_Bytes : Utils.Decoder -> string -> string.

(** The child at an index is one token: it cannot be two different words. *)
Lemma CheckChildAtIndex_one children idx w1 w2 :
  CheckChildAtIndex children idx w1 = true -> w1 <> w2 ->
  CheckChildAtIndex children idx w2 = false.
Proof.
  unfold CheckChildAtIndex. destruct (children !! idx) as [[| w v | s v |]|]; try done.
  - intros H1 Hne. apply String.eqb_eq in H1. subst w. by apply String.eqb_neq.
  - intros H1 Hne. apply String.eqb_eq in H1. subst s. by apply String.eqb_neq.
Qed.

(** X16. The tests of a group's kind that look at the same
    child exclude each other: a group cannot be two of destination, rtf
    group, font table, style sheet, list tables, info, color table and font
    info at once, and the tests are false on a group without children; a
    file table or a font alternative is a destination.  So the order in
    which [parseGroup] asks does not matter. *)
Theorem group_kinds_exclusive (children : list rtfElement) (w1 w2 : string) :
  (w1 <> w2 ->
   CheckChildAtIndex children 0 w1 && CheckChildAtIndex children 0 w2 = false) /\
  (forall w, CheckChildAtIndex [] 0 w = false) /\
  (IsFilesTable children = true -> IsDestination children = true) /\
  (IsFontAlternative children = true -> IsDestination children = true) /\
  (IsDestination children = true ->
   IsFontTable children = false /\ IsColorTable children = false /\
   IsStylesheet children = false /\ IsInfo children = false /\
   IsListtables children = false /\ IsFontInfo children = false /\
   IsRtfGroup children = false).
Proof.
  split; [|split; [done|split; [|split]]].
  - intros Hne. destruct (CheckChildAtIndex children 0 w1) eqn:H1; [|done].
    by rewrite (CheckChildAtIndex_one _ _ _ _ H1 Hne).
  - unfold IsFilesTable. by intros [? _]%andb_prop.
  - unfold IsFontAlternative. by intros [? _]%andb_prop.
  - unfold IsDestination, IsFontTable, IsColorTable, IsStylesheet, IsInfo,
      IsListtables, IsFontInfo, IsRtfGroup.
    intros H. repeat split; by apply (CheckChildAtIndex_one _ _ _ _ H).
Qed.

(** The first part of [parseGroup] on a group that is no htmltag
    destination: nothing is found. *)
Lemma not_htmltag_pre children (p : rtfHtmlEncapsulatedInterpreter) :
  IsDestination children = false \/ CheckChildAtIndex children 1 "htmltag" = false ->
  (if IsDestination children && (2 <=? len children) then
     match children !! 1%nat with
     | Some (rtfControlWord word parameter) =>
         if String.eqb word "htmltag" then
           let isStartBodyTag :=
             negb (bodyStarted p) && (GetIntParameter parameter =? 50) in
           let p :=
             if GetIntParameter parameter =? 58 then with_bodyStopped true p
             else p in
           (true, isStartBodyTag, p)
         else (false, false, p)
     | _ => (false, false, p)
     end
   else (false, false, p)) = (false, false, p).
Proof.
  intros [H|H]; [by rewrite H|].
  destruct (IsDestination children && _); [|done].
  unfold CheckChildAtIndex in H.
  destruct (children !! 1%nat) as [[| w v | |]|]; try done. by rewrite H.
Qed.

Lemma ignored_not_htmltag children :
  ignored children = true ->
  (IsDestination children = false \/ CheckChildAtIndex children 1 "htmltag" = false) /\
  IsFontTable children = false /\ IsColorTable children = false.
Proof.
  unfold ignored, IsStylesheet, IsTrackChanges, IsInfo, IsListtables, IsFilesTable,
    IsDestination, IsFontTable, IsColorTable.
  intros H.
  assert (Hc : (exists w, CheckChildAtIndex children 0 w = true /\ w <> "*" /\
                          w <> "fonttbl" /\ w <> "colortbl") \/
               (CheckChildAtIndex children 0 "*" = true /\
                exists w, CheckChildAtIndex children 1 w = true /\ w <> "htmltag")).
  { repeat (apply orb_prop in H as [H|H]).
    - left. by exists "stylesheet".
    - apply andb_prop in H as [H1 H2]. right. split; [done|]. by exists "revtbl".
    - left. by exists "revtbl".
    - left. by exists "info".
    - left. by exists "listtables".
    - apply andb_prop in H as [H1 H2]. right. split; [done|]. by exists "filetbl". }
  destruct Hc as [(w & Hw & H1 & H2 & H3)|(Hd & w & Hw & H1)].
  - rewrite (CheckChildAtIndex_one _ _ _ "*" Hw H1).
    rewrite (CheckChildAtIndex_one _ _ _ "fonttbl" Hw H2).
    rewrite (CheckChildAtIndex_one _ _ _ "colortbl" Hw H3). auto.
  - rewrite (CheckChildAtIndex_one _ _ _ "htmltag" Hw H1).
    rewrite (CheckChildAtIndex_one _ _ _ "fonttbl" Hd) by done.
    rewrite (CheckChildAtIndex_one _ _ _ "colortbl" Hd) by done. auto.
Qed.

(** X17. [parseGroup] passes over a style sheet, a group of
    tracked changes, the document information, the list tables and the file
    table: it returns with the interpreter exactly as it was, whatever the
    group holds, and without a panic. *)
Theorem parseGroup_ignored (children : list rtfElement)
    (p : rtfHtmlEncapsulatedInterpreter) :
  ignored children = true -> parseGroup decoder_Bytes children p = Ret p.
Proof.
  intros H. destruct (ignored_not_htmltag children H) as (Hpre & Hf & Hc).
  unfold parseGroup, parseGroup_with.
  match goal with |- context [match ?e with pair _ _ => _ end] =>
    assert (He : e = (false, false, p)) by (by apply not_htmltag_pre);
    rewrite He end.
  rewrite Hf, Hc. unfold ignored in H. by rewrite H.
Qed.


End GroupKinds.

Section GroupKindsAt.
Import Tree Structure Interp.

(** The theorem at an information group with a nested group in it. *)
Lemma parseGroup_ignored_witness :
  parseGroup (fun _ s => s)
    [rtfControlWord "info" EmptyString;
     rtfGroup [rtfControlWord "title" EmptyString; rtfText "T"]] fresh
  = Ret fresh.
Proof.
  apply (parseGroup_ignored (fun _ s => s)
           [rtfControlWord "info" EmptyString;
            rtfGroup [rtfControlWord "title" EmptyString; rtfText "T"]] fresh).
  reflexivity.
Defined.
End GroupKindsAt.


(** *** The font table and the color table *)

Section Tables.
Import Tree Structure Interp.
Variable decoder_Bytes : Utils.Decoder -> string -> string.

Lemma first_child_not_htmltag children w :
  CheckChildAtIndex children 0 w = true -> w <> "*" ->
  IsDestination children = false \/ CheckChildAtIndex children 1 "htmltag" = false.
Proof. intros Hw Hne. left. by apply (CheckChildAtIndex_one _ _ _ _ Hw). Qed.

Lemma colors_fold children : forall p color,
  exists new,
    (fold_left parseColorTable_child children (p, color)).1
    = with_colorTable (colorTable p ++ new)%list p /\
    length new = text_count children.
Proof.
  induction children as [|c cs IH]; intros p color.
  { exists []. rewrite app_nil_r. split; [by destruct p|done]. }
  cbn [fold_left text_count].
  destruct c as [g|w v|s v|t].
  - apply IH.
  - unfold parseColorTable_child at 2. repeat case_match; apply IH.
  - apply IH.
  - unfold parseColorTable_child at 2.
    destruct (IH (with_colorTable (colorTable p ++ [color])%list p) (mkColor 0 0 0))
      as (new & Hn & Hl).
    exists (color :: new). rewrite Hn. cbn [colorTable with_colorTable length].
    rewrite <- app_assoc. split; [by destruct p|by rewrite Hl].
Qed.

(** X18. A color table group changes nothing but the color
    table, to which it appends one color for each text run among its
    children (the semicolons that end the entries): the colors an earlier
    table left are kept, so a second color table adds to the first. *)
Theorem parseGroup_color_table (children : list rtfElement)
    (p : rtfHtmlEncapsulatedInterpreter) :
  IsColorTable children = true ->
  exists new,
    parseGroup decoder_Bytes children p
    = Ret (with_colorTable (colorTable p ++ new)%list p) /\
    length new = text_count children.
Proof.
  intros Hc.
  destruct (colors_fold children p (mkColor 0 0 0)) as (new & Hn & Hl).
  exists new. split; [|done].
  unfold parseGroup, parseGroup_with.
  match goal with |- context [match ?e with pair _ _ => _ end] =>
    assert (He : e = (false, false, p))
      by (apply not_htmltag_pre; by apply (first_child_not_htmltag _ "colortbl"));
    rewrite He end.
  assert (IsFontTable children = false) as ->
    by (by apply (CheckChildAtIndex_one _ _ _ _ Hc)).
  rewrite Hc. cbn [mbind run_bind]. unfold parseColorTableGroup.
  rewrite Hc. cbn [negb]. by rewrite Hn.
Qed.

Lemma parseFontInfo_child_table p q i c :
  parseFontInfo_child (with_fontTable (fontTable p) q, i) c
  = (with_fontTable (fontTable (parseFontInfo_child (p, i) c).1) q,
     (parseFontInfo_child (p, i) c).2).
Proof.
  unfold parseFontInfo_child, alter_font.
  repeat case_match; by destruct p, q.
Qed.

Lemma parseFontInfo_fold_table children : forall p q i,
  fold_left parseFontInfo_child children (with_fontTable (fontTable p) q, i)
  = (with_fontTable
       (fontTable (fold_left parseFontInfo_child children (p, i)).1) q,
     (fold_left parseFontInfo_child children (p, i)).2).
Proof.
  induction children as [|c cs IH]; intros p q i.
  { cbn. done. }
  cbn [fold_left]. rewrite parseFontInfo_child_table.
  destruct (parseFontInfo_child (p, i) c) as [p1 i1]. cbn [fst snd].
  apply IH.
Qed.

Lemma with_fontTable_same p : with_fontTable (fontTable p) p = p.
Proof. by destruct p. Qed.

Lemma parseFontTable_fold_table children : forall p q,
  fold_left
    (fun p child =>
       match child with
       | rtfGroup cs => if IsFontInfo cs then parseFontInfoGroup cs p else p
       | _ => p
       end) children (with_fontTable (fontTable p) q)
  = with_fontTable
      (fontTable
         (fold_left
            (fun p child =>
               match child with
               | rtfGroup cs => if IsFontInfo cs then parseFontInfoGroup cs p else p
               | _ => p
               end) children p)) q.
Proof.
  induction children as [|c cs IH]; intros p q; [done|].
  cbn [fold_left].
  destruct c as [g|w v|s v|t]; try apply IH.
  destruct (IsFontInfo g); [|apply IH].
  unfold parseFontInfoGroup. rewrite parseFontInfo_fold_table. cbn [fst].
  apply IH.
Qed.

(** X19. A font table group changes nothing but the font table,
    which it builds anew from its font-info groups alone: what an earlier
    font table left is dropped, and the outcome does not depend on the
    interpreter the group is met in. *)
Theorem parseGroup_font_table (children : list rtfElement)
    (p q : rtfHtmlEncapsulatedInterpreter) :
  IsFontTable children = true ->
  parseGroup decoder_Bytes children p
  = Ret (with_fontTable (fontTable (parseFontTableGroup children q)) p).
Proof.
  intros Hf. unfold parseGroup, parseGroup_with.
  match goal with |- context [match ?e with pair _ _ => _ end] =>
    assert (He : e = (false, false, p))
      by (apply not_htmltag_pre; by apply (first_child_not_htmltag _ "fonttbl"));
    rewrite He end.
  rewrite Hf. cbn [mbind run_bind]. f_equal.
  unfold parseFontTableGroup.
  change (with_fontTable ∅ p)
    with (with_fontTable (fontTable (with_fontTable ∅ q)) p).
  by rewrite parseFontTable_fold_table.
Qed.

(** X20. What a font-info group records: [{\fN\family\fcharsetC
    Name;}] puts at index N (1 when N is missing or no number) a fresh
    entry with the charset C, the family word and the name without its
    closing semicolons, replacing what the index held; an alternative name
    group [{\*\falt Alt}] before the name is recorded next to it. *)
Theorem parseFontInfoGroup_entry (n fam c name alt : string)
    (p : rtfHtmlEncapsulatedInterpreter) :
  one_of fam font_families = true ->
  parseFontInfoGroup
    [rtfControlWord "f" n; rtfControlWord fam EmptyString;
     rtfControlWord "fcharset" c; rtfText name] p
  = with_fontTable
      (<[GetIntParameter n :=
           mkFont (GetIntParameter c) fam (TrimRight name ";") EmptyString]>
         (fontTable p)) p /\
  parseFontInfoGroup
    [rtfControlWord "f" n; rtfControlWord fam EmptyString;
     rtfControlWord "fcharset" c;
     rtfGroup [rtfControlSymbol "*" EmptyString;
               rtfControlWord "falt" EmptyString; rtfText alt];
     rtfText name] p
  = with_fontTable
      (<[GetIntParameter n :=
           mkFont (GetIntParameter c) fam (TrimRight name ";") alt]>
         (fontTable p)) p.
Proof.
  intros Hfam.
  assert (Hf : String.eqb fam "f" = false /\ String.eqb fam "fcharset" = false).
  { unfold one_of, font_families in Hfam. cbn [existsb] in Hfam.
    repeat (apply orb_prop in Hfam as [Hfam|Hfam];
            [apply String.eqb_eq in Hfam; subst fam; split; reflexivity|]).
    discriminate. }
  destruct Hf as [Hf1 Hf2].
  unfold font_families in Hfam.
  split; unfold parseFontInfoGroup; cbn [fold_left];
    unfold parseFontInfo_child; rewrite ?Hf1, ?Hfam;
    cbn [IsFontAlternative IsDestination CheckChildAtIndex one_of existsb orb
      lookup list_lookup String.eqb Ascii.eqb Bool.eqb andb fst];
    unfold alter_font; cbn [fontTable with_fontTable];
    rewrite !alter_insert_eq; by destruct p.
Qed.

End Tables.

Section TablesAt.
Import Tree Structure Interp.

(** The theorem at [{\colortbl;\red255\green0\blue0;}]. *)
Lemma parseGroup_color_table_witness :
  IsColorTable
    [rtfControlWord "colortbl" EmptyString; rtfText ";";
     rtfControlWord "red" "255"; rtfControlWord "green" "0";
     rtfControlWord "blue" "0"; rtfText ";"] = true /\
  exists new,
    parseGroup (fun _ s => s)
      [rtfControlWord "colortbl" EmptyString; rtfText ";";
       rtfControlWord "red" "255"; rtfControlWord "green" "0";
       rtfControlWord "blue" "0"; rtfText ";"] fresh
    = Ret (with_colorTable (colorTable fresh ++ new)%list fresh) /\
    length new = 2%nat.
Proof.
  split; [reflexivity|].
  apply (parseGroup_color_table (fun _ s => s)
           [rtfControlWord "colortbl" EmptyString; rtfText ";";
            rtfControlWord "red" "255"; rtfControlWord "green" "0";
            rtfControlWord "blue" "0"; rtfText ";"] fresh).
  reflexivity.
Defined.

(** The theorem at [{\fonttbl{\f0\fswiss\fcharset0 Arial;}}], met inside a
    first group and compared with the fresh interpreter. *)
Lemma parseGroup_font_table_witness :
  IsFontTable
    [rtfControlWord "fonttbl" EmptyString;
     rtfGroup [rtfControlWord "f" "0"; rtfControlWord "fswiss" EmptyString;
               rtfControlWord "fcharset" "0"; rtfText "Arial;"]] = true /\
  parseGroup (fun _ s => s)
    [rtfControlWord "fonttbl" EmptyString;
     rtfGroup [rtfControlWord "f" "0"; rtfControlWord "fswiss" EmptyString;
               rtfControlWord "fcharset" "0"; rtfText "Arial;"]]
    inside_first_group
  = Ret (with_fontTable
           (fontTable
              (parseFontTableGroup
                 [rtfControlWord "fonttbl" EmptyString;
                  rtfGroup [rtfControlWord "f" "0";
                            rtfControlWord "fswiss" EmptyString;
                            rtfControlWord "fcharset" "0"; rtfText "Arial;"]]
                 fresh))
           inside_first_group).
Proof.
  split; [reflexivity|].
  apply (parseGroup_font_table (fun _ s => s)
           [rtfControlWord "fonttbl" EmptyString;
            rtfGroup [rtfControlWord "f" "0"; rtfControlWord "fswiss" EmptyString;
                      rtfControlWord "fcharset" "0"; rtfText "Arial;"]]
           inside_first_group fresh).
  reflexivity.
Defined.

(** The theorem at [{\f0\fswiss\fcharset0 Arial;}]. *)
Lemma parseFontInfoGroup_entry_witness :
  one_of "fswiss" font_families = true /\
  parseFontInfoGroup
    [rtfControlWord "f" "0"; rtfControlWord "fswiss" EmptyString;
     rtfControlWord "fcharset" "0"; rtfText "Arial;"] fresh
  = with_fontTable {[0 := mkFont 0 "fswiss" "Arial" EmptyString]} fresh.
Proof.
  split; [reflexivity|].
  apply (parseFontInfoGroup_entry "0" "fswiss" "0" "Arial;" EmptyString fresh).
  reflexivity.
Defined.
End TablesAt.


(** *** What the interpreter writes for [\'HH], and the code pages *)

Section Emission.
Import Tree Structure Interp.
Variable decoder_Bytes : Utils.Decoder -> string -> string.

Lemma between_spec lo hi b :
  Utils.between (String lo EmptyString) (String hi EmptyString) b = true <->
  byteZ lo <= byteZ b <= byteZ hi.
Proof.
  unfold Utils.between. rewrite andb_true_iff, !Z.leb_le. tauto.
Qed.

Lemma digit_value_range c d : digit_value c = Some d -> 0 <= d < 36.
Proof.
  unfold digit_value.
  destruct (Utils.between "0" "9" c) eqn:H1;
    [apply between_spec in H1; intros [= <-]|].
  { change (byteZ "0") with 48 in H1. change (byteZ "9") with 57 in H1. lia. }
  destruct (Utils.between "a" "z" c) eqn:H2;
    [apply between_spec in H2; intros [= <-]|].
  { change (byteZ "a") with 97 in H2. change (byteZ "z") with 122 in H2. lia. }
  destruct (Utils.between "A" "Z" c) eqn:H3; [|discriminate].
  apply between_spec in H3. intros [= <-].
  change (byteZ "A") with 65 in H3. change (byteZ "Z") with 90 in H3. lia.
Qed.

Lemma digit_value_no_sign c d :
  digit_value c = Some d -> Ascii.eqb c "-" = false /\ Ascii.eqb c "+" = false.
Proof.
  intros H. split.
  - destruct (Ascii.eqb_spec c "-") as [->|]; [vm_compute in H; discriminate|done].
  - destruct (Ascii.eqb_spec c "+") as [->|]; [vm_compute in H; discriminate|done].
Qed.

Lemma byteZ_byte_of_Z v : 0 <= v < 256 -> byteZ (byte_of_Z v) = v.
Proof.
  intros Hv. unfold byteZ, byte_of_Z. rewrite Z.mod_small by lia.
  rewrite N_ascii_embedding by lia. lia.
Qed.

Lemma byte_of_Z_NUL v : 0 <= v < 256 -> Ascii.eqb (byte_of_Z v) chr_NUL = (v =? 0).
Proof.
  intros Hv. destruct (Z.eqb_spec v 0) as [->|Hne]; [reflexivity|].
  apply Ascii.eqb_neq. intros Heq. apply Hne.
  rewrite <- (byteZ_byte_of_Z v Hv), Heq. reflexivity.
Qed.

(** The two bytes of [PutUint16] for a value below 256, trimmed. *)
Lemma trimmed_bytes v :
  0 <= v < 256 ->
  TrimRight
    (String (byte_of_Z (Z.land (v mod 65536) 0xFF))
       (String (byte_of_Z (Z.shiftr (v mod 65536) 8)) EmptyString)) chr_NUL
  = hex_byte v.
Proof.
  intros Hv. rewrite (Z.mod_small v 65536) by lia.
  change 0xFF with (Z.ones 8). rewrite Z.land_ones by lia.
  rewrite Z.shiftr_div_pow2 by lia.
  change (2 ^ 8) with 256. rewrite Z.mod_small, Z.div_small by lia.
  cbn [TrimRight]. change (byte_of_Z 0) with chr_NUL.
  change (Ascii.eqb chr_NUL chr_NUL) with true.
  cbn [String.eqb andb]. rewrite byte_of_Z_NUL by done.
  unfold hex_byte. by destruct (v =? 0).
Qed.

Lemma ParseInt_hex2 h1 h2 d1 d2 :
  digit_value h1 = Some d1 -> digit_value h2 = Some d2 ->
  ParseInt (String h1 (String h2 EmptyString)) 16 16
  = if (d1 <? 16) && (d2 <? 16) then Some (16 * d1 + d2) else None.
Proof.
  intros H1 H2. unfold ParseInt.
  destruct (digit_value_no_sign _ _ H1) as [-> ->].
  pose proof (digit_value_range _ _ H1). pose proof (digit_value_range _ _ H2).
  cbn [digits_value]. rewrite H1, H2.
  destruct (Z.ltb_spec d1 16); [|done].
  destruct (Z.ltb_spec d2 16); [|done]. cbn [andb].
  replace ((0 * 16 + d1) * 16 + d2) with (16 * d1 + d2) by lia.
  change (2 ^ (16 - 1)) with 32768.
  assert ((- (32768) <=? 16 * d1 + d2) && (16 * d1 + d2 <=? 32768 - 1) = true)
    as -> by (apply andb_true_intro; split; apply Z.leb_le; lia).
  done.
Qed.

Lemma ParseInt_hex1 h d :
  digit_value h = Some d ->
  ParseInt (String h EmptyString) 16 16 = if d <? 16 then Some d else None.
Proof.
  intros H1. unfold ParseInt.
  destruct (digit_value_no_sign _ _ H1) as [-> ->].
  pose proof (digit_value_range _ _ H1).
  cbn [digits_value]. rewrite H1.
  destruct (Z.ltb_spec d 16); [|done].
  replace (0 * 16 + d) with d by lia.
  change (2 ^ (16 - 1)) with 32768.
  assert ((- (32768) <=? d) && (d <=? 32768 - 1) = true)
    as -> by (apply andb_true_intro; split; apply Z.leb_le; lia).
  done.
Qed.

(** X21. Outside a suppressed fragment, [\'HH] with two digits of
    base 16 writes the one byte of that value, decoded from the current
    encoding; [\'00] hands the decoder no byte at all.  The tokenizer also
    lets through a parameter with a letter beyond [f] and a parameter of
    one digit: the first writes nothing, the second writes the byte of the
    one digit. *)
Theorem parseControlSymbol_quote (h1 h2 : ascii) (d1 d2 : Z)
    (p : rtfHtmlEncapsulatedInterpreter) :
  htmlrtf_on p = false ->
  digit_value h1 = Some d1 -> digit_value h2 = Some d2 ->
  parseControlSymbol decoder_Bytes "'" (String h1 (String h2 EmptyString)) p
  = (if (d1 <? 16) && (d2 <? 16) then
       WriteString
         (Utils.ConvertToUtf8 decoder_Bytes (hex_byte (16 * d1 + d2))
            (rtfEncoding p)) p
     else p) /\
  parseControlSymbol decoder_Bytes "'" (String h1 EmptyString) p
  = (if d1 <? 16 then
       WriteString
         (Utils.ConvertToUtf8 decoder_Bytes (hex_byte d1) (rtfEncoding p)) p
     else p).
Proof.
  intros Hoff H1 H2.
  pose proof (digit_value_range _ _ H1). pose proof (digit_value_range _ _ H2).
  split; unfold parseControlSymbol; rewrite Hoff;
    change (String.eqb "'" "'") with true; cbv iota.
  - rewrite (ParseInt_hex2 _ _ _ _ H1 H2).
    destruct (Z.ltb_spec d1 16); [|by destruct (_ >? 0)].
    destruct (Z.ltb_spec d2 16); [|by destruct (_ >? 0)].
    cbn [andb]. cbv zeta. rewrite trimmed_bytes by lia.
    by destruct (_ >? 0).
  - rewrite (ParseInt_hex1 _ _ H1).
    destruct (Z.ltb_spec d1 16); [|by destruct (_ >? 0)].
    cbv zeta. rewrite trimmed_bytes by lia.
    by destruct (_ >? 0).
Qed.

Lemma one_of_cons w k ks :
  one_of w (k :: ks) = String.eqb w k || one_of w ks.
Proof. reflexivity. Qed.

(** X22. Outside htmltag groups and suppressed fragments,
    [\ansicpgN] with N above 0 selects the encoding of the text that
    follows: for every code page of the table but 864 a decoder of that
    page turns the text into UTF-8; for 864 and for a number the table
    does not hold the encoding is set all the same (to the empty name for
    an unknown number, dropping an encoding chosen before) and the text is
    written byte for byte as it stands. *)
Theorem ansicpg_selects_decoder (code text : string)
    (p : rtfHtmlEncapsulatedInterpreter) :
  insideHtmlTagGroup p <= 0 -> htmlrtf_on p = false ->
  0 < GetIntParameter code ->
  exists p1,
    parseControlWord "ansicpg" code p = Ret p1 /\
    if one_of code decoded_pages then
      exists dec, Utils.decoder_of (rtfEncoding p1) = Some dec /\
                  parseText decoder_Bytes text p1
                  = WriteString (decoder_Bytes dec text) p1
    else
      rtfEncoding p1 = (if String.eqb code "864" then "CP864" else EmptyString) /\
      parseText decoder_Bytes text p1 = WriteString text p1.
Proof.
  intros Hout Hoff Hpos.
  exists (with_rtfEncoding (Utils.GetEncodingFromCodepage code) p). split.
  { unfold parseControlWord. cbn [String.eqb Ascii.eqb Bool.eqb].
    destruct (Z.gtb_spec (insideHtmlTagGroup p) 0); [lia|].
    rewrite Hoff. cbn [negb andb one_of existsb orb String.eqb Ascii.eqb Bool.eqb].
    destruct (Z.gtb_spec (GetIntParameter code) 0); [done|lia]. }
  unfold parseText.
  change (htmlrtf_on (with_rtfEncoding _ p)) with (htmlrtf_on p). rewrite Hoff.
  cbn [rtfEncoding with_rtfEncoding]. unfold Utils.ConvertToUtf8.
  let l := eval vm_compute in decoded_pages in change decoded_pages with l.
  destruct (one_of code _) eqn:Hk.
  - repeat (rewrite one_of_cons in Hk;
            apply orb_prop in Hk as [Hk|Hk];
            [apply String.eqb_eq in Hk; subst code; eexists; split; reflexivity|]).
    discriminate.
  - repeat (rewrite one_of_cons in Hk; apply orb_false_elim in Hk as [? Hk]).
    unfold Utils.GetEncodingFromCodepage, Utils.rtfEncodeCodePageMap.
    cbn [Utils.assoc].
    repeat match goal with H : String.eqb code _ = false |- _ =>
      rewrite H; clear H end.
    by destruct (String.eqb code "864").
Qed.

End Emission.

Section EmissionAt.
Import Tree Structure Interp.

(** The theorem at [\'e9] and [\'e], inside a first group with no encoding
    selected. *)
Lemma parseControlSymbol_quote_witness :
  htmlrtf_on inside_first_group = false /\
  parseControlSymbol (fun _ s => s) "'" "e9" inside_first_group
  = WriteString (hex_byte 233) inside_first_group /\
  parseControlSymbol (fun _ s => s) "'" "e" inside_first_group
  = WriteString (hex_byte 14) inside_first_group.
Proof.
  split; [reflexivity|].
  exact (parseControlSymbol_quote (fun _ s => s) "e" "9" 14 9 inside_first_group
           eq_refl eq_refl eq_refl).
Defined.

(** The theorem at [\ansicpg1252]. *)
Lemma ansicpg_selects_decoder_witness :
  insideHtmlTagGroup inside_first_group <= 0 /\
  0 < GetIntParameter "1252" /\
  exists p1,
    parseControlWord "ansicpg" "1252" inside_first_group = Ret p1 /\
    exists dec, Utils.decoder_of (rtfEncoding p1) = Some dec /\
                parseText (fun _ s => s) "x" p1 = WriteString "x" p1.
Proof.
  split; [vm_compute; discriminate|]. split; [reflexivity|].
  apply (ansicpg_selects_decoder (fun _ s => s) "1252" "x" inside_first_group).
  - vm_compute; discriminate.
  - reflexivity.
  - reflexivity.
Defined.
End EmissionAt.


(** *** De-encapsulation of the htmltag groups *)

Section Fragments.
Import Tree Structure Interp.
Variable decoder_Bytes : Utils.Decoder -> string -> string.

Ltac fields :=
  cbn [content insideHtmlTagGroup rtfEncoding defaultFont fontTable colorTable
       styleTag groupsInitialStates groupCurrentState bodyStarted bodyStopped
       with_content with_insideHtmlTagGroup with_rtfEncoding with_defaultFont
       with_fontTable with_colorTable with_groupsInitialStates
       with_groupCurrentState with_bodyStarted with_bodyStopped WriteString] in *.

Lemma range_parse_app f xs ys p :
  range_parse f (xs ++ ys)%list p = (p ← range_parse f xs p; range_parse f ys p).
Proof.
  revert p. induction xs as [|x xs IH]; intros p; [done|].
  cbn [range_parse app]. destruct (f x p) as [q| |]; cbn [mbind run_bind]; [|done..].
  apply IH.
Qed.

(** The star of a destination writes nothing. *)
Lemma star_id v p : parseControlSymbol decoder_Bytes "*" v p = p.
Proof.
  unfold parseControlSymbol. destruct (htmlrtf_on p); [done|].
  cbn [String.eqb Ascii.eqb Bool.eqb]. by destruct (_ >? 0).
Qed.

Lemma htmltag_word n p :
  0 < insideHtmlTagGroup p -> parseControlWord "htmltag" n p = Ret p.
Proof.
  intros H. unfold parseControlWord. cbn [String.eqb Ascii.eqb Bool.eqb].
  by destruct (Z.gtb_spec (insideHtmlTagGroup p) 0); [|lia].
Qed.

Lemma parseText_plain text p :
  htmlrtf_on p = false -> Utils.decoder_of (rtfEncoding p) = None ->
  parseText decoder_Bytes text p = WriteString text p.
Proof.
  intros H1 H2. unfold parseText, Utils.ConvertToUtf8. by rewrite H1, H2.
Qed.

Lemma htmlrtf_on_cur p q :
  groupCurrentState q = groupCurrentState p -> htmlrtf_on q = htmlrtf_on p.
Proof. unfold htmlrtf_on. by intros ->. Qed.

Lemma piece_step x p :
  ready p ->
  exists p', parseElement decoder_Bytes (piece_item x) p = Ret p' /\
             ready p' /\ content p' = content p ++ piece_text x /\
             groupsInitialStates p' = groupsInitialStates p.
Proof.
  intros (Hoff & Ha & Hin & Hdec). destruct x as [n text|text].
  - cbn [piece_item htmltag_group parseElement piece_text]. unfold parseGroup_with.
    match goal with |- context [match ?e with pair _ _ => _ end] =>
      assert (He : e = (true, negb (bodyStarted p) && (GetIntParameter n =? 50),
                        if GetIntParameter n =? 58 then with_bodyStopped true p
                        else p)) by reflexivity;
      rewrite He; clear He end.
    cbv beta iota.
    set (p1 := if GetIntParameter n =? 58 then _ else p).
    assert (H1 : content p1 = content p /\ insideHtmlTagGroup p1 = 0 /\
                 rtfEncoding p1 = rtfEncoding p /\
                 groupsInitialStates p1 = groupsInitialStates p /\
                 groupCurrentState p1 = groupCurrentState p).
    { subst p1. by destruct (_ =? 58). }
    clearbody p1. destruct H1 as (H1c & H1i & H1e & H1g & H1s).
    set (isStart := negb _ && _). clearbody isStart.
    cbn [IsFontTable IsColorTable IsStylesheet IsTrackChanges IsInfo IsListtables
         IsFilesTable IsDestination CheckChildAtIndex lookup list_lookup
         String.eqb Ascii.eqb Bool.eqb orb andb].
    set (q := with_insideHtmlTagGroup (insideHtmlTagGroup p1 + 1) p1).
    set (p2 := if len (groupsInitialStates q) =? 0 then _ else q).
    assert (H2 : content p2 = content p /\ insideHtmlTagGroup p2 = 1 /\
                 rtfEncoding p2 = rtfEncoding p /\
                 groupsInitialStates p2 = groupsInitialStates p /\
                 htmlrtf_on p2 = false).
    { subst p2 q. destruct (_ =? 0); fields; rewrite ?H1i;
        repeat split; try done.
      rewrite <- Hoff. by apply htmlrtf_on_cur. }
    clearbody p2. clear q. destruct H2 as (H2c & H2i & H2e & H2g & H2s).
    rewrite copy_empty. cbn [range_parse parseElement mbind run_bind]. rewrite star_id.
    rewrite htmltag_word by (fields; lia). cbn [mbind run_bind].
    rewrite parseText_plain;
      [|by rewrite <- H2s; apply htmlrtf_on_cur|by fields; rewrite H2e].
    fields.
    destruct (pop_pushed (groupsInitialStates p2) NewRtfState) as [-> ->].
    eexists. split; [reflexivity|].
    destruct isStart; fields; rewrite H2i; change (1 - 1 <? 0) with false;
      cbv iota; unfold ready, htmlrtf_on; fields;
      rewrite ?H2c, ?H2e, ?H2g; repeat split; done.
  - cbn [piece_item parseElement piece_text]. eexists. split; [reflexivity|].
    rewrite parseText_plain by done. unfold ready. fields.
    repeat split; try done.
Qed.

Lemma silent_step w v p :
  silent w = true -> ready p ->
  exists p', parseControlWord w v p = Ret p' /\
             ready p' /\ content p' = content p /\
             groupsInitialStates p' = groupsInitialStates p.
Proof.
  intros Hs (Hoff & Ha & Hin & Hdec).
  unfold silent in Hs. apply negb_true_iff in Hs.
  rewrite one_of_cons in Hs. apply orb_false_elim in Hs as [Hh Hs].
  repeat (rewrite one_of_cons in Hs; apply orb_false_elim in Hs as [? Hs]).
  unfold parseControlWord. rewrite Hh.
  destruct (Z.gtb_spec (insideHtmlTagGroup p) 0); [lia|].
  rewrite Hoff, andb_false_r. cbn [one_of existsb].
  repeat match goal with H : String.eqb w _ = false |- _ =>
    rewrite H; clear H end.
  cbn [orb].
  destruct (String.eqb w "line"); [by exists p|].
  destruct (String.eqb w "deff").
  { eexists. split; [reflexivity|]. unfold ready, htmlrtf_on in *. by fields. }
  destruct (_ || _); [|by exists p].
  unfold updateState. destruct (DetectWordState w) as [sc ty].
  destruct (states (groupCurrentState p)) as [m|] eqn:Hm; [|done].
  eexists. split; [reflexivity|].
  unfold ready, htmlrtf_on, stateExists, stateValue, lookup_state in *.
  fields. cbn [states]. rewrite Hm in Hoff.
  rewrite lookup_insert_ne by (by apply String.eqb_neq in Hh).
  done.
Qed.

Lemma header_walk hs : forall p,
  forallb (fun h => silent h.1) hs = true -> ready p ->
  exists p', range_parse (parseElement decoder_Bytes) (map header_item hs) p = Ret p' /\
             ready p' /\ content p' = content p /\
             groupsInitialStates p' = groupsInitialStates p.
Proof.
  induction hs as [|[w v] hs IH]; intros p Hs Hr; [by exists p|].
  cbn [forallb fst] in Hs. apply andb_prop in Hs as [Hw Hs].
  destruct (silent_step w v p Hw Hr) as (p1 & H1 & Hr1 & Hc1 & Hg1).
  destruct (IH p1 Hs Hr1) as (p2 & H2 & Hr2 & Hc2 & Hg2).
  exists p2. cbn [map range_parse header_item parseElement fst snd].
  rewrite H1. cbn [mbind run_bind]. rewrite H2, Hc2, Hg2. done.
Qed.

Lemma concat_cons (x : string) xs :
  String.concat EmptyString (x :: xs) = x ++ String.concat EmptyString xs.
Proof.
  destruct xs as [|y ys]; [|done].
  cbn [String.concat]. by rewrite string_app_nil_r.
Qed.

Lemma pieces_walk xs : forall p,
  ready p ->
  exists p', range_parse (parseElement decoder_Bytes) (map piece_item xs) p = Ret p' /\
             ready p' /\
             content p' = content p ++ String.concat EmptyString (map piece_text xs) /\
             groupsInitialStates p' = groupsInitialStates p.
Proof.
  induction xs as [|x xs IH]; intros p Hr.
  { exists p. cbn [map String.concat range_parse]. by rewrite string_app_nil_r. }
  destruct (piece_step x p Hr) as (p1 & H1 & Hr1 & Hc1 & Hg1).
  destruct (IH p1 Hr1) as (p2 & H2 & Hr2 & Hc2 & Hg2).
  exists p2. cbn [map range_parse]. rewrite H1. cbn [mbind run_bind].
  rewrite H2, Hc2, Hc1, Hg2, Hg1, concat_cons, string_app_assoc. done.
Qed.

(** The interpreter on the root of such a document, from the interpreter
    that [rtfHtmlInterpreter.Parse] makes. *)
Lemma Parse_pieces rtfObj header pieces :
  Root rtfObj
  = Some (rtfControlWord "rtf" "1"
          :: map header_item header ++ map piece_item pieces)%list ->
  forallb (fun h => silent h.1) header = true ->
  exists p',
    Parse decoder_Bytes rtfObj fresh
    = Ret (p', Some (String.concat EmptyString (map piece_text pieces))).
Proof.
  intros Hroot Hsilent.
  unfold Parse, IsValid. rewrite Hroot.
  cbn [String.eqb Ascii.eqb Bool.eqb andb negb mbind run_bind parseElement].
  unfold parseGroup_with.
  match goal with |- context [match ?e with pair _ _ => _ end] =>
    assert (He : e = (false, false,
                      with_insideHtmlTagGroup 0 (with_content EmptyString fresh)))
      by reflexivity;
    rewrite He; clear He end.
  cbv beta iota.
  cbn [IsFontTable IsColorTable IsStylesheet IsTrackChanges IsInfo IsListtables
       IsFilesTable IsDestination CheckChildAtIndex lookup list_lookup
       String.eqb Ascii.eqb Bool.eqb orb andb].
  change (len (groupsInitialStates
                 (with_insideHtmlTagGroup 0 (with_content EmptyString fresh))) =? 0)
    with true. cbv iota.
  rewrite copy_empty.
  set (p0 := with_groupsInitialStates _ _).
  assert (Hr0 : ready p0) by (repeat split; done).
  cbn [range_parse parseElement].
  destruct (silent_step "rtf" "1" p0 eq_refl Hr0) as (p1 & H1 & Hr1 & Hc1 & Hg1).
  rewrite H1. cbn [mbind run_bind]. rewrite range_parse_app.
  destruct (header_walk header p1 Hsilent Hr1) as (p2 & H2 & Hr2 & Hc2 & Hg2).
  rewrite H2. cbn [mbind run_bind].
  destruct (pieces_walk pieces p2 Hr2) as (p3 & H3 & Hr3 & Hc3 & Hg3).
  rewrite H3. cbn [mbind run_bind].
  rewrite Hg3, Hg2, Hg1. subst p0. fields.
  rewrite (proj1 (pop_pushed (groupsInitialStates fresh) NewRtfState)).
  cbn [mbind run_bind].
  match goal with |- context [Ret (?x, _) = _] => exists x end.
  do 3 f_equal. fields. by rewrite Hc3, Hc2, Hc1.
Qed.

(** The encapsulation test on a root that holds the word. *)
Lemma encapsulated_found word children fuel :
  existsb (is_control_word word) children = true ->
  encapsulated_loop (S fuel) word children 0 = Ret true.
Proof.
  intros H. cbn [encapsulated_loop]. by rewrite range_children_spec, H.
Qed.

(** X23. De-encapsulation: on a document whose root holds
    [\rtf1], then control words that write nothing and select no encoding,
    [\fromhtml] among them, then any sequence of htmltag groups
    [{\*\htmltagN text}] and text runs between them, the HTML interpreter
    returns, without error, exactly the texts of the groups and the runs,
    joined in their order. *)
Theorem HtmlParse_fragments (rtfObj : RtfStructure)
    (header : list (string * string)) (pieces : list piece) (fuel : nat) :
  Root rtfObj
  = Some (rtfControlWord "rtf" "1"
          :: map header_item header ++ map piece_item pieces)%list ->
  forallb (fun h => silent h.1) header = true ->
  existsb (fun h => String.eqb h.1 "fromhtml") header = true ->
  exists p',
    HtmlParse decoder_Bytes (S fuel) rtfObj
    = Ret (Some (p', Some (String.concat EmptyString (map piece_text pieces)))).
Proof.
  intros Hroot Hsilent Hfrom.
  destruct (Parse_pieces rtfObj header pieces Hroot Hsilent) as [p' Hp].
  exists p'. unfold HtmlParse, IsHtmlEncapsulated. rewrite Hroot.
  rewrite encapsulated_found.
  - cbn [mbind run_bind]. by rewrite Hp.
  - cbn [existsb is_control_word]. rewrite existsb_app.
    apply orb_true_iff. right. apply orb_true_iff. left.
    clear -Hfrom. induction header as [|[w v] hs IH]; [done|].
    cbn [existsb map header_item is_control_word fst] in *.
    by destruct (String.eqb w "fromhtml"); [|apply IH].
Qed.

End Fragments.

Section FragmentsAt.
Import Tree Structure Interp.

(** The theorem at the tree of an encapsulated paragraph. *)
Lemma HtmlParse_fragments_witness :
  exists o,
    ParseBytes doc_fragments = Ret o /\
    exists p', HtmlParse (fun _ s => s) 1 o = Ret (Some (p', Some "<p>Hi</p>")).
Proof.
  eexists. split; [vm_compute; reflexivity|].
  apply (HtmlParse_fragments (fun _ s => s) _
           [("fromhtml", "1"); ("deff", "0")]
           [Tag "64" "<p>"; Plain "Hi"; Tag "72" "</p>"] 0); reflexivity.
Defined.
End FragmentsAt.


(** *** Writing a tree out and reading it back *)

Section RoundTrip.
Import Tree Bufio Structure.

Lemma Parse_loop_mono n : forall o m,
  Parse_loop n o <> OutOfFuel -> (n <= m)%nat -> Parse_loop m o = Parse_loop n o.
Proof.
  induction n as [|n IH]; intros o m Hn Hm; [done|].
  destruct m as [|m]; [lia|]. cbn [Parse_loop] in *.
  destruct (Parse_step o) as [[o1 [|]]| |]; try done.
  apply IH; [done|lia].
Qed.

Lemma passes_refl o : passes o o.
Proof. by exists 0%nat. Qed.

Lemma passes_trans o1 o2 o3 : passes o1 o2 -> passes o2 o3 -> passes o1 o3.
Proof.
  intros [n1 H1] [n2 H2]. exists (n1 + n2)%nat. intros k.
  rewrite <- Nat.add_assoc, H1. apply H2.
Qed.

Lemma passes_step o o' : Parse_step o = Ret (o', true) -> passes o o'.
Proof. intros H. exists 1%nat. intros k. cbn [Nat.add Parse_loop]. by rewrite H. Qed.

Lemma text_run_plain t : all_bytes plain_byte t = true -> text_run t = Some t.
Proof.
  induction t as [|c t IH]; [done|]. cbn [all_bytes text_run].
  intros [Hc Ht]%andb_prop. unfold plain_byte in Hc.
  apply andb_prop in Hc as [Hc H4]. apply andb_prop in Hc as [Hc H3].
  apply andb_prop in Hc as [H1 H2].
  apply negb_true_iff in H1, H2, H3. rewrite H1, H2, H3, H4, (IH Ht). done.
Qed.

Lemma plain_byte_text c :
  plain_byte c = true ->
  Ascii.eqb c LBRACE = false /\ Ascii.eqb c RBRACE = false /\
  Ascii.eqb c BACKSLASH = false.
Proof.
  unfold plain_byte, is_brace. intros Hc.
  apply andb_prop in Hc as [Hc H4]. apply andb_prop in Hc as [Hc H3].
  apply andb_prop in Hc as [H1 H2].
  apply negb_true_iff in H2, H3. apply orb_false_elim in H3 as [? ?]. done.
Qed.

(** One pass on a text run. *)
Lemma step_text o t rest g parents :
  buf (reader o) = t ++ rest ->
  (0 <? String.length t)%nat && all_bytes plain_byte t = true ->
  text_stop rest = true -> path o = g :: parents ->
  Parse_step o
  = Ret (mkS (mkReader None rest) (closed o) ((g ++ [rtfText t])%list :: parents)
             (uc o), true).
Proof.
  intros Hbuf [Hlen Hplain]%andb_prop Hstop Hpath.
  destruct t as [|c t']; [done|].
  pose proof Hplain as Hc. cbn [all_bytes] in Hc. apply andb_prop in Hc as [Hc _].
  destruct (plain_byte_text c Hc) as (E1 & E2 & E3).
  unfold Parse_step, ReadByte. rewrite Hbuf, string_app_String.
  cbv beta iota zeta. unfold currentGroup_is_nil. cbn [path with_reader].
  rewrite Hpath. cbn [andb]. rewrite E1, E2, E3.
  cbn [reader with_reader].
  change (UnreadByte (mkReader (Some c) (t' ++ rest)))
    with (mkReader None (String c (t' ++ rest))).
  unfold parseText. cbn [reader buf with_reader].
  rewrite <- string_app_String.
  rewrite (parseText_loop_run _ (String c t') None EmptyString (String c t') rest
             (text_run_plain _ Hplain) Hstop) by lia.
  change (EmptyString ++ String c t') with (String c t').
  cbn [string_len String.length].
  destruct (Z.ltb_spec 0 (Z.of_nat (S (String.length t')))); [|lia].
  unfold addChild. cbn [path with_reader reader closed uc].
  rewrite Hpath. done.
Qed.

Lemma letter_first c :
  Utils.ByteIsAsciiLetter c = true ->
  is_eol c = false /\ is_brace c = false /\ Ascii.eqb c BACKSLASH = false /\
  Ascii.eqb c APOSTROPHE = false.
Proof. destruct c as [[] [] [] [] [] [] [] []]; by vm_compute. Qed.

Lemma numeric_first c p :
  is_numeric (String c p) = true -> Utils.ByteIsAsciiLetter c = false.
Proof.
  cbn [is_numeric]. destruct (Ascii.eqb c MINUS) eqn:Hm.
  - apply Ascii.eqb_eq in Hm. by subst c.
  - cbn [all_bytes]. intros [Hd _]%andb_prop. revert Hd. clear.
    destruct c as [[] [] [] [] [] [] [] []]; by vm_compute.
Qed.

(** A control word that a space follows, read from its first letter. *)
Lemma parseControlWord_spaced o w p rest g parents :
  buf (reader o) = w ++ p ++ String SPACE rest ->
  all_bytes Utils.ByteIsAsciiLetter w = true -> is_numeric p = true ->
  String.eqb w "u" = false -> path o = g :: parents -> uc o <> [] ->
  parseControlWord o
  = Ret (mkS (mkReader (Some SPACE) rest) (closed o)
             ((g ++ [rtfControlWord w p])%list :: parents)
             (uc_after w p (uc o))).
Proof.
  intros Hbuf Hw Hnum Hu Hp Huc. unfold parseControlWord. rewrite Hbuf.
  assert (Hdel : delimits p (String SPACE rest) = true).
  { unfold delimits. by destruct (String.eqb p EmptyString). }
  assert (Hfirst : match p ++ String SPACE rest with
                   | String c _ => Utils.ByteIsAsciiLetter c = false
                   | EmptyString => True
                   end).
  { destruct p as [|c0 p']; [done|]. rewrite string_app_String.
    by apply (numeric_first c0 p'). }
  rewrite (read_while_app _ w (p ++ String SPACE rest) Hw Hfirst). cbv beta iota.
  destruct (read_parameter p (String SPACE rest) Hnum Hdel)
    as (sign & digits & rd1 & Hpd & Hsign & Hdig).
  unfold Peek at 1. cbn [buf]. cbv beta iota.
  unfold Peek in Hsign. cbn [buf] in Hsign. cbv beta iota in Hsign.
  rewrite Hsign, Hdig. cbv beta iota zeta. rewrite <- Hpd.
  rewrite parameter_value. unfold Peek. cbn [buf take_string].
  cbn [String.length Nat.ltb Nat.leb negb andb first_byte].
  change (Ascii.eqb SPACE SPACE) with true. cbv iota.
  unfold ReadByte. cbn [buf fst].
  unfold uc_after.
  destruct (String.eqb w "uc") eqn:Huc'.
  - rewrite store_top by done. cbn [mbind run_bind]. rewrite Hu.
    cbn [mbind run_bind]. unfold addChild. cbn [path with_reader with_uc].
    by rewrite Hp.
  - cbn [mbind run_bind]. rewrite Hu.
    cbn [mbind run_bind]. unfold addChild. cbn [path with_reader].
    by rewrite Hp.
Qed.

(** One pass on a control word. *)
Lemma step_word o w p rest g parents :
  buf (reader o) = String BACKSLASH (w ++ p ++ String SPACE rest) ->
  (0 <? String.length w)%nat = true ->
  all_bytes Utils.ByteIsAsciiLetter w = true -> is_numeric p = true ->
  String.eqb w "u" = false -> path o = g :: parents -> uc o <> [] ->
  Parse_step o
  = Ret (mkS (mkReader (Some SPACE) rest) (closed o)
             ((g ++ [rtfControlWord w p])%list :: parents)
             (uc_after w p (uc o)), true).
Proof.
  intros Hbuf Hlen Hw Hnum Hu Hpath Huc.
  destruct w as [|l w']; [done|].
  pose proof Hw as Hl. cbn [all_bytes] in Hl. apply andb_prop in Hl as [Hl _].
  unfold Parse_step, ReadByte. rewrite Hbuf. cbv beta iota zeta.
  unfold currentGroup_is_nil. cbn [path with_reader]. rewrite Hpath.
  cbn [andb]. change (Ascii.eqb BACKSLASH LBRACE) with false.
  change (Ascii.eqb BACKSLASH RBRACE) with false.
  change (Ascii.eqb BACKSLASH BACKSLASH) with true. cbv iota.
  unfold parseControl, Peek. cbn [reader with_reader buf].
  rewrite !string_app_String.
  cbn [take_string String.length Nat.ltb Nat.leb first_byte].
  rewrite Hl. cbn [negb].
  rewrite <- !string_app_String.
  rewrite (parseControlWord_spaced _ (String l w') p rest g parents);
    try done.
Qed.

Lemma symbol_byte_facts c :
  symbol_byte c = true ->
  Utils.ByteIsAsciiLetter c = false /\ is_eol c = false /\ is_brace c = false /\
  Ascii.eqb c BACKSLASH = false /\ byteZ c < 0x80.
Proof.
  unfold symbol_byte. intros H.
  apply andb_prop in H as [H H5]. apply andb_prop in H as [H H4].
  apply andb_prop in H as [H H3]. apply andb_prop in H as [H1 H2].
  apply negb_true_iff in H1, H2, H3, H4. apply Z.ltb_lt in H5. done.
Qed.

(** One pass on a control symbol without a parameter. *)
Lemma step_symbol o c rest g parents :
  buf (reader o) = String BACKSLASH (String c rest) ->
  symbol_byte c = true -> Ascii.eqb c APOSTROPHE = false ->
  path o = g :: parents ->
  Parse_step o
  = Ret (mkS (mkReader (Some c) rest) (closed o)
             ((g ++ [rtfControlSymbol (String c EmptyString) EmptyString])%list
              :: parents) (uc o), true).
Proof.
  intros Hbuf Hc Hq Hpath.
  destruct (symbol_byte_facts c Hc) as (Hl & Heol & Hbr & Hbs & Hlow).
  unfold Parse_step, ReadByte. rewrite Hbuf. cbv beta iota zeta.
  unfold currentGroup_is_nil. cbn [path with_reader]. rewrite Hpath.
  cbn [andb]. change (Ascii.eqb BACKSLASH LBRACE) with false.
  change (Ascii.eqb BACKSLASH RBRACE) with false.
  change (Ascii.eqb BACKSLASH BACKSLASH) with true. cbv iota.
  unfold parseControl, Peek. cbn [reader with_reader buf].
  cbn [take_string String.length Nat.ltb Nat.leb first_byte].
  rewrite Hl. cbn [negb].
  unfold parseControlSymbol, ReadByte. cbn [reader with_reader buf].
  rewrite Heol, Hq. unfold addChild. cbn [path with_reader]. rewrite Hpath.
  unfold string_of_byte. rewrite EncodeRune_ascii by done. done.
Qed.

(** One pass on [\'] with two bytes that [ByteIsHexDigit] takes. *)
Lemma step_quote o h1 h2 rest g parents :
  buf (reader o) = String BACKSLASH (String APOSTROPHE (String h1 (String h2 rest))) ->
  Utils.ByteIsHexDigit h1 = true -> Utils.ByteIsHexDigit h2 = true ->
  path o = g :: parents ->
  Parse_step o
  = Ret (mkS (mkReader (Some h2) rest) (closed o)
             ((g ++ [rtfControlSymbol "'" (String h1 (String h2 EmptyString))])%list
              :: parents) (uc o), true).
Proof.
  intros Hbuf H1 H2 Hpath.
  unfold Parse_step, ReadByte. rewrite Hbuf. cbv beta iota zeta.
  unfold currentGroup_is_nil. cbn [path with_reader]. rewrite Hpath.
  cbn [andb]. change (Ascii.eqb BACKSLASH LBRACE) with false.
  change (Ascii.eqb BACKSLASH RBRACE) with false.
  change (Ascii.eqb BACKSLASH BACKSLASH) with true. cbv iota.
  unfold parseControl, Peek. cbn [reader with_reader buf].
  cbn [take_string String.length Nat.ltb Nat.leb first_byte].
  change (Utils.ByteIsAsciiLetter APOSTROPHE) with false. cbn [negb].
  unfold parseControlSymbol, ReadByte, Peek. cbn [reader with_reader buf].
  change (is_eol APOSTROPHE) with false.
  change (Ascii.eqb APOSTROPHE APOSTROPHE) with true. cbv iota.
  cbn [take_string String.length Nat.ltb Nat.leb first_byte negb andb buf fst].
  rewrite H1. cbv iota.
  cbn [take_string String.length Nat.ltb Nat.leb first_byte negb andb buf fst].
  rewrite H2. cbv iota.
  unfold addChild. cbn [path with_reader buf fst]. rewrite Hpath. done.
Qed.

Lemma index_top {A} (l : list A) :
  l <> [] -> exists top, index l (len l - 1) = Some top.
Proof.
  intros Hl. destruct (index l (len l - 1)) as [top|] eqn:H; [by exists top|].
  by apply index_top_None in H.
Qed.

(** One pass on the opening brace of a group inside the root. *)
Lemma step_open o rest g parents :
  buf (reader o) = String LBRACE rest -> path o = g :: parents -> uc o <> [] ->
  exists top,
    Parse_step o
    = Ret (mkS (mkReader (Some LBRACE) rest) (closed o) ([] :: g :: parents)
               (uc o ++ [top])%list, true).
Proof.
  intros Hbuf Hpath Huc. destruct (index_top (uc o) Huc) as [top Htop].
  exists top. unfold Parse_step, ReadByte. rewrite Hbuf. cbv beta iota zeta.
  unfold currentGroup_is_nil. cbn [path with_reader]. rewrite Hpath.
  cbn [andb]. change (Ascii.eqb LBRACE LBRACE) with true. cbv iota.
  unfold startGroup, Root_is_nil. cbn [path closed with_reader uc reader].
  rewrite Hpath, Htop. by destruct (closed o).
Qed.

(** One pass on the closing brace of a group inside the root. *)
Lemma step_close o rest g p parents :
  buf (reader o) = String RBRACE rest -> path o = g :: p :: parents ->
  uc o <> [] ->
  Parse_step o
  = Ret (mkS (mkReader (Some RBRACE) rest) (closed o)
             ((p ++ [rtfGroup g])%list :: parents)
             (take (length (uc o) - 1) (uc o)), true).
Proof.
  intros Hbuf Hpath Huc.
  unfold Parse_step, ReadByte. rewrite Hbuf. cbv beta iota zeta.
  unfold currentGroup_is_nil. cbn [path with_reader]. rewrite Hpath.
  cbn [andb]. change (Ascii.eqb RBRACE LBRACE) with false.
  change (Ascii.eqb RBRACE RBRACE) with true. cbv iota.
  unfold endGroup. cbn [path closed with_reader uc reader]. rewrite Hpath.
  assert (Hpos : (0 <? len (uc o)) = true); [|by rewrite Hpos].
  apply Z.ltb_lt. unfold len. destruct (uc o); [done|]. cbn [length]. lia.
Qed.

Lemma uc_open o g parents :
  path o = g :: parents -> length (uc o) = length (path o) -> uc o <> [].
Proof. intros -> H. by destruct (uc o). Qed.

(** What follows a text run, when it is an item that is no text run, stops
    the run. *)
Lemma render_stops item rest :
  writable item = true ->
  match item with rtfText _ => False | _ => True end ->
  text_stop (render item rest) = true.
Proof.
  destruct item as [cs|w p|s p|t]; intros Hw Ht; [done| | |done].
  - cbn [writable] in Hw. apply andb_prop in Hw as [Hw _].
    apply andb_prop in Hw as [Hw _]. apply andb_prop in Hw as [Hlen Hw].
    destruct w as [|l w']; [done|]. cbn [all_bytes] in Hw.
    apply andb_prop in Hw as [Hl _].
    destruct (letter_first l Hl) as (_ & H1 & H2 & _).
    cbn [render]. rewrite string_app_String. cbn [text_stop].
    change (is_brace BACKSLASH) with false.
    change (Ascii.eqb BACKSLASH BACKSLASH) with true. by rewrite H1, H2.
  - cbn [writable] in Hw. destruct s as [|c [|]]; [done| |done].
    cbn [render]. rewrite string_app_String. cbn [text_stop].
    change (is_brace BACKSLASH) with false.
    change (Ascii.eqb BACKSLASH BACKSLASH) with true.
    destruct (Ascii.eqb_spec c APOSTROPHE) as [->|_]; [done|].
    apply andb_prop in Hw as [Hc _].
    destruct (symbol_byte_facts c Hc) as (_ & _ & H1 & H2 & _).
    by rewrite H1, H2.
Qed.

Lemma items_read_back items :
  Forall reads_back items ->
  forallb writable items = true -> separated items = true ->
  forall o rest g parents,
    buf (reader o) = render_all items rest -> path o = g :: parents ->
    length (uc o) = length (path o) -> text_stop rest = true ->
    exists o', passes o o' /\ buf (reader o') = rest /\
               path o' = (g ++ items)%list :: parents /\
               closed o' = closed o /\ length (uc o') = length (uc o) /\
               lastByte (reader o')
               = match last items with
                 | Some item => last_read item
                 | None => lastByte (reader o)
                 end.
Proof.
  induction 1 as [|item items Hitem _ IH]; intros Hw Hsep o rest g parents
    Hbuf Hpath Huc Hstop.
  { exists o. rewrite app_nil_r. split; [apply passes_refl|done]. }
  cbn [forallb] in Hw. apply andb_prop in Hw as [Hw1 Hw2].
  assert (Hsep2 : separated items = true).
  { cbn [separated] in Hsep. destruct item; try done. by destruct items as [|[] ?]. }
  cbn [render_all fold_right] in Hbuf. fold (render_all items rest) in Hbuf.
  destruct (Hitem Hw1 o (render_all items rest) g parents Hbuf Hpath Huc)
    as (o1 & Hp1 & Hb1 & Hpath1 & Hc1 & Hu1 & Hl1).
  { destruct item as [| | |t]; try done.
    destruct items as [|x xs]; [done|].
    cbn [render_all fold_right]. apply render_stops.
    - cbn [forallb] in Hw2. by apply andb_prop in Hw2 as [? _].
    - cbn [separated] in Hsep. by destruct x. }
  destruct (IH Hw2 Hsep2 o1 rest (g ++ [item])%list parents Hb1 Hpath1)
    as (o2 & Hp2 & Hb2 & Hpath2 & Hc2 & Hu2 & Hl2); [|done|].
  { rewrite Hu1, Huc, Hpath, Hpath1. done. }
  exists o2. split; [by eapply passes_trans|]. split; [done|].
  rewrite <- app_assoc in Hpath2. split; [done|].
  split; [congruence|]. split; [congruence|].
  rewrite Hl2. destruct items as [|x xs]; [exact Hl1|].
  rewrite last_cons_cons, (last_cons x xs). by destruct (last xs).
Qed.

Lemma item_reads_back item : reads_back item.
Proof.
  induction item as [cs IH|w p|s p|t] using rtfElement_tree_ind;
    intros Hw o rest g parents Hbuf Hpath Huc Hstop;
    pose proof (uc_open o g parents Hpath Huc) as Hne;
    cbn [writable] in Hw; cbn [render] in Hbuf.
  - apply andb_prop in Hw as [Hw Hsep].
    destruct (step_open o _ g parents Hbuf Hpath Hne) as [top H1].
    apply passes_step in H1.
    set (o1 := mkS _ _ _ _) in H1.
    destruct (items_read_back cs IH Hw Hsep o1 (String RBRACE rest) [] (g :: parents))
      as (o2 & Hp2 & Hb2 & Hpath2 & Hc2 & Hu2 & _); [done|done| |done|].
    { subst o1. cbn [uc path]. rewrite length_app, Huc, Hpath. cbn [length]. lia. }
    cbn [app] in Hpath2.
    assert (Hne2 : uc o2 <> []).
    { intros E. rewrite E in Hu2. subst o1. cbn [uc length] in Hu2.
      rewrite length_app in Hu2. cbn [length] in Hu2. lia. }
    pose proof (step_close o2 rest cs g parents Hb2 Hpath2 Hne2) as H3.
    apply passes_step in H3.
    eexists. split; [eapply passes_trans; [exact H1|eapply passes_trans; [exact Hp2|exact H3]]|].
    cbn [reader buf path closed uc]. split; [done|]. split; [done|].
    split; [by rewrite Hc2|]. split; [|done].
    rewrite length_take, Hu2. subst o1. cbn [uc]. rewrite length_app. cbn [length]. lia.
  - apply andb_prop in Hw as [Hw Hu]. apply andb_prop in Hw as [Hw Hnum].
    apply andb_prop in Hw as [Hlen Hw]. apply negb_true_iff in Hu.
    pose proof (step_word o w p rest g parents Hbuf Hlen Hw Hnum Hu Hpath Hne) as H1.
    apply passes_step in H1.
    eexists. split; [exact H1|]. cbn [reader buf path closed uc].
    repeat split; try done.
    unfold uc_after. destruct (String.eqb w "uc"); [|done].
    by rewrite length_insert.
  - destruct s as [|c [|]]; [done| |done].
    destruct (Ascii.eqb_spec c APOSTROPHE) as [->|Hq].
    + apply andb_prop in Hw as [Hlen Hhex].
      destruct p as [|h1 [|h2 [|]]]; try done.
      cbn [all_bytes] in Hhex. apply andb_prop in Hhex as [Hh1 Hhex].
      apply andb_prop in Hhex as [Hh2 _].
      pose proof (step_quote o h1 h2 rest g parents Hbuf Hh1 Hh2 Hpath) as H1.
      apply passes_step in H1.
      eexists. split; [exact H1|]. by cbn [reader buf path closed uc].
    + apply andb_prop in Hw as [Hc Hp]. apply String.eqb_eq in Hp. subst p.
      apply Ascii.eqb_neq in Hq.
      pose proof (step_symbol o c rest g parents Hbuf Hc Hq Hpath) as H1.
      apply passes_step in H1.
      eexists. split; [exact H1|]. by cbn [reader buf path closed uc].
  - pose proof (step_text o t rest g parents Hbuf Hw Hstop Hpath) as H1.
    apply passes_step in H1.
    eexists. split; [exact H1|]. by cbn [reader buf path closed uc].
Qed.

(** The fuel of [ParseBytes] is enough for every run of the loop that
    returns. *)
Lemma Parse_loop_enough doc n o :
  Parse_loop n (setReader (NewReader doc)) = Ret o -> ParseBytes doc = Ret o.
Proof.
  intros Hrun. unfold ParseBytes.
  pose proof (ParseBytes_returns doc) as Hret. unfold ParseBytes in Hret.
  set (o0 := setReader (NewReader doc)) in *.
  set (F := S (S (String.length doc))) in *.
  assert (Hne : Parse_loop F o0 <> OutOfFuel) by (by destruct (Parse_loop F o0)).
  rewrite <- (Parse_loop_mono F o0 (Nat.max F n) Hne) by lia.
  rewrite (Parse_loop_mono n o0 (Nat.max F n)); [done| |lia].
  by rewrite Hrun.
Qed.

(** The loop of [Parse] on a written group: it ends with the root closed
    and holding the group's children. *)
Lemma render_read_back root trailing :
  forallb writable root = true -> separated root = true ->
  exists n o,
    Parse_loop n (setReader (NewReader (render (rtfGroup root) trailing))) = Ret o /\
    closed o = Some root /\ path o = [].
Proof.
  intros Hw Hsep.
  set (doc := render (rtfGroup root) trailing).
  set (o0 := setReader (NewReader doc)).
  set (o1 := mkS (mkReader (Some LBRACE) (render_all root (String RBRACE trailing)))
                 None [[]] [1]).
  assert (H0 : passes o0 o1) by (by apply passes_step).
  destruct (items_read_back root) with (o := o1) (rest := String RBRACE trailing)
    (g := @nil rtfElement) (parents := @nil (list rtfElement))
    as (o2 & Hp2 & Hb2 & Hpath2 & Hc2 & Hu2 & _); try done.
  { apply Forall_forall. intros item _. apply item_reads_back. }
  cbn [app] in Hpath2.
  set (o3 := mkS (mkReader (Some RBRACE) trailing) (Some root) []
                 (take (length (uc o2) - 1) (uc o2))).
  assert (H3 : passes o2 o3).
  { apply passes_step. unfold Parse_step, ReadByte. rewrite Hb2.
    cbv beta iota zeta. unfold currentGroup_is_nil. cbn [path with_reader].
    rewrite Hpath2. cbn [andb]. change (Ascii.eqb RBRACE LBRACE) with false.
    change (Ascii.eqb RBRACE RBRACE) with true. cbv iota.
    unfold endGroup. cbn [path closed with_reader uc reader]. rewrite Hpath2.
    assert (Hpos : (0 <? len (uc o2)) = true); [|by rewrite Hpos].
    apply Z.ltb_lt. unfold len. rewrite Hu2. subst o1. cbn. lia. }
  destruct (passes_trans _ _ _ H0 (passes_trans _ _ _ Hp2 H3)) as [n Hn].
  assert (H4 : exists o4, Parse_step o3 = Ret (o4, false) /\
                          closed o4 = Some root /\ path o4 = []).
  { unfold Parse_step. destruct (ReadByte (reader o3)) as [[rd b] err].
    cbv beta iota zeta. subst o3. unfold currentGroup_is_nil, Root_is_nil.
    cbn [path closed with_reader andb negb]. eexists. split; [reflexivity|done]. }
  destruct H4 as (o4 & H4 & Hroot).
  exists (n + 1)%nat, o4. split; [|done].
  rewrite Hn. cbn [Parse_loop]. by rewrite H4.
Qed.

Lemma symbol_plain c : symbol_byte c = true -> plain_byte c = true.
Proof.
  intros H. destruct (symbol_byte_facts c H) as (_ & H1 & H2 & H3 & H4).
  unfold plain_byte. rewrite H1, H2, H3. by apply Z.ltb_lt in H4 as ->.
Qed.

Lemma hex_plain c : Utils.ByteIsHexDigit c = true -> plain_byte c = true.
Proof. destruct c as [[] [] [] [] [] [] [] []]; by vm_compute. Qed.

(** The pass that meets the end of the input inside a group: the byte read
    last is put back, and read as text when it is a plain byte. *)
Lemma eof_pass o lb g parents :
  reader o = mkReader lb EmptyString -> path o = g :: parents ->
  match lb with
  | Some c => is_brace c || plain_byte c = true
  | None => True
  end ->
  exists o',
    Parse_step o = Ret (o', false) /\ closed o' = closed o /\
    path o'
    = (g ++ match lb with
            | Some c => if plain_byte c then [rtfText (String c EmptyString)] else []
            | None => []
            end)%list :: parents.
Proof.
  intros Hrd Hpath Hlb.
  unfold Parse_step, ReadByte. rewrite Hrd. cbn [buf]. cbv beta iota zeta.
  unfold currentGroup_is_nil. cbn [path with_reader]. rewrite Hpath.
  cbn [andb]. change (Ascii.eqb chr_NUL LBRACE) with false.
  change (Ascii.eqb chr_NUL RBRACE) with false.
  change (Ascii.eqb chr_NUL BACKSLASH) with false. cbv iota.
  cbn [reader with_reader]. unfold UnreadByte. cbn [lastByte buf].
  unfold parseText. destruct lb as [c|]; cbn [reader with_reader buf].
  - destruct (plain_byte c) eqn:Hc.
    + change (String c EmptyString) with (String c EmptyString ++ EmptyString) at 2.
      rewrite (parseText_loop_run _ (String c EmptyString) None EmptyString
                 (String c EmptyString) EmptyString);
        [|by apply text_run_plain; cbn [all_bytes]; rewrite Hc|done|cbv [String.append String.length]; lia].
      cbn [String.append string_len String.length]. 
      change (0 <? Z.of_nat 1) with true. cbv iota.
      unfold addChild. cbn [path with_reader]. rewrite Hpath.
      cbn [mbind run_bind negb]. eexists. split; [reflexivity|done].
    + rewrite orb_false_r in Hlb.
      change (String c EmptyString) with (EmptyString ++ String c EmptyString) at 2.
      rewrite (parseText_loop_run _ EmptyString None EmptyString
                 EmptyString (String c EmptyString));
        [|done|by cbn [text_stop]; rewrite Hlb|cbv [String.append String.length]; lia].
      cbn [String.append string_len String.length].
      change (0 <? Z.of_nat 0) with false. cbv iota.
      cbn [mbind run_bind negb]. eexists. split; [reflexivity|].
      cbn [closed path with_reader]. by rewrite app_nil_r.
  - cbn [parseText_loop]. unfold Peek. cbn [buf take_string].
    cbn [string_len String.length]. change (0 <? Z.of_nat 0) with false. cbv iota.
    cbn [mbind run_bind negb]. eexists. split; [reflexivity|].
    cbn [closed path with_reader]. by rewrite app_nil_r.
Qed.

(** X29. When the input ends inside the root group, the
    tokenizer returns the tree read so far, without a panic and without an
    error; and the byte read last is put back and read once more as text:
    a document cut after a control word has a text run of one space after
    it, and a document cut after a control symbol a text run of the last
    byte of the symbol.  After a text run or a group nothing is added. *)
Theorem ParseBytes_truncated (items : list rtfElement) :
  forallb writable items = true -> separated items = true ->
  exists o, ParseBytes (String LBRACE (render_all items EmptyString)) = Ret o /\
            Root o = Some (items ++ reread items)%list.
Proof.
  intros Hw Hsep.
  set (doc := String LBRACE (render_all items EmptyString)).
  set (o0 := setReader (NewReader doc)).
  set (o1 := mkS (mkReader (Some LBRACE) (render_all items EmptyString))
                 None [[]] [1]).
  assert (H0 : passes o0 o1) by (by apply passes_step).
  destruct (items_read_back items) with (o := o1) (rest := EmptyString)
    (g := @nil rtfElement) (parents := @nil (list rtfElement))
    as (o2 & Hp2 & Hb2 & Hpath2 & Hc2 & Hu2 & Hl2); try done.
  { apply Forall_forall. intros item _. apply item_reads_back. }
  cbn [app] in Hpath2.
  set (lb := lastByte (reader o2)) in *.
  assert (Hlb : match lb with
                | Some c => is_brace c || plain_byte c = true
                | None => True
                end /\
                match lb with
                | Some c => if plain_byte c then [rtfText (String c EmptyString)] else []
                | None => []
                end = reread items).
  { rewrite Hl2. unfold reread. destruct (last items) as [item|] eqn:Hlast; [|done].
    assert (Hwi : writable item = true).
    { apply last_Some in Hlast as [l' ->]. rewrite forallb_app in Hw.
      apply andb_prop in Hw as [_ Hw]. cbn [forallb] in Hw.
      by apply andb_prop in Hw as [? _]. }
    destruct item as [cs|w p|s p|t]; cbn [last_read]; [done|done| |done].
    cbn [writable] in Hwi. destruct s as [|c [|]]; [done| |done].
    destruct (Ascii.eqb_spec c APOSTROPHE) as [->|_].
    - apply andb_prop in Hwi as [Hlen Hhex].
      destruct p as [|h1 [|h2 [|]]]; try done.
      cbn [all_bytes] in Hhex. apply andb_prop in Hhex as [_ Hhex].
      apply andb_prop in Hhex as [Hh2 _]. apply hex_plain in Hh2.
      cbv [String.append last_char]. by rewrite Hh2, orb_true_r.
    - apply andb_prop in Hwi as [Hc Hp]. apply String.eqb_eq in Hp. subst p.
      apply symbol_plain in Hc.
      cbv [String.append last_char]. by rewrite Hc, orb_true_r. }
  destruct Hlb as [Hlb Hre].
  destruct (eof_pass o2 lb items [] ) as (o3 & H3 & Hc3 & Hpath3); [|done|done|].
  { destruct (reader o2) as [lb' b'] eqn:Hr. cbn [buf lastByte] in *. by subst. }
  rewrite Hre in Hpath3.
  destruct (passes_trans _ _ _ H0 Hp2) as [n Hn].
  exists o3. split.
  - apply (Parse_loop_enough _ (n + 1)). fold doc. fold o0.
    rewrite Hn. cbn [Parse_loop]. by rewrite H3.
  - unfold Root. rewrite Hc3, Hc2, Hpath3. done.
Qed.

(** X24. Round trip of the tokenizer: a group of control words
    other than [\u], control symbols, plain text runs and groups of such,
    written out as RTF (a space after each control word, braces around each
    group), is read back by [ParseBytes] as the same tree, without a panic;
    what follows the closing brace of the root is not looked at. *)
Theorem ParseBytes_render (root : list rtfElement) (trailing : string) :
  writable (rtfGroup root) = true ->
  exists o, ParseBytes (render (rtfGroup root) trailing) = Ret o /\
            Root o = Some root.
Proof.
  intros Hw. cbn [writable] in Hw. apply andb_prop in Hw as [Hw Hsep].
  destruct (render_read_back root trailing Hw Hsep) as (n & o & Hrun & Hc & Hp).
  exists o. split.
  - by apply (Parse_loop_enough _ n).
  - unfold Root. by rewrite Hc.
Qed.

End RoundTrip.

Section RoundTripAt.
Import Tree Bufio Structure.

(** The theorem at [sample_tree], with text after the closing brace. *)
Lemma ParseBytes_render_witness :
  writable (rtfGroup sample_tree) = true /\
  exists o, ParseBytes (render (rtfGroup sample_tree) "trailing}") = Ret o /\
            Root o = Some sample_tree.
Proof.
  split; [reflexivity|].
  apply (ParseBytes_render sample_tree "trailing}"). reflexivity.
Defined.
(** The theorem at [{\rtf1 \~], cut after the control symbol. *)
Lemma ParseBytes_truncated_witness :
  String LBRACE
    (render_all [rtfControlWord "rtf" "1"; rtfControlSymbol "~" EmptyString]
       EmptyString) = "{\rtf1 \~" /\
  exists o,
    ParseBytes "{\rtf1 \~" = Ret o /\
    Root o = Some [rtfControlWord "rtf" "1"; rtfControlSymbol "~" EmptyString;
                   rtfText "~"].
Proof.
  split; [reflexivity|].
  apply (ParseBytes_truncated
           [rtfControlWord "rtf" "1"; rtfControlSymbol "~" EmptyString]);
    reflexivity.
Defined.
End RoundTripAt.


(** *** From the bytes of an encapsulated document to its HTML *)

Section Encapsulation.
Import Tree Bufio Structure Interp.
Variable decoder_Bytes : Utils.Decoder -> string -> string.

(** X25. The tokenizer and the HTML interpreter together undo
    an encapsulation: HTML cut into pieces (the texts of htmltag groups
    with numeric parameters, and text between them; every text non-empty
    and of plain bytes, no two text runs next to each other) and written
    out as [{\rtf1 \fromhtml1 ...}] is tokenized by [ParseBytes] without a
    panic, and the HTML converter returns from the tree, without error, the
    texts of the pieces joined in their order. *)
Theorem encapsulate_decapsulate (pieces : list piece) :
  writable (rtfGroup (map piece_item pieces)) = true ->
  exists o p',
    ParseBytes (encapsulate pieces) = Ret o /\
    HtmlParse decoder_Bytes 1 o
    = Ret (Some (p', Some (String.concat EmptyString (map piece_text pieces)))).
Proof.
  intros Hw. cbn [writable] in Hw. apply andb_prop in Hw as [Hw Hsep].
  set (root := rtfControlWord "rtf" "1" :: rtfControlWord "fromhtml" "1"
               :: map piece_item pieces).
  destruct (render_read_back root EmptyString) as (n & o & Hrun & Hc & Hp).
  { subst root. cbn [forallb]. by rewrite Hw. }
  { subst root. by cbn [separated]. }
  assert (Hroot : Root o = Some root) by (unfold Root; by rewrite Hc).
  destruct (Parse_pieces decoder_Bytes o [("fromhtml", "1")] pieces Hroot eq_refl)
    as [p' Hparse].
  exists o, p'. split; [by apply (Parse_loop_enough _ n)|].
  unfold HtmlParse, IsHtmlEncapsulated. rewrite Hroot.
  rewrite encapsulated_found by done.
  cbn [mbind run_bind]. by rewrite Hparse.
Qed.

End Encapsulation.

Section EncapsulationAt.
Import Tree Bufio Structure Interp.

(** The theorem at a paragraph in three pieces. *)
Lemma encapsulate_decapsulate_witness :
  encapsulate [Tag "64" "<p>"; Plain "Hi"; Tag "72" "</p>"]
  = "{\rtf1 \fromhtml1 {\*\htmltag64 <p>}Hi{\*\htmltag72 </p>}}" /\
  exists o p',
    ParseBytes (encapsulate [Tag "64" "<p>"; Plain "Hi"; Tag "72" "</p>"]) = Ret o /\
    HtmlParse (fun _ s => s) 1 o = Ret (Some (p', Some "<p>Hi</p>")).
Proof.
  split; [reflexivity|].
  apply (encapsulate_decapsulate (fun _ s => s)
           [Tag "64" "<p>"; Plain "Hi"; Tag "72" "</p>"]).
  reflexivity.
Defined.
End EncapsulationAt.


(** *** The outcomes of the HTML converter *)

Section Outcomes.
Import Tree Bufio Structure Interp.
Variable decoder_Bytes : Utils.Decoder -> string -> string.

(** X26. What [rtfHtmlInterpreter.Parse] comes to on a tree
    whose root has a child: without a [\fromhtml] among the root's children
    it returns neither a result nor an error; with one, it returns the error
    when the tree is not valid (the first child is not [\rtf1]) and the
    output of the walk when it is.  It never panics, and a walk that has
    begun always ends. *)
Theorem HtmlParse_outcomes (rtfObj : RtfStructure) (children : list rtfElement)
    (fuel : nat) :
  Root rtfObj = Some children -> children <> [] -> (11 < fuel)%nat ->
  exists valid, IsValid rtfObj = Ret valid /\
    if negb (existsb (is_control_word "fromhtml") children) then
      HtmlParse decoder_Bytes fuel rtfObj = Ret None
    else if negb valid then
      exists p, HtmlParse decoder_Bytes fuel rtfObj = Ret (Some (p, None))
    else
      exists p, HtmlParse decoder_Bytes fuel rtfObj
                = Ret (Some (p, Some (content p))).
Proof.
  intros Hroot Hne Hfuel.
  assert (Hv : exists valid, IsValid rtfObj = Ret valid).
  { unfold IsValid. rewrite Hroot. destruct children as [|[] ?]; eauto. }
  destruct Hv as [valid Hv]. exists valid. split; [done|].
  unfold HtmlParse, IsHtmlEncapsulated. rewrite Hroot.
  rewrite encapsulated_loop_scans_all by (first [done | lia]).
  cbn [mbind run_bind].
  destruct (existsb _ children); cbn [negb]; [|done].
  unfold Parse. rewrite Hv. cbn [mbind run_bind].
  destruct valid; cbn [negb]; [|eauto].
  rewrite Hroot. cbn [parseElement].
  destruct (parseGroup_walked decoder_Bytes children
              (with_insideHtmlTagGroup 0 (with_content EmptyString fresh)))
    as (p' & Hp & _); [by right|].
  unfold parseGroup in Hp. rewrite Hp. cbn [mbind run_bind]. eauto.
Qed.

End Outcomes.

Section OutcomesAt.
Import Tree Bufio Structure Interp.

(** The theorem at a tree that is valid but not encapsulated. *)
Lemma HtmlParse_outcomes_witness :
  exists o, ParseBytes doc_balanced = Ret o /\
            HtmlParse (fun _ s => s) 12 o = Ret None.
Proof.
  eexists. split; [vm_compute; reflexivity|].
  destruct (HtmlParse_outcomes (fun _ s => s)
              (mkS (mkReader None EmptyString)
                 (Some [rtfControlWord "rtf" "1"; rtfControlWord "ansi" EmptyString;
                        rtfGroup [rtfControlWord "b" EmptyString; rtfText "x"];
                        rtfText "y"]) [] [])
              [rtfControlWord "rtf" "1"; rtfControlWord "ansi" EmptyString;
               rtfGroup [rtfControlWord "b" EmptyString; rtfText "x"];
               rtfText "y"] 12) as (valid & _ & H).
  - reflexivity.
  - discriminate.
  - lia.
  - exact H.
Defined.
End OutcomesAt.


(** *** The text interpreter *)

Section TextWalk.
Import Tree Bufio Structure Interp.
Variable decoder_Bytes : Utils.Decoder -> string -> string.

(** A destination is no table, and is not walked. *)
Lemma text_destination_skipped f children
    (p : TextInterp.rtfTextEncapsulatedInterpreter) :
  IsDestination children = true ->
  TextInterp.parseGroup_with f children p = p.
Proof.
  intros Hd. unfold TextInterp.parseGroup_with.
  unfold IsFontTable, IsColorTable, IsDestination in *.
  rewrite (CheckChildAtIndex_one _ _ _ "fonttbl" Hd) by done.
  rewrite (CheckChildAtIndex_one _ _ _ "colortbl" Hd) by done.
  rewrite Hd. cbn [negb]. by destruct (_ || _).
Qed.

(** X27. The text interpreter passes over every
    destination group, whatever follows its star (an htmltag group
    included), and over the style sheet, the tracked changes, the
    information, the list tables and the file table: the interpreter is
    left exactly as it was. *)
Theorem text_parseGroup_skips (children : list rtfElement)
    (p : TextInterp.rtfTextEncapsulatedInterpreter) :
  IsDestination children || ignored children = true ->
  TextInterp.parseGroup decoder_Bytes children p = p.
Proof.
  intros H. unfold TextInterp.parseGroup.
  apply orb_prop in H as [Hd|Hi]; [by apply text_destination_skipped|].
  unfold TextInterp.parseGroup_with.
  destruct (ignored_not_htmltag children Hi) as (_ & -> & ->).
  unfold ignored in Hi. by rewrite Hi.
Qed.

Lemma text_silent_step w v p :
  text_silent w = true ->
  content (TextInterp.parseControlWord decoder_Bytes w v p) = content p /\
  rtfEncoding (TextInterp.parseControlWord decoder_Bytes w v p) = rtfEncoding p.
Proof.
  intros Hs. unfold text_silent in Hs. apply negb_true_iff in Hs.
  repeat (rewrite one_of_cons in Hs; apply orb_false_elim in Hs as [? Hs]).
  unfold TextInterp.parseControlWord. cbn [one_of existsb].
  repeat match goal with H : String.eqb w _ = false |- _ =>
    rewrite H; clear H end.
  cbn [orb]. destruct (String.eqb w "bullet"); [done|].
  by destruct (String.eqb w "deff").
Qed.

Lemma text_header_walk hs : forall p,
  forallb (fun h => text_silent h.1) hs = true ->
  content (fold_left (fun p child => TextInterp.parseElement decoder_Bytes child p)
             (map header_item hs) p) = content p /\
  rtfEncoding (fold_left (fun p child => TextInterp.parseElement decoder_Bytes child p)
                 (map header_item hs) p) = rtfEncoding p.
Proof.
  induction hs as [|[w v] hs IH]; intros p Hs; [done|].
  cbn [forallb fst] in Hs. apply andb_prop in Hs as [Hw Hs].
  cbn [map fold_left header_item TextInterp.parseElement fst snd].
  destruct (text_silent_step w v p Hw) as [Hc He].
  destruct (IH (TextInterp.parseControlWord decoder_Bytes w v p) Hs) as [Hc2 He2].
  by rewrite Hc2, He2.
Qed.

Lemma text_pieces_walk xs : forall p,
  Utils.decoder_of (rtfEncoding p) = None ->
  content (fold_left (fun p child => TextInterp.parseElement decoder_Bytes child p)
             (map piece_item xs) p)
  = content p ++ String.concat EmptyString (map outer_text xs).
Proof.
  induction xs as [|x xs IH]; intros p Hdec.
  { cbn [map fold_left String.concat]. by rewrite string_app_nil_r. }
  cbn [map fold_left]. rewrite concat_cons, string_app_assoc.
  destruct x as [n text|text]; cbn [piece_item outer_text].
  - unfold htmltag_group. cbn [TextInterp.parseElement].
    rewrite text_destination_skipped by done.
    rewrite string_app_nil_r. by apply IH.
  - cbn [TextInterp.parseElement]. unfold TextInterp.parseText, Utils.ConvertToUtf8.
    rewrite Hdec. rewrite IH by done. done.
Qed.

(** X28. The text interpreter on an encapsulated document
    keeps the text outside the htmltag groups and drops the groups: on a
    root that holds [\rtf1], control words that write nothing and select no
    encoding, then htmltag groups and text runs, from an interpreter with
    no decoder selected, it returns without error the text runs joined in
    their order, and nothing of the htmltag groups. *)
Theorem text_Parse_pieces (rtfObj : RtfStructure)
    (header : list (string * string)) (pieces : list piece)
    (p : TextInterp.rtfTextEncapsulatedInterpreter) :
  Root rtfObj
  = Some (rtfControlWord "rtf" "1"
          :: map header_item header ++ map piece_item pieces)%list ->
  forallb (fun h => text_silent h.1) header = true ->
  Utils.decoder_of (rtfEncoding p) = None ->
  exists p',
    TextInterp.Parse decoder_Bytes rtfObj p
    = Ret (p', Some (String.concat EmptyString (map outer_text pieces))).
Proof.
  intros Hroot Hsilent Hdec.
  unfold TextInterp.Parse, IsValid. rewrite Hroot.
  cbn [String.eqb Ascii.eqb Bool.eqb andb negb mbind run_bind].
  eexists. do 3 f_equal.
  cbn [TextInterp.parseElement]. unfold TextInterp.parseGroup_with.
  cbn [IsFontTable IsColorTable IsStylesheet IsTrackChanges IsInfo IsListtables
       IsFilesTable IsDestination CheckChildAtIndex lookup list_lookup
       String.eqb Ascii.eqb Bool.eqb orb andb negb].
  cbn [fold_left TextInterp.parseElement].
  set (p0 := with_insideHtmlTagGroup 0 (with_content EmptyString p)).
  destruct (text_silent_step "rtf" "1" p0 eq_refl) as [Hc1 He1].
  set (p1 := TextInterp.parseControlWord decoder_Bytes "rtf" "1" p0) in *.
  rewrite fold_left_app.
  destruct (text_header_walk header p1 Hsilent) as [Hc2 He2].
  rewrite text_pieces_walk by (by rewrite He2, He1).
  by rewrite Hc2, Hc1.
Qed.

End TextWalk.

Section TextWalkAt.
Import Tree Bufio Structure Interp.

(** The theorem at an htmltag group and at an information group. *)
Lemma text_parseGroup_skips_witness :
  TextInterp.parseGroup (fun _ s => s)
    [rtfControlSymbol "*" EmptyString; rtfControlWord "htmltag" "64";
     rtfText "<p>"] fresh = fresh /\
  TextInterp.parseGroup (fun _ s => s)
    [rtfControlWord "info" EmptyString; rtfText "x"] fresh = fresh.
Proof.
  split.
  - apply (text_parseGroup_skips (fun _ s => s)
             [rtfControlSymbol "*" EmptyString; rtfControlWord "htmltag" "64";
              rtfText "<p>"] fresh). reflexivity.
  - apply (text_parseGroup_skips (fun _ s => s)
             [rtfControlWord "info" EmptyString; rtfText "x"] fresh). reflexivity.
Defined.

(** The theorem at the tree of an encapsulated paragraph. *)
Lemma text_Parse_pieces_witness :
  exists o,
    ParseBytes doc_fragments = Ret o /\
    exists p', TextInterp.Parse (fun _ s => s) o fresh = Ret (p', Some "Hi").
Proof.
  eexists. split; [vm_compute; reflexivity|].
  apply (text_Parse_pieces (fun _ s => s) _
           [("fromhtml", "1"); ("deff", "0")]
           [Tag "64" "<p>"; Plain "Hi"; Tag "72" "</p>"] fresh); reflexivity.
Defined.
End TextWalkAt.
